(** * happy: session, services, service loader and cron

    A shallow embedding of the lifecycle core of the [happy] runtime
    (package [happy]: the Session, the Service definition, the
    serviceContainer, the ServiceLoader and the Cron wrapper), with the
    properties its specification states about them.

    Conventions of the embedding.
    - A Go [error] value is an [option error]: [None] is [nil].
    - A Go map is a [gmap]; the order in which [range] visits it is not
      fixed by the language, so a function that ranges over a map takes
      the visiting order as an argument and the theorems hold for every
      order that is a permutation of the map's contents.
    - Code that can panic or block forever returns a [Result].
    - [time.Now()] reads an oracle carried by the [World].
    - Hooks, listeners and cron jobs are user code: total functions on the
      [World] that return an optional error.
    - What the framework does to its surroundings (log records, events
      sent, goroutines spawned, contexts cancelled, hooks entered) is
      appended to a list of [Effect]s that user code cannot touch. *)

From Stdlib Require Import ZArith String Ascii List Lia.
From stdpp Require Import base option list gmap strings pretty fin_maps.

Set Warnings "-register-all".

Open Scope string_scope.
Open Scope list_scope.
Open Scope Z_scope.

(** ** Errors *)

(** [errors.New] / any leaf error, [fmt.Errorf] with a [%w] verb (the
    formatted text is computed when the error is built), [errors.Join]. *)
Inductive error : Type :=
  | errorString (s : string)
  | wrapError (msg : string) (err : error)
  | joinError (errs : list error).

Definition newline : string := String (ascii_of_nat 10) EmptyString.

(** [Error()] of the three kinds of error; a joined error prints its
    members one per line. *)
Fixpoint Error (e : error) : string :=
  match e with
  | errorString s => s
  | wrapError msg _ => msg
  | joinError errs =>
      (fix lines (l : list error) : string :=
         match l with
         | [] => ""
         | [x] => Error x
         | x :: rest => Error x +:+ newline +:+ lines rest
         end) errs
  end.

(** [fmt.Errorf("%w" + suffix, e)]. *)
Definition Errorf_w (e : error) (suffix : string) : error :=
  wrapError (Error e +:+ suffix) e.

(** [fmt.Errorf(text)] without a wrapped error. *)
Definition Errorf (text : string) : error := errorString text.

(** [errors.Join]: nil members are dropped, and the result is nil when
    nothing is left. *)
Definition errors_Join (errs : list (option error)) : option error :=
  match omap id errs with
  | [] => None
  | es => Some (joinError es)
  end.

(** [context.Canceled] and [context.DeadlineExceeded]. *)
Definition Canceled : error := errorString "context canceled".
Definition DeadlineExceeded : error := errorString "context deadline exceeded".

(** The sentinel errors of the package are declared outside the files at
    hand; the development is parametric in them. [registryError] is the
    error the service registry answers for an address it does not know. *)
Class Sentinels := {
  ErrService : error;
  ErrSessionDestroyed : error;
  registryError : string -> error
}.

(** [s] occurs in [t]. *)
Definition contains (t s : string) : Prop :=
  exists pre post, t = pre +:+ s +:+ post.

(** ** Configuration values (package vars) *)

Inductive Type_ := TypeBool | TypeInt64 | TypeString | TypeUnknown.

Inductive rawval := rawBool (b : bool) | rawOther.

Record Value := mkValue { vtype : Type_; raw : rawval; str : string }.

Definition EmptyValue : Value := mkValue TypeUnknown rawOther "".

Definition MaxInt64 : Z := 9223372036854775807.
Definition MinInt64 : Z := -9223372036854775808.

Definition digit_of (c : ascii) : option Z :=
  let n := Z.of_nat (nat_of_ascii c) in
  if (48 <=? n) && (n <=? 57) then Some (n - 48) else None.

Definition MaxUint64 : Z := 18446744073709551615.

Inductive uint_result := UOk (n : Z) | USyntax | URange.

(** The loop of [strconv.ParseUint(s, 10, 64)] over the characters: a
    character that is not a digit is a syntax error, and the first digit
    that takes the value past 64 bits ends the loop with a range error. *)
Fixpoint parse_digits (n : Z) (s : string) : uint_result :=
  match s with
  | EmptyString => UOk n
  | String c rest =>
      match digit_of c with
      | None => USyntax
      | Some d =>
          if MaxUint64 <? 10 * n + d then URange
          else parse_digits (10 * n + d) rest
      end
  end.

Definition strconv_ParseUint (s : string) : uint_result :=
  match s with
  | EmptyString => USyntax
  | _ => parse_digits 0 s
  end.

(** [strconv.ParseInt(s, 10, 64)]: the value and whether an error is
    reported. A syntax error gives 0; a value out of range is clamped
    to the nearest bound. *)
Definition strconv_ParseInt (s : string) : Z * bool :=
  match s with
  | EmptyString => (0, true)
  | String c rest =>
      let neg := Ascii.eqb c "-" in
      let body := if neg || Ascii.eqb c "+" then rest else s in
      match strconv_ParseUint body with
      | USyntax => (0, true)
      | URange => (if neg then MinInt64 else MaxInt64, true)
      | UOk un =>
          if negb neg && (MaxInt64 <? un) then (MaxInt64, true)
          else if neg && (- MinInt64 <? un) then (MinInt64, true)
          else (if neg then - un else un, false)
      end
  end.

(** [parseInt(str, 10, 64)] of the vars package. *)
Definition parseInt (s : string) : Z * bool :=
  if String.eqb s "true" then (1, false)
  else if String.eqb s "false" then (0, false)
  else strconv_ParseInt s.

Definition parseBool (s : string) : bool * bool :=
  if existsb (String.eqb s) ["1"; "t"; "T"; "true"; "TRUE"; "True"] then (true, false)
  else if existsb (String.eqb s) ["0"; "f"; "F"; "false"; "FALSE"; "False"] then (false, false)
  else (false, true).

Definition Value_Int64 (v : Value) : Z := fst (parseInt (str v)).

Definition Value_Bool (v : Value) : bool :=
  match vtype v, raw v with
  | TypeBool, rawBool b => b
  | _, _ => fst (parseBool (str v))
  end.

(** Modelled from the spec: the Variable store behind [Session.Get] (§6,
    [Get(key) -> Value]) is not among the sources. A key that was never
    set answers the empty value. *)
Definition Options_Get (opts : gmap string Value) (key : string) : Value :=
  default EmptyValue (opts !! key).

(** ** Results of code that may panic or block *)

Inductive Result (A : Type) : Type :=
  | Ok (a : A)
  | Panic (msg : string)
  | Blocked.
Arguments Ok {A} a.
Arguments Panic {A} msg.
Arguments Blocked {A}.

(** ** Addresses, events, service status *)

(** An [address.Address] once parsed; [String()] prints its URL. *)
Record Address := mkAddress { url : string; Host : string; Instance : string }.

Definition Address_String (a : Address) : string := url a.

(** What a payload entry or a log attribute can hold. *)
Inductive pval :=
  | PStr (s : string)
  | PBool (b : bool)
  | PInt (n : Z)
  | PTime (t : Z)
  | PDuration (d : Z)
  | PAddr (a : Address)
  | PErr (e : error).

(** [vars.Map.Store]: the entry of an existing key is replaced, a new
    key is added at the end. *)
Fixpoint Store (k : string) (v : pval) (m : list (string * pval)) : list (string * pval) :=
  match m with
  | [] => [(k, v)]
  | (k', v') :: rest =>
      if String.eqb k k' then (k, v) :: rest else (k', v') :: Store k v rest
  end.

Record Event := NewEvent {
  Scope : string;
  Key : string;
  Payload : list (string * pval);
  EventErr : option error
}.

(** A channel variable: nil, open, or closed. *)
Inductive chan := chNil | chOpen | chClosed.

(** [close(ch)]. *)
Definition close (c : chan) : Result chan :=
  match c with
  | chNil => Panic "close of nil channel"
  | chOpen => Ok chClosed
  | chClosed => Panic "close of closed channel"
  end.

(** A context as far as this code observes it: its [Err()], nil while it
    is live. A context variable that may itself be nil is an
    [option Context]. *)
Definition Context := option error.

(** Calling the cancel function of a [context.WithCancel] context. *)
Definition cancel_ctx (c : option Context) : option Context :=
  match c with
  | Some None => Some (Some Canceled)
  | other => other
  end.

Record ServiceInfo := mkServiceInfo {
  name : string;
  addr : Address;
  running : bool;
  errs : option (gmap Z error);
  startedAt : Z;
  stoppedAt : Z
}.

(** ** Session *)

Record Session := mkSession {
  ready : option Context;
  readyFunc : bool;          (* the cancel function is set *)
  sigCtx : option Context;   (* field [sig] *)
  sigRelease : bool;         (* the release function is set *)
  err : option error;
  done : chan;
  evch : chan;
  opts : gmap string Value
}.

Definition set_ready v (s : Session) :=
  mkSession v (readyFunc s) (sigCtx s) (sigRelease s) (err s) (done s) (evch s) (opts s).
Definition set_readyFunc v (s : Session) :=
  mkSession (ready s) v (sigCtx s) (sigRelease s) (err s) (done s) (evch s) (opts s).
Definition set_sigCtx v (s : Session) :=
  mkSession (ready s) (readyFunc s) v (sigRelease s) (err s) (done s) (evch s) (opts s).
Definition set_sigRelease v (s : Session) :=
  mkSession (ready s) (readyFunc s) (sigCtx s) v (err s) (done s) (evch s) (opts s).
Definition set_err v (s : Session) :=
  mkSession (ready s) (readyFunc s) (sigCtx s) (sigRelease s) v (done s) (evch s) (opts s).
Definition set_done v (s : Session) :=
  mkSession (ready s) (readyFunc s) (sigCtx s) (sigRelease s) (err s) v (evch s) (opts s).
Definition set_evch v (s : Session) :=
  mkSession (ready s) (readyFunc s) (sigCtx s) (sigRelease s) (err s) (done s) v (opts s).

Definition Session_Err (s : Session) : option error := err s.

Section WithSentinels.
Context `{Sentinels}.

(** [Session.Destroy] takes the session lock twice and calls the signal
    release between the two; each of the four pieces below runs without
    another goroutine in between. *)

(** First locked section: the error is written (nil becomes
    [ErrSessionDestroyed]) and the readiness gate is released. *)
Definition Destroy_set (e : option error) (s : Session) : Session :=
  let s := set_err e s in
  let s := if readyFunc s then set_ready (cancel_ctx (ready s)) s else s in
  if err s is None then set_err (Some ErrSessionDestroyed) s else s.

(** Between the locks: the signal context is released and the release
    function forgotten. *)
Definition Destroy_release (s : Session) : Session :=
  if sigRelease s
  then set_sigRelease false (set_sigCtx (cancel_ctx (sigCtx s)) s)
  else s.

(** Second locked section: both channels are closed when they exist. *)
Definition Destroy_close (s : Session) : Result Session :=
  match (if evch s is chNil then Ok s
         else match close (evch s) with
              | Ok c => Ok (set_evch c s)
              | Panic m => Panic m
              | Blocked => Blocked
              end) with
  | Ok s =>
      if done s is chNil then Ok s
      else match close (done s) with
           | Ok c => Ok (set_done c s)
           | Panic m => Panic m
           | Blocked => Blocked
           end
  | other => other
  end.

(** [Session.Destroy] run from entry to return with nothing in between. *)
Definition Session_Destroy (e : option error) (s : Session) : Result Session :=
  if Session_Err s is Some _ then Ok s
  else Destroy_close (Destroy_release (Destroy_set e s)).

(** [Session.Done]: the channel is made on first use. *)
Definition Session_Done (s : Session) : chan * Session :=
  let s := if done s is chNil then set_done chOpen s else s in
  (done s, s).

(** [Session.Ready]: the Done channel of the ready context; a nil context
    cannot be asked. *)
Definition Session_Ready (s : Session) : Result bool :=
  match ready s with
  | None => Panic "nil pointer dereference"
  | Some c => Ok (bool_decide (c <> None))
  end.

(** [Session.start]. [signal.NotifyContext] derives a cancel context from
    its parent, here the session itself, and deriving a context asks the
    parent for its Done channel: the session's done channel exists from
    here on, and a session that is already done yields a signal context
    that is cancelled from the start. *)
Definition Session_start (s : Session) : Session :=
  let s := set_readyFunc true (set_ready (Some None) s) in
  let '(d, s) := Session_Done s in
  let c : Context := if d is chClosed then Some (default Canceled (err s)) else None in
  set_sigRelease true (set_sigCtx (Some c) s).

(** [Session.setReady]. *)
Definition Session_setReady (s : Session) : Result Session :=
  if readyFunc s then Ok (set_ready (cancel_ctx (ready s)) s)
  else Panic "nil pointer dereference".

(** [Session.Value] asked with an [*int] key. *)
Definition Session_Value_int (s : Session) : Result Session :=
  match sigCtx s with
  | Some (Some e) => Session_Destroy (Some e) s
  | _ => Ok s
  end.

(** An interrupt or kill signal arrives: the signal context is cancelled. *)
Definition os_signal (s : Session) : Session :=
  set_sigCtx (cancel_ctx (sigCtx s)) s.

(** The session's done channel is closed and the signal context, derived
    from the session, follows. *)
Definition parent_done (s : Session) : Session :=
  set_sigCtx (match sigCtx s with
              | Some None => Some (Some (default Canceled (err s)))
              | other => other
              end) s.

Definition Session_Get (s : Session) (key : string) : Value := Options_Get (opts s) key.

End WithSentinels.

(** ** The world, effects, and the monad of framework code *)

Record World := mkWorld {
  sess : Session;
  clock : nat -> Z;                       (* what successive [time.Now()] calls answer *)
  reads : nat;                            (* how many have been made *)
  registry : gmap string ServiceInfo      (* the engine's services, by address *)
}.

Definition set_sess v (w : World) := mkWorld v (clock w) (reads w) (registry w).

Inductive Level := LSystemDebug | LDebug | LWarn | LError.

Inductive hookName :=
  | HInitialize | HStart | HStop | HTick | HTock
  | HListener (key : string) (i : nat).

Inductive Effect :=
  | ELog (lvl : Level) (msg : string) (attrs : list (string * pval))
  | ESend (ev : Event)                    (* an event handed over on the event channel *)
  | ECall (h : hookName)                  (* user code entered *)
  | ECancel (cause : option error)        (* the container's cancel function called *)
  | ECronStart                            (* the scheduler's timer loop started *)
  | ECronStop                             (* scheduler shutdown requested *)
  | ECronDrained                          (* the scheduler's stop context is done *)
  | ESpawnJob (id : Z)                    (* [go job.Job.Run()] *)
  | EWithTimeout (d : Z)                  (* [context.WithTimeout(sess, d)] *)
  | ESpawnWaiter.                         (* the loader's goroutine *)

Record Rt := mkRt { world : World; effects : list Effect }.

Definition M (A : Type) : Type := Rt -> Result (A * Rt).

Definition ret {A} (a : A) : M A := fun r => Ok (a, r).

Definition bind {A B} (m : M A) (k : A -> M B) : M B :=
  fun r => match m r with
           | Ok (a, r') => k a r'
           | Panic msg => Panic msg
           | Blocked => Blocked
           end.

Notation "x <- m ;; k" := (bind m (fun x => k))
  (at level 100, m at next level, right associativity).
Notation "m >> k" := (bind m (fun _ => k))
  (at level 100, right associativity).

Definition panic {A} (msg : string) : M A := fun _ => Panic msg.

Definition lift {A} (x : Result A) : M A :=
  fun r => match x with
           | Ok a => Ok (a, r)
           | Panic msg => Panic msg
           | Blocked => Blocked
           end.
Definition block {A} : M A := fun _ => Blocked.

Definition emit (e : Effect) : M unit :=
  fun r => Ok (tt, mkRt (world r) (effects r ++ [e])).

Definition Log (lvl : Level) (msg : string) (attrs : list (string * pval)) : M unit :=
  emit (ELog lvl msg attrs).

Definition get_world : M World := fun r => Ok (world r, r).
Definition put_world (w : World) : M unit := fun r => Ok (tt, mkRt w (effects r)).
Definition get_sess : M Session := fun r => Ok (sess (world r), r).

(** [time.Now().UTC()]. *)
Definition time_Now : M Z :=
  fun r =>
    let w := world r in
    Ok (clock w (reads w),
        mkRt (mkWorld (sess w) (clock w) (S (reads w)) (registry w)) (effects r)).

(** [when c m]: [if c { m }]. *)
Definition when (c : bool) (m : M unit) : M unit := if c then m else ret tt.

(** [for _, x := range l { body x }] over a slice. *)
Fixpoint for_each {A} (l : list A) (body : A -> M unit) : M unit :=
  match l with
  | [] => ret tt
  | x :: rest => body x >> for_each rest body
  end.

(** User code. *)
Definition Action := World -> option error * World.
Definition ActionTick := World -> Z -> Z -> option error * World.
Definition ActionTock := World -> Z -> Z -> option error * World.
Definition ActionWithEvent := World -> Event -> option error * World.

(** Entering user code. *)
Definition call (h : hookName) (f : World -> option error * World) : M (option error) :=
  emit (ECall h) >>
  w <- get_world ;;
  let '(e, w') := f w in
  put_world w' >> ret e.

Section Framework.
Context `{Sentinels}.

(** [Session.Dispatch]: a nil event is logged and dropped; otherwise the
    event is sent on the unbuffered event channel, whose receiving end is
    the engine's dispatch loop. Sending on a nil channel blocks forever
    and sending on a closed one panics. *)
Definition Session_Dispatch (ev : option Event) : M unit :=
  match ev with
  | None => Log LWarn "received <nil> event" []
  | Some ev =>
      s <- get_sess ;;
      match evch s with
      | chNil => block
      | chClosed => panic "send on closed channel"
      | chOpen => emit (ESend ev)
      end
  end.

(** Modelled from the spec: [Session.ServiceInfo], the registry lookup by
    address (§6), is not among the sources. *)
Definition Session_ServiceInfo (w : World) (a : string) : ServiceInfo + error :=
  match registry w !! a with
  | Some i => inl i
  | None => inr (registryError a)
  end.

(** ** ServiceInfo *)

Definition ServiceInfo_Failed (i : ServiceInfo) : bool :=
  match errs i with
  | Some m => bool_decide (0 < size m)%nat
  | None => false
  end.

Definition ServiceInfo_started (i : ServiceInfo) : M ServiceInfo :=
  t <- time_Now ;;
  ret (mkServiceInfo (name i) (addr i) true (errs i) t (stoppedAt i)).

Definition ServiceInfo_stopped (i : ServiceInfo) : M ServiceInfo :=
  t <- time_Now ;;
  ret (mkServiceInfo (name i) (addr i) false (errs i) (startedAt i) t).

(** [ServiceInfo.addErr]: a nil error is ignored; otherwise the error is
    filed under the current time. *)
Definition ServiceInfo_addErr (e : option error) (i : ServiceInfo) : M ServiceInfo :=
  match e with
  | None => ret i
  | Some e =>
      t <- time_Now ;;
      ret (mkServiceInfo (name i) (addr i) (running i)
             (Some (<[t := e]> (default ∅ (errs i)))) (startedAt i) (stoppedAt i))
  end.

End Framework.

(** ** Service *)

Record Service := mkService {
  svc_name : string;
  initializeAction : option Action;
  startAction : option Action;
  stopAction : option Action;
  tickAction : option ActionTick;
  tockAction : option ActionTock;
  listeners : option (gmap string (list ActionWithEvent));
  (* [cronsetup] can only call [Job] on the scheduler it is given: it is
     the list of registrations it makes *)
  cronsetup : option (list (string * Action))
}.

Definition NewService (n : string) : Service :=
  mkService n None None None None None None None.

Definition set_listeners v (s : Service) :=
  mkService (svc_name s) (initializeAction s) (startAction s) (stopAction s)
    (tickAction s) (tockAction s) v (cronsetup s).

(** [s.listeners[k] = append(s.listeners[k], cb)], the map made on first use. *)
Definition add_listener (k : string) (cb : ActionWithEvent) (s : Service) : Service :=
  let m := default ∅ (listeners s) in
  set_listeners (Some (<[k := default [] (m !! k) ++ [cb]]> m)) s.

Definition Service_OnEvent (scope key : string) (cb : ActionWithEvent) (s : Service) : Service :=
  let lid := scope +:+ "." +:+ key in
  add_listener lid cb s.

Definition Service_OnAnyEvent (cb : ActionWithEvent) (s : Service) : Service :=
  add_listener "any" cb s.

(** ** Cron *)

(** The cron scheduler is a library outside the repository; the wrapper is
    verified against any scheduler with these operations. [cron_wait]
    answers the scheduler once the context returned by [Stop] is done,
    [None] if that never happens. *)
Class Scheduler (L : Type) := {
  cron_New : L;
  cron_AddFunc : string -> Action -> L -> (Z * option error) * L;
  cron_Entry_Job : Z -> L -> option Action;
  cron_Start : L -> L;
  cron_Stop : L -> L;
  cron_wait : L -> option L
}.

Section Containers.
Context `{Sentinels} {L : Type} `{Scheduler L}.

Record Cron := mkCron { lib : L; jobIDs : list Z }.

Definition newCron : Cron := mkCron cron_New [].

(** [Cron.Job]. *)
Definition Cron_Job (expr : string) (cb : Action) (cs : Cron) : M Cron :=
  let '((id, e), l) := cron_AddFunc expr cb (lib cs) in
  let cs := mkCron l (jobIDs cs ++ [id]) in
  match e with
  | Some e => Log LError "failed to add job" [("err", PErr e); ("id", PInt id)] >> ret cs
  | None => ret cs
  end.

(** [Cron.Start]. *)
Definition Cron_Start (cs : Cron) : M Cron :=
  s <- get_sess ;;
  when (Value_Bool (Session_Get s "app.cron.on.service.start"))
    (for_each (jobIDs cs) (fun id =>
       Log LSystemDebug "executing cron first time" [("id", PInt id)] >>
       when (bool_decide (is_Some (cron_Entry_Job id (lib cs)))) (emit (ESpawnJob id)))) >>
  emit ECronStart >>
  ret (mkCron (cron_Start (lib cs)) (jobIDs cs)).

(** [Cron.Stop]: ask the scheduler to stop and wait on the context it
    answers. *)
Definition Cron_Stop (cs : Cron) : M Cron :=
  emit ECronStop >>
  match cron_wait (cron_Stop (lib cs)) with
  | None => block
  | Some l => emit ECronDrained >> ret (mkCron l (jobIDs cs))
  end.

(** ** serviceContainer *)

Record serviceContainer := mkContainer {
  info : ServiceInfo;
  svc : Service;
  cancel : bool;               (* the cancel function is set *)
  ctx : option Context;        (* the derived context: nil, or its cause *)
  cron : option Cron
}.

Definition set_info v (c : serviceContainer) := mkContainer v (svc c) (cancel c) (ctx c) (cron c).
Definition set_cron v (c : serviceContainer) := mkContainer (info c) (svc c) (cancel c) (ctx c) v.
Definition set_ctx v f (c : serviceContainer) := mkContainer (info c) (svc c) f v (cron c).

(** [Service.container]. *)
Definition Service_container (s : Service) (a : Address) : serviceContainer :=
  mkContainer (mkServiceInfo (svc_name s) a false None 0 0) s false None None.

Definition service_attr (c : serviceContainer) : list (string * pval) :=
  [("service", PStr (Address_String (addr (info c))))].

(** [serviceContainer.initialize]. *)
Definition initialize (c : serviceContainer) : M (option error * serviceContainer) :=
  e <- match initializeAction (svc c) with
       | Some a => call HInitialize a
       | None => ret None
       end ;;
  match e with
  | Some e =>
      i <- ServiceInfo_addErr (Some e) (info c) ;;
      ret (Some e, set_info i c)
  | None =>
      c <- match cronsetup (svc c) with
           | Some jobs =>
               cs <- fold_left (fun m j => cs <- m ;; Cron_Job (fst j) (snd j) cs)
                               jobs (ret newCron) ;;
               ret (set_cron (Some cs) c)
           | None => ret c
           end ;;
      Log LDebug "service initialied" (service_attr c) >>
      ret (None, c)
  end.

(** [context.WithCancelCause(parent)]: a nil parent panics; the child of
    a cancelled parent is cancelled with the parent's cause. *)
Definition WithCancelCause (parent : option Context) : M Context :=
  match parent with
  | None => panic "cannot create context from nil parent"
  | Some p => ret p
  end.

Definition started_payload (i : ServiceInfo) (e : option error) : list (string * pval) :=
  let p := Store "name" (PStr (name i)) [] in
  let p := Store "addr" (PAddr (addr i)) p in
  let p := if e is Some e then Store "err" (PErr e) p else p in
  let p := Store "running" (PBool (running i)) p in
  Store "started.at" (PTime (startedAt i)) p.

(** [serviceContainer.start]. *)
Definition start (ectx : option Context) (c : serviceContainer)
  : M (option error * serviceContainer) :=
  e <- match startAction (svc c) with
       | Some a => call HStart a
       | None => ret None
       end ;;
  c <- match cron c with
       | Some cs =>
           Log LSystemDebug "starting cron jobs" (service_attr c) >>
           cs <- Cron_Start cs ;;
           ret (set_cron (Some cs) c)
       | None => ret c
       end ;;
  d <- WithCancelCause ectx ;;
  let c := set_ctx (Some d) true c in
  i <- match e with
       | None => ServiceInfo_started (info c)
       | Some _ => ServiceInfo_addErr e (info c)
       end ;;
  let c := set_info i c in
  Session_Dispatch
    (Some (NewEvent "services" "service.started" (started_payload i e) None)) >>
  Log LDebug "service started" (service_attr c) >>
  ret (None, c).

Definition stopped_payload (i : ServiceInfo) (e : option error) : list (string * pval) :=
  let p := Store "name" (PStr (name i)) [] in
  let p := Store "addr" (PAddr (addr i)) p in
  let p := if e is Some e then Store "err" (PErr e) p else p in
  let p := Store "running" (PBool (running i)) p in
  Store "stopped.at" (PTime (stoppedAt i)) p.

(** Calling the stored [context.CancelCauseFunc]: calling a nil function
    panics; the first cancellation of a context fixes its cause, a nil
    cause standing for [context.Canceled]. *)
Definition call_cancel (cause : option error) (c : serviceContainer) : M serviceContainer :=
  if cancel c then
    emit (ECancel cause) >>
    ret (set_ctx (match ctx c with
                  | Some None => Some (Some (default Canceled cause))
                  | other => other
                  end) true c)
  else panic "invalid memory address or nil pointer dereference".

(** [serviceContainer.stop]. *)
Definition stop (e : option error) (c : serviceContainer)
  : M (option error * serviceContainer) :=
  match e with
  | Some e' => Log LError "service error" (("err", PErr e') :: service_attr c)
  | None => ret tt
  end >>
  c <- match cron c with
       | Some cs =>
           Log LSystemDebug "stopping cron scheduler, waiting jobs to finish" (service_attr c) >>
           cs <- Cron_Stop cs ;;
           ret (set_cron (Some cs) c)
       | None => ret c
       end ;;
  c <- call_cancel e c ;;
  err0 <- match stopAction (svc c) with
          | Some a => call HStop a
          | None => ret None
          end ;;
  let err1 := if e is Some _ then errors_Join [err0; e] else err0 in
  i <- ServiceInfo_stopped (info c) ;;
  let c := set_info i c in
  Session_Dispatch
    (Some (NewEvent "services" "service.stopped" (stopped_payload i err1) None)) >>
  Log LDebug "service stopped" (service_attr c) >>
  ret (err1, c).

(** [serviceContainer.tick] and [tock]. *)
Definition tick (ts delta : Z) (c : serviceContainer) : M (option error) :=
  match tickAction (svc c) with
  | None => ret None
  | Some a => call HTick (fun w => a w ts delta)
  end.

Definition tock (delta tps : Z) (c : serviceContainer) : M (option error) :=
  match tockAction (svc c) with
  | None => ret None
  | Some a => call HTock (fun w => a w delta tps)
  end.

(** The body of the inner loop of [handleEvent] for the [i]-th listener
    filed under [sk]. *)
Definition handle_one (lid sk : string) (ev : Event) (i : nat) (listener : ActionWithEvent)
    (c : serviceContainer) : M serviceContainer :=
  if String.eqb sk "any" || String.eqb sk lid then
    e <- call (HListener sk i) (fun w => listener w ev) ;;
    match e with
    | Some e' =>
        inf <- ServiceInfo_addErr e (info c) ;;
        let c := set_info inf c in
        Log LError "event handler error" (("err", PErr e') :: service_attr c) >>
        ret c
    | None => ret c
    end
  else ret c.

Fixpoint handle_slice (lid sk : string) (ev : Event) (i : nat) (ls : list ActionWithEvent)
    (c : serviceContainer) : M serviceContainer :=
  match ls with
  | [] => ret c
  | l :: rest =>
      c <- handle_one lid sk ev i l c ;;
      handle_slice lid sk ev (S i) rest c
  end.

Fixpoint handle_range (lid : string) (ev : Event)
    (visit : list (string * list ActionWithEvent))
    (c : serviceContainer) : M serviceContainer :=
  match visit with
  | [] => ret c
  | (sk, ls) :: rest =>
      c <- handle_slice lid sk ev 0 ls c ;;
      handle_range lid ev rest c
  end.

(** [serviceContainer.handleEvent]; [visit] is the order in which this
    call's [range] goes through the listener table. *)
Definition handleEvent (visit : list (string * list ActionWithEvent)) (ev : Event)
    (c : serviceContainer) : M serviceContainer :=
  match listeners (svc c) with
  | None => ret c
  | Some _ =>
      let lid := Scope ev +:+ "." +:+ Key ev in
      handle_range lid ev visit c
  end.

End Containers.

Arguments Cron : clear implicits.
Arguments serviceContainer : clear implicits.

(** ** ServiceLoader *)

Record ServiceLoader := mkLoader {
  loading : bool;
  loaderCh : chan;
  sl_errs : list error;           (* field [errs] *)
  hostaddr : option Address;
  svcs : list Address
}.

(** What the loader's goroutine is started with. *)
Record Waiter := mkWaiter {
  queue : gmap string ServiceInfo;
  require : list string;
  timeout : Z
}.

(** What one visit of the polling loop reads from a queued service
    record: [Addr()], [Errs()] in the order its [range] goes through
    them, and [Running()]. *)
Record status := mkStatus {
  st_addr : Address;
  st_errs : option (list error);
  st_running : bool
}.

(** One round of the goroutine's [select]: the context is done (with its
    [Err()]), or the ticker fired; either way the queue is ranged over. *)
Inductive select_event :=
  | CtxDone (visit : list status) (ctxErr : error)
  | Tick (visit : list status).

Definition second : Z := 1000000000.

Section Loader.
Context `{Sentinels}.

(** [ServiceLoader.addErr]. *)
Definition sl_addErr (e : option error) (sl : ServiceLoader) : ServiceLoader :=
  match e with
  | None => sl
  | Some e => mkLoader (loading sl) (loaderCh sl) (sl_errs sl ++ [e]) (hostaddr sl) (svcs sl)
  end.

(** [ServiceLoader.cancel]. *)
Definition sl_cancel (reason : option error) (sl : ServiceLoader) : M ServiceLoader :=
  Log LWarn "sevice loader canceled"
      [("reason", match reason with Some e => PErr e | None => PStr "<nil>" end)] >>
  let sl := sl_addErr reason sl in
  ch <- lift (close (loaderCh sl)) ;;
  ret (mkLoader false ch (sl_errs sl) (hostaddr sl) (svcs sl)).

(** [ServiceLoader.done]. *)
Definition sl_done (sl : ServiceLoader) : M ServiceLoader :=
  Log LDebug "service loader completed" [] >>
  ch <- lift (close (loaderCh sl)) ;;
  ret (mkLoader false ch (sl_errs sl) (hostaddr sl) (svcs sl)).

(** [ServiceLoader.Err]. *)
Definition ServiceLoader_Err (sl : ServiceLoader) : option error :=
  if loading sl
  then Some (Errorf_w ErrService
    ": service loader error checked before loader finished! did you wait for .Loaded?")
  else errors_Join (Some <$> sl_errs sl).

(** The timeout [Load] reads from the configuration. *)
Definition loader_timeout (s : Session) : Z :=
  let t := Value_Int64 (Session_Get s "app.service.loader.timeout") in
  if t <=? 0 then second * 30 else t.

Definition duplicated (a : string) : error :=
  Errorf_w ErrService (": duplicated service request " +:+ a).

(** The loop of [Load] over the targets; [inl] is the loader after an
    early return, [inr] the queue and the addresses to request. *)
Fixpoint Load_targets (l : list Address) (q : gmap string ServiceInfo) (req : list string)
    (sl : ServiceLoader) : M (ServiceLoader + gmap string ServiceInfo * list string) :=
  match l with
  | [] => ret (inr (q, req))
  | svcaddr :: rest =>
      let a := Address_String svcaddr in
      w <- get_world ;;
      match Session_ServiceInfo w a with
      | inr e => sl <- sl_cancel (Some e) sl ;; ret (inl sl)
      | inl i =>
          if bool_decide (is_Some (q !! a)) then
            sl <- sl_cancel (Some (duplicated a)) sl ;; ret (inl sl)
          else if running i then
            Log LSystemDebug "requested service is already running" [("service", PStr a)] >>
            Load_targets rest q req sl
          else
            Log LSystemDebug "requesting service" [("service", PStr a)] >>
            Load_targets rest (<[a := i]> q) (req ++ [a]) sl
      end
  end.

(** [StartServicesEvent]. *)
Definition StartServicesEvent (l : list string) : Event :=
  NewEvent "services" "start.services"
    (fold_left (fun p ia => Store ("service." +:+ pretty (fst ia)) (PStr (snd ia)) p)
               (imap (fun i a => (i, a)) l) [])
    None.

Definition set_loading (b : bool) (sl : ServiceLoader) : ServiceLoader :=
  mkLoader b (loaderCh sl) (sl_errs sl) (hostaddr sl) (svcs sl).

(** [ServiceLoader.Load] up to the start of its goroutine. The channel it
    returns is always [loaderCh]; the result here is the loader and,
    when the goroutine was started, what it was started with. *)
Definition Load (sl : ServiceLoader) : M (ServiceLoader * option Waiter) :=
  if loading sl then ret (sl, None)
  else
    let sl := set_loading true sl in
    if negb (bool_decide (sl_errs sl = [])) then
      sl <- sl_cancel (Some (Errorf_w ErrService ": loader initializeton failed")) sl ;;
      ret (sl, None)
    else
      s <- get_sess ;;
      let t := Value_Int64 (Session_Get s "app.service.loader.timeout") in
      when (t <=? 0)
        (Log LSystemDebug "service loader using default timeout"
           [("timeout", PDuration (second * 30)); ("app.service.loader.timeout", PInt t)]) >>
      let tmo := loader_timeout s in
      h <- match hostaddr sl with
           | Some h => ret h
           | None => panic "invalid memory address or nil pointer dereference"
           end ;;
      Log LSystemDebug "loading services..."
          [("host", PStr (Host h)); ("instance", PStr (Instance h))] >>
      r <- Load_targets (svcs sl) ∅ [] sl ;;
      match r with
      | inl sl => ret (sl, None)
      | inr (q, req) =>
          Session_Dispatch (Some (StartServicesEvent req)) >>
          emit (EWithTimeout tmo) >>
          emit ESpawnWaiter >>
          ret (sl, Some (mkWaiter q req tmo))
      end.

Definition failed_to_load (a : string) : error :=
  Errorf_w ErrService (": service loader failed to load required services " +:+ a).

Definition not_on_time (a : string) : error :=
  Errorf ("service did not load on time " +:+ a).

(** The ticker branch: the range over the queue. [inl] is the loader
    after the abort, [inr] the number of running services counted. *)
Fixpoint poll (visit : list status) (loaded : nat) (sl : ServiceLoader)
    : M (ServiceLoader + nat) :=
  match visit with
  | [] => ret (inr loaded)
  | st :: rest =>
      match st_errs st with
      | Some es =>
          let sl := fold_left (fun sl e => sl_addErr (Some e) sl) es sl in
          sl <- sl_cancel (Some (failed_to_load (Address_String (st_addr st)))) sl ;;
          ret (inl sl)
      | None =>
          poll rest (if st_running st then S loaded else loaded) sl
      end
  end.

(** The context branch: every queued service that is not running is
    reported. *)
Definition expire (visit : list status) (sl : ServiceLoader) : ServiceLoader :=
  fold_left (fun sl st =>
               if st_running st then sl
               else sl_addErr (Some (not_on_time (Address_String (st_addr st)))) sl)
            visit sl.

(** The goroutine of [Load], run against the rounds of its [select];
    [None] when the rounds run out with the loop still going. *)
Fixpoint waiter (qlen : nat) (rounds : list select_event) (sl : ServiceLoader)
    : M (option ServiceLoader) :=
  match rounds with
  | [] => ret None
  | CtxDone visit ctxErr :: _ =>
      Log LWarn "loader context done" [] >>
      sl <- sl_cancel (Some ctxErr) (expire visit sl) ;;
      ret (Some sl)
  | Tick visit :: rest =>
      r <- poll visit 0 sl ;;
      match r with
      | inl sl => ret (Some sl)
      | inr loaded =>
          if Nat.eqb loaded qlen
          then sl <- sl_done sl ;; ret (Some sl)
          else waiter qlen rest sl
      end
  end.

End Loader.

(** ** Sessions under concurrent callers

    [Destroy] gives up the session lock between its pieces, so other
    goroutines run in between. A configuration is the session together
    with the [Destroy] calls that are under way, each at one of its four
    pieces; a step runs one piece of one call, or a whole short method of
    some other goroutine. *)

Inductive task :=
  | DestroyEnter (e : option error)    (* about to test [s.Err()] *)
  | DestroySet (e : option error)      (* test passed, about to write the error *)
  | DestroyRelease                     (* error written, about to release the signal *)
  | DestroyClose.                      (* about to close the channels *)

(** A call that has written its error and not yet returned. *)
Definition tearing_down (t : task) : bool :=
  match t with
  | DestroyRelease | DestroyClose => true
  | _ => false
  end.

Section Interleaving.
Context `{Sentinels}.

(** One piece of a [Destroy] call: the session after it and what is left
    of the call. *)
Definition run_task (t : task) (s : Session) : Result (Session * option task) :=
  match t with
  | DestroyEnter e =>
      if Session_Err s is Some _ then Ok (s, None) else Ok (s, Some (DestroySet e))
  | DestroySet e => Ok (Destroy_set e s, Some DestroyRelease)
  | DestroyRelease => Ok (Destroy_release s, Some DestroyClose)
  | DestroyClose =>
      match Destroy_close s with
      | Ok s => Ok (s, None)
      | Panic m => Panic m
      | Blocked => Blocked
      end
  end.

(** A call run piece after piece with no other goroutine in between. *)
Fixpoint run_call (fuel : nat) (t : task) (s : Session) : Result Session :=
  match fuel with
  | O => Blocked
  | S fuel =>
      match run_task t s with
      | Ok (s, Some t) => run_call fuel t s
      | Ok (s, None) => Ok s
      | Panic m => Panic m
      | Blocked => Blocked
      end
  end.

Definition config : Type := Session * list task.

Inductive step : config -> config -> Prop :=
  | step_call s ts e :
      (* some goroutine calls [Destroy(e)] *)
      step (s, ts) (s, ts ++ [DestroyEnter e])
  | step_probe s ts e :
      (* [Value] is asked with an [*int] key after the signal arrived *)
      sigCtx s = Some (Some e) ->
      step (s, ts) (s, ts ++ [DestroyEnter (Some e)])
  | step_task_more s ts i t s' t' :
      ts !! i = Some t -> run_task t s = Ok (s', Some t') ->
      step (s, ts) (s', <[i := t']> ts)
  | step_task_return s ts i t s' :
      ts !! i = Some t -> run_task t s = Ok (s', None) ->
      step (s, ts) (s', delete i ts)
  | step_Done s ts :
      step (s, ts) (snd (Session_Done s), ts)
  | step_setReady s ts s' :
      Session_setReady s = Ok s' ->
      step (s, ts) (s', ts)
  | step_signal s ts :
      step (s, ts) (os_signal s, ts)
  | step_parent_done s ts :
      (* the signal context is a child of the session: once the session's
         done channel is closed it is cancelled with the session's error *)
      done s = chClosed ->
      step (s, ts) (parent_done s, ts).

(** A session as the engine makes it, before [start]: no error, and no
    channel closed yet. *)
Definition fresh (s : Session) : Prop :=
  err s = None /\ done s <> chClosed /\ evch s <> chClosed.

(** The configurations a started session can get into. *)
Definition reachable (c : config) : Prop :=
  exists s0, fresh s0 /\ rtc step (Session_start s0, []) c.

(** The teardown of a session is complete. *)
Definition torn_down (s : Session) : Prop :=
  (exists e, ready s = Some (Some e)) /\
  sigRelease s = false /\
  (exists e, sigCtx s = Some (Some e)) /\
  evch s <> chOpen /\
  done s <> chOpen.

End Interleaving.

(** ** Instances used by the examples *)

(** The texts of the sentinels are not in the files at hand; the examples
    run with these. *)
Definition exampleSentinels : Sentinels := {|
  ErrService := errorString "service error";
  ErrSessionDestroyed := errorString "session destroyed";
  registryError := fun a => errorString ("no service " +:+ a)
|}.

(** A scheduler for the examples: entry ids count from 1, and an empty
    expression is refused with id 0. Nothing runs on its own, so it is
    drained as soon as it is stopped. *)
Record exampleCron := mkExampleCron {
  entries : list (Z * Action);
  nextID : Z;
  crunning : bool
}.

Definition exampleCron_Entry (id : Z) (l : exampleCron) : option Action :=
  match list_find (fun e => fst e = id) (entries l) with
  | Some (_, (_, job)) => Some job
  | None => None
  end.

Definition exampleScheduler : Scheduler exampleCron := {|
  cron_New := mkExampleCron [] 0 false;
  cron_AddFunc := fun expr cb l =>
    if String.eqb expr "" then ((0, Some (errorString "empty spec string")), l)
    else ((nextID l + 1, None),
          mkExampleCron (entries l ++ [(nextID l + 1, cb)]) (nextID l + 1) (crunning l));
  cron_Entry_Job := exampleCron_Entry;
  cron_Start := fun l => mkExampleCron (entries l) (nextID l) true;
  cron_Stop := fun l => mkExampleCron (entries l) (nextID l) false;
  cron_wait := fun l => Some l
|}.

Definition exampleAddress (n : string) : Address :=
  mkAddress ("happy://host/app/service/" +:+ n) "host" "app".

Definition exampleSession : Session :=
  mkSession None false None false None chNil chOpen ∅.

Definition exampleWorld (s : Session) : World :=
  mkWorld s (fun n => 1000 + Z.of_nat n) 0 ∅.

(** * Further code *)

(** ** Formatting integers (vars, parser.go) *)

Definition sdigits : string := "0123456789abcdefx".
Definition udigits : string := "0123456789ABCDEFX".

Definition two64 : Z := 18446744073709551616.

(** The conversions [uint64(v)] of an int64 and [int64(u)] of a uint64. *)
Definition as_uint64 (v : Z) : Z := v mod two64.
Definition as_int64 (u : Z) : Z := if u <? 9223372036854775808 then u else u - two64.

(** The loop of [parserFmt.integer]: the digits are written right to left
    into the 68 byte buffer, [i] being the index of the last byte written
    and [acc] the bytes from there to the end. Writing below index 0
    would be out of range. *)
Fixpoint integer_loop (i : nat) (u : Z) (acc : string) : option (nat * Z * string) :=
  if 10 <=? u then
    match i with
    | O => None
    | S i' =>
        let next := u / 10 in
        integer_loop i' next (String (ascii_of_nat (Z.to_nat (48 + u - next * 10))) acc)
    end
  else Some (i, u, acc).

(** [parserFmt.integer(u, 10, isSigned, digits)]: what it appends to the
    parser's buffer. *)
Definition parserFmt_integer (u : Z) (isSigned : bool) (digits : string) : Result string :=
  let negative := isSigned && (as_int64 u <? 0) in
  let u := if negative then (- u) mod two64 else u in
  match integer_loop 68 u "" with
  | Some (S i, u, acc) =>
      match String.get (Z.to_nat u) digits with
      | Some d =>
          if negative then
            match i with
            | O => Panic "index out of range"
            | S _ => Ok (String "-" (String d acc))
            end
          else Ok (String d acc)
      | None => Panic "index out of range"
      end
  | _ => Panic "index out of range"
  end.

(** The text [parser.parseValue] writes for an int64 and for a uint64. *)
Definition format_int64 (v : Z) : Result string :=
  parserFmt_integer (as_uint64 v) true sdigits.
Definition format_uint64 (u : Z) : Result string :=
  parserFmt_integer u false udigits.

(** [parseUint(str, 10, 64)] of the vars package: the value and whether
    an error is reported. *)
Definition parseUint (s : string) : Z * bool :=
  if String.eqb s "true" then (1, false)
  else if String.eqb s "false" then (0, false)
  else match strconv_ParseUint s with
       | UOk n => (n, false)
       | USyntax => (0, true)
       | URange => (MaxUint64, true)
       end.

(** ** Application names (address.go) *)

(** The functions of Go's [unicode] package that [ensure] calls, with
    what their tables say about the letters and digits of ASCII and the
    dot. A rune is its code point. *)
Definition is_digit (c : Z) : bool := (48 <=? c) && (c <=? 57).
Definition is_upper (c : Z) : bool := (65 <=? c) && (c <=? 90).
Definition is_lower (c : Z) : bool := (97 <=? c) && (c <=? 122).

(** [unicode.Is(alnum, c)] for the range table [alnum] of the package. *)
Definition is_alnum (c : Z) : bool := is_digit c || is_upper c || is_lower c.

Definition dot : Z := 46.

Class Unicode := {
  unicode_IsSpace : Z -> bool;
  unicode_IsLower : Z -> bool;
  unicode_ToLower : Z -> Z;
  IsSpace_kept : forall c, is_alnum c = true \/ c = dot -> unicode_IsSpace c = false;
  IsLower_kept : forall c, is_alnum c = true \/ c = dot -> unicode_IsLower c = is_lower c;
  ToLower_upper : forall c, is_upper c = true -> unicode_ToLower c = c + 32;
  ToLower_other : forall c, is_digit c = true \/ c = dot -> unicode_ToLower c = c
}.

Section Ensure.
Context `{Unicode}.

(** [ensure], on the runes that [range] reads from its argument; the
    result is the runes written to the buffer. *)
Fixpoint ensure (input : list Z) : list Z :=
  match input with
  | [] => []
  | c :: rest =>
      let isAlnum := is_alnum c in
      let isSpace := unicode_IsSpace c in
      let isLower := unicode_IsLower c in
      if isSpace || (negb isAlnum && negb (c =? dot)) then ensure rest
      else (if negb isLower then unicode_ToLower c else c) :: ensure rest
  end.

End Ensure.

(** The tables restricted to ASCII. *)
Definition asciiUnicode : Unicode.
Proof.
  refine {|
    unicode_IsSpace := fun c => (c =? 32) || ((9 <=? c) && (c <=? 13));
    unicode_IsLower := is_lower;
    unicode_ToLower := fun c => if is_upper c then c + 32 else c
  |}.
  - intros c [Hc| ->]; [|reflexivity].
    unfold is_alnum, is_digit, is_upper, is_lower in Hc. lia.
  - reflexivity.
  - intros c ->. reflexivity.
  - intros c [Hc| ->]; [|reflexivity].
    unfold is_digit in Hc. unfold is_upper.
    destruct ((65 <=? c) && (c <=? 90)) eqn:E; [lia|reflexivity].
Defined.

(** ** The rest of the service loader and of the container *)

(** [ResolveService] parses URLs with the standard library: the loader is
    verified for any resolver. *)
Class Resolver := { ResolveService : Address -> string -> Address + error }.

Section Constructor.
Context `{Sentinels} `{Resolver}.

(** The loop of [NewServiceLoader] over the requested names. A nil host
    address cannot resolve anything: [ResolveService] reads a field of
    its receiver on either of its paths. *)
Fixpoint resolve_all (host : option Address) (names : list string) (sl : ServiceLoader)
    : Result ServiceLoader :=
  match names with
  | [] => Ok sl
  | n :: rest =>
      match host with
      | None => Panic "invalid memory address or nil pointer dereference"
      | Some h =>
          match ResolveService h n with
          | inr e => resolve_all host rest (sl_addErr (Some e) sl)
          | inl a =>
              resolve_all host rest
                (mkLoader (loading sl) (loaderCh sl) (sl_errs sl) (hostaddr sl) (svcs sl ++ [a]))
          end
      end
  end.

(** [NewServiceLoader], given what [address.Parse] answers for the text
    of [app.host.addr]. *)
Definition NewServiceLoader (parsed : Address + error) (names : list string)
    : Result ServiceLoader :=
  let loader := mkLoader false chOpen [] None [] in
  let loader :=
    match parsed with
    | inr e =>
        sl_addErr (Some (Errorf_w ErrService ": loader requires valid app.host.addr"))
          (sl_addErr (Some e) loader)
    | inl _ => loader
    end in
  let host := match parsed with inl h => Some h | inr _ => None end in
  let loader := mkLoader (loading loader) (loaderCh loader) (sl_errs loader) host (svcs loader) in
  resolve_all host names loader.

(** [StopServicesEvent]. *)
Definition StopServicesEvent (l : list string) : Event :=
  NewEvent "services" "stop.services"
    (fold_left (fun p ia => Store ("service." +:+ pretty (fst ia)) (PStr (snd ia)) p)
               (imap (fun i a => (i, a)) l) [])
    None.

End Constructor.

Section StopInTwo.
Context `{Sentinels} {L : Type} `{Scheduler L}.

(** [serviceContainer.stop] up to the scheduler's answer to the stop
    request ([cs.lib.Stop()] in [Cron.Stop]): the cause is logged, and for
    a service with a Cron the wait is announced and the scheduler asked
    to stop. *)
Definition stop_request (e : option error) (c : serviceContainer L) : M unit :=
  match e with
  | Some e' => Log LError "service error" (("err", PErr e') :: service_attr c)
  | None => ret tt
  end >>
  match cron c with
  | Some cs =>
      Log LSystemDebug "stopping cron scheduler, waiting jobs to finish" (service_attr c) >>
      emit ECronStop
  | None => ret tt
  end.

(** The rest of [serviceContainer.stop], from the wait on the context
    the scheduler answered ([<-ctx.Done()] in [Cron.Stop]) on. *)
Definition stop_from_wait (e : option error) (c : serviceContainer L)
  : M (option error * serviceContainer L) :=
  c <- match cron c with
       | Some cs =>
           match cron_wait (cron_Stop (lib cs)) with
           | None => block
           | Some l => emit ECronDrained >> ret (set_cron (Some (mkCron l (jobIDs cs))) c)
           end
       | None => ret c
       end ;;
  c <- call_cancel e c ;;
  err0 <- match stopAction (svc c) with
          | Some a => call HStop a
          | None => ret None
          end ;;
  let err1 := if e is Some _ then errors_Join [err0; e] else err0 in
  i <- ServiceInfo_stopped (info c) ;;
  let c := set_info i c in
  Session_Dispatch
    (Some (NewEvent "services" "service.stopped" (stopped_payload i err1) None)) >>
  Log LDebug "service stopped" (service_attr c) >>
  ret (err1, c).

End StopInTwo.

(** [serviceContainer.Done]: the Done channel of the derived context,
    here whether it is closed; there is no context before [start]. *)
Definition serviceContainer_Done {L} (c : serviceContainer L) : Result bool :=
  match ctx c with
  | None => Panic "invalid memory address or nil pointer dereference"
  | Some cause => Ok (bool_decide (cause <> None))
  end.

(** * Vocabulary of the properties *)

(** The listeners entered, in order, as (table key, index in its slice). *)
Definition listener_calls (es : list Effect) : list (string * nat) :=
  omap (fun e => match e with ECall (HListener k i) => Some (k, i) | _ => None end) es.

(** The listeners of one slice, from index [i] on. *)
Definition slice_ids {A} (k : string) (i : nat) (ls : list A) : list (string * nat) :=
  (fun j => (k, j)) <$> seq i (length ls).

(** The events handed over on the event channel. *)
Definition sends (es : list Effect) : list Event :=
  omap (fun e => match e with ESend ev => Some ev | _ => None end) es.

(** [s] is a prefix of [t]; [s] occurs in [t]. *)
Fixpoint prefixb (s t : string) : bool :=
  match s, t with
  | EmptyString, _ => true
  | String a s', String b t' => Ascii.eqb a b && prefixb s' t'
  | String _ _, EmptyString => false
  end.

Fixpoint containsb (t s : string) : bool :=
  prefixb s t || match t with
                 | EmptyString => false
                 | String _ t' => containsb t' s
                 end.

(** A target that is registered and not running. *)
Definition pending (w : World) (a : Address) : Prop :=
  exists i, registry w !! Address_String a = Some i /\ running i = false.

Definition registered (w : World) (a : Address) : Prop :=
  is_Some (registry w !! Address_String a).

(** A round of the goroutine that neither ends the load nor fails it: a
    tick at which no queued service shows an error and not all of them
    are running. *)
Definition idle (qlen : nat) (ev : select_event) : Prop :=
  exists visit,
    ev = Tick visit /\
    Forall (fun st => st_errs st = None) visit /\
    length (List.filter st_running visit) <> qlen.

Definition quiet (ts : list task) : Prop :=
  Forall (fun t => tearing_down t = false) ts.

Definition no_close (ts : list task) : Prop :=
  Forall (fun t => t <> DestroyClose) ts.

(** What holds in every configuration of a started session. *)
Record inv (c : config) : Prop := mkInv {
  inv_readyFunc : readyFunc (fst c) = true;
  inv_ready : exists r, ready (fst c) = Some r;
  inv_done : done (fst c) <> chNil;
  inv_sig : exists r, sigCtx (fst c) = Some r;
  inv_gate : err (fst c) <> None -> exists e, ready (fst c) = Some (Some e);
  inv_released : sigRelease (fst c) = false -> exists e, sigCtx (fst c) = Some (Some e);
  inv_closing : sigRelease (fst c) = false \/ no_close (snd c);
  inv_total : err (fst c) <> None -> quiet (snd c) ->
              sigRelease (fst c) = false /\ evch (fst c) <> chOpen /\ done (fst c) <> chOpen;
  inv_live : err (fst c) = None ->
             evch (fst c) <> chClosed /\ done (fst c) <> chClosed /\ quiet (snd c)
}.

Definition relevant (lid : string) (p : string * list ActionWithEvent) : Prop :=
  p.1 = "any" \/ p.1 = lid.

#[global] Instance relevant_dec lid p : Decision (relevant lid p).
Proof. unfold relevant. apply _. Defined.

(** The slices that count, for a table [m]. *)
Definition entry_of (m : gmap string (list ActionWithEvent)) (k : string)
  : list (string * list ActionWithEvent) :=
  match m !! k with
  | Some ls => [(k, ls)]
  | None => []
  end.

Section SessionVocabulary.
Context `{Sentinels}.

(** A run of [Destroy] calls, one after the other. *)
Fixpoint Destroy_all (es : list (option error)) (s : Session) : Result Session :=
  match es with
  | [] => Ok s
  | e :: rest =>
      match Session_Destroy e s with
      | Ok s' => Destroy_all rest s'
      | other => other
      end
  end.

End SessionVocabulary.

Section ContainerVocabulary.
Context `{Sentinels} {L : Type} `{Scheduler L}.

(** What the run-every-job-once path of [Cron.Start] does for one id. *)
Definition first_run (cs : Cron L) (id : Z) : list Effect :=
  ELog LSystemDebug "executing cron first time" [("id", PInt id)]
  :: (if cron_Entry_Job id (lib cs) is Some _ then [ESpawnJob id] else []).

(** The cron part of [stop]: when the scheduler drains, the world is left
    alone and the effects are the log record, the stop request and the
    drained signal, in this order. *)
Definition stop_cron_effects (c : serviceContainer L) : list Effect :=
  match cron c with
  | Some _ =>
      [ELog LSystemDebug "stopping cron scheduler, waiting jobs to finish" (service_attr c);
       ECronStop; ECronDrained]
  | None => []
  end.

Definition drained (c : serviceContainer L) : option (Cron L) :=
  match cron c with
  | Some cs =>
      match cron_wait (cron_Stop (lib cs)) with
      | Some l => Some (mkCron l (jobIDs cs))
      | None => None
      end
  | None => None
  end.

(** What the stop hook answers and the world it leaves. *)
Definition stop_hook_result (c : serviceContainer L) (w : World) : option error * World :=
  match stopAction (svc c) with
  | Some a => a w
  | None => (None, w)
  end.

(** Running the listeners filed under [k1], then those under [k2]. *)
Definition run_groups (lid : string) (ev : Event)
    (m : gmap string (list ActionWithEvent)) (k1 k2 : string)
    (c : serviceContainer L) : M (serviceContainer L) :=
  c <- handle_slice lid k1 ev 0 (default [] (m !! k1)) c ;;
  handle_slice lid k2 ev 0 (default [] (m !! k2)) c.

End ContainerVocabulary.

(** * Values of the examples *)

Section ExampleValues.
#[local] Existing Instance exampleSentinels.
#[local] Existing Instance exampleScheduler.

Definition boom : error := errorString "boom".

(** A started session with an event channel, and the same session after
    one [Destroy] call has written its error. *)
Definition started_session : Session := Session_start exampleSession.
Definition half_destroyed : Session := Destroy_set (Some boom) started_session.

Definition destroyed : Session :=
  match Destroy_close (Destroy_release half_destroyed) with
  | Ok s => s
  | _ => half_destroyed
  end.

Definition failing (msg : string) : Action := fun w => (Some (errorString msg), w).
Definition succeeding : Action := fun w => (None, w).

Definition rt0 : Rt := mkRt (exampleWorld started_session) [].

(** A service whose start and stop hooks both fail. *)
Definition grumpy : Service :=
  mkService "grumpy" None (Some (failing "start failed")) (Some (failing "stop failed"))
            None None None None.

Definition grumpy_created : serviceContainer exampleCron :=
  Service_container grumpy (exampleAddress "grumpy").

(** The same container once started, with a scheduler. *)
Definition grumpy_started : serviceContainer exampleCron :=
  mkContainer (info grumpy_created) grumpy true (Some None) (Some newCron).

(** Two listeners for [jobs.done], one for any event. *)
Definition noisy : Service :=
  Service_OnEvent "jobs" "done" (fun w _ => (None, w))
    (Service_OnAnyEvent (fun w _ => (Some boom, w))
       (Service_OnEvent "jobs" "done" (fun w _ => (Some boom, w))
          (Service_OnEvent "jobs" "failed" (fun w _ => (None, w)) (NewService "noisy")))).

Definition noisy_container : serviceContainer exampleCron :=
  Service_container noisy (exampleAddress "noisy").

Definition noisy_table : gmap string (list ActionWithEvent) :=
  default ∅ (listeners noisy).

Definition addrA : Address := exampleAddress "a".
Definition addrB : Address := exampleAddress "b".

Definition infoA (run : bool) : ServiceInfo := mkServiceInfo "a" addrA run None 0 0.

(** A world whose registry knows service [a], running or not. *)
Definition world_with_a (run : bool) : World :=
  mkWorld started_session (fun n => 1000 + Z.of_nat n) 0
          {[ Address_String addrA := infoA run ]}.

(** A loader asked for [a] twice. *)
Definition twice_a : ServiceLoader :=
  mkLoader false chOpen [] (Some (mkAddress "happy://host/app" "host" "app")) [addrA; addrA].

Definition idle_loader : ServiceLoader :=
  mkLoader true chOpen [] (Some (mkAddress "happy://host/app" "host" "app")) [addrA; addrB].

Definition failedA : status := mkStatus addrA (Some [errorString "a broke"]) false.
Definition failedB : status := mkStatus addrB (Some [errorString "b broke"]) false.
Definition waitingB : status := mkStatus addrB None false.

(** What the goroutine leaves when both queued services show an error at
    the same tick. *)
Definition both_failed : ServiceLoader :=
  match waiter 2 [Tick [failedA; failedB]] idle_loader rt0 with
  | Ok (Some sl, _) => sl
  | _ => idle_loader
  end.

(** With the key unset the timeout is 30 seconds; with a value it is the
    value. *)
Definition patient_session : Session :=
  mkSession (Some None) true (Some None) true None chOpen chOpen
            {[ "app.service.loader.timeout" := mkValue TypeInt64 rawOther "5000000000" ]}.

End ExampleValues.

(** The timeouts of the contexts made with [context.WithTimeout], in
    order. *)
Definition timeouts (es : list Effect) : list Z :=
  omap (fun e => match e with EWithTimeout d => Some d | _ => None end) es.

(** User code cannot reopen a channel: a hook that finds the session's
    event channel closed leaves it closed. *)
Definition keeps_closed (f : World -> option error * World) : Prop :=
  forall w, evch (sess w) = chClosed -> evch (sess (snd (f w))) = chClosed.

Section LoaderVocabulary.
Context `{Resolver}.

(** The targets the host address resolves from the names, and the errors
    of the names it does not resolve, both in the order of the names. *)
Definition resolved (h : Address) (names : list string) : list Address :=
  omap (fun n => match ResolveService h n with inl a => Some a | inr _ => None end) names.

Definition unresolved (h : Address) (names : list string) : list error :=
  omap (fun n => match ResolveService h n with inl _ => None | inr e => Some e end) names.

End LoaderVocabulary.

Section LoaderErrors.
Context `{Sentinels}.

(** The error [Load] cancels with when the constructor left errors. *)
Definition initialization_failed : error :=
  Errorf_w ErrService ": loader initializeton failed".

End LoaderErrors.

(** The addresses of the targets that are registered and not running, in
    the order of the targets, and the queue made of their records. *)
Definition to_start (w : World) (l : list Address) : list string :=
  omap (fun a => match registry w !! Address_String a with
                 | Some i => if running i then None else Some (Address_String a)
                 | None => None
                 end) l.

Definition queue_of (w : World) (l : list Address) (q : gmap string ServiceInfo)
    : gmap string ServiceInfo :=
  fold_left (fun q a => match registry w !! Address_String a with
                        | Some i => if running i then q else <[Address_String a := i]> q
                        | None => q
                        end) l q.

(** * Values of the further examples *)

Section MoreExampleValues.
#[local] Existing Instance exampleSentinels.
#[local] Existing Instance exampleScheduler.

(** A scheduler whose jobs never finish: it is never drained. *)
Definition stuckScheduler : Scheduler exampleCron := {|
  cron_New := mkExampleCron [] 0 false;
  cron_AddFunc := fun expr cb l =>
    ((nextID l + 1, None),
     mkExampleCron (entries l ++ [(nextID l + 1, cb)]) (nextID l + 1) (crunning l));
  cron_Entry_Job := exampleCron_Entry;
  cron_Start := fun l => mkExampleCron (entries l) (nextID l) true;
  cron_Stop := fun l => mkExampleCron (entries l) (nextID l) false;
  cron_wait := fun _ => None
|}.

(** A resolver for the examples: the empty name is refused. *)
Definition exampleResolver : Resolver := {|
  ResolveService := fun _ n =>
    if String.eqb n "" then inr (errorString "address error: not a service")
    else inl (exampleAddress n)
|}.

(** A runtime whose session was destroyed, and one whose clock stands
    still. *)
Definition rt_destroyed : Rt := mkRt (exampleWorld destroyed) [].
Definition rt_frozen : Rt := mkRt (mkWorld started_session (fun _ => 1000) 0 ∅) [].

(** The started container of a service that failed before. *)
Definition grumpy_failed : serviceContainer exampleCron :=
  mkContainer (mkServiceInfo "grumpy" (exampleAddress "grumpy") true
                 (Some {[ 5 := boom ]}) 0 0)
              grumpy true (Some None) (Some newCron).

(** A service with two cron registrations, the first one refused, and
    one whose initialize hook fails. *)
Definition scheduled : Service :=
  mkService "scheduled" None None None None None None
            (Some [("", succeeding); ("@hourly", succeeding)]).

Definition faulty : Service :=
  mkService "faulty" (Some (failing "no config")) None None None None None
            (Some [("@hourly", succeeding)]).

(** A listener filed under scope [jobs.done] and key [x]. *)
Definition dotted : Service :=
  Service_OnEvent "jobs.done" "x" (fun w _ => (None, w)) (NewService "dotted").

Definition infoB (run : bool) : ServiceInfo := mkServiceInfo "b" addrB run None 0 0.

(** A world whose registry knows [a], running, and [b], not running. *)
Definition world_ab : World :=
  mkWorld started_session (fun n => 1000 + Z.of_nat n) 0
          {[ Address_String addrA := infoA true; Address_String addrB := infoB false ]}.

Definition hostAddress : Address := mkAddress "happy://host/app" "host" "app".

Definition loader_ab : ServiceLoader :=
  mkLoader false chOpen [] (Some hostAddress) [addrA; addrB].

(** A loader whose second target is not registered. *)
Definition loader_bc : ServiceLoader :=
  mkLoader false chOpen [] (Some hostAddress) [addrB; exampleAddress "c"].

Definition runningB : status := mkStatus addrB None true.

(** A loader asked for [b] alone, and a world with the patient session in
    which [b] is registered and not running. *)
Definition loader_b : ServiceLoader :=
  mkLoader false chOpen [] (Some hostAddress) [addrB].

Definition world_patient : World :=
  mkWorld patient_session (fun n => 1000 + Z.of_nat n) 0
          {[ Address_String addrB := infoB false ]}.

End MoreExampleValues.

(** * Properties *)

(** ** Sequencing *)

Lemma bind_Ok {A B} (m : M A) (k : A -> M B) r a r' :
  m r = Ok (a, r') -> bind m k r = k a r'.
Proof. intros E. unfold bind. rewrite E. reflexivity. Qed.

Lemma bind_inv {A B} (m : M A) (k : A -> M B) r b r' :
  bind m k r = Ok (b, r') -> exists a r1, m r = Ok (a, r1) /\ k a r1 = Ok (b, r').
Proof.
  unfold bind. destruct (m r) as [[a r1]| |]; [eauto|discriminate..].
Qed.

Ltac bind_inv H :=
  let a := fresh "a" in let r1 := fresh "r" in let H1 := fresh H in
  apply bind_inv in H as (a & r1 & H1 & H).


(** ** Session.Destroy *)

Section SessionFacts.
Context `{Sentinels}.

Lemma Destroy_set_err e s :
  err (Destroy_set e s) = Some (default ErrSessionDestroyed e).
Proof.
  unfold Destroy_set. destruct e as [e|]; simpl;
    destruct (readyFunc s); reflexivity.
Qed.

Lemma Destroy_release_err s : err (Destroy_release s) = err s.
Proof. unfold Destroy_release. destruct (sigRelease s); reflexivity. Qed.

Lemma Destroy_close_err s s' : Destroy_close s = Ok s' -> err s' = err s.
Proof.
  unfold Destroy_close.
  destruct (evch s) eqn:Ee; simpl; destruct (done s) eqn:Ed; simpl;
    intros [= <-]; reflexivity.
Qed.

(** The four pieces run back to back are the whole call. *)
Lemma run_call_Destroy e s : run_call 4 (DestroyEnter e) s = Session_Destroy e s.
Proof.
  unfold Session_Destroy. cbn [run_call run_task].
  destruct (Session_Err s); [reflexivity|]. cbn [run_call run_task].
  destruct (Destroy_close (Destroy_release (Destroy_set e s))); reflexivity.
Qed.

(** A destroyed session stays as it is. *)
Lemma Destroy_noop e s : Session_Err s <> None -> Session_Destroy e s = Ok s.
Proof.
  unfold Session_Destroy. destruct (Session_Err s); [reflexivity | congruence].
Qed.

(** On a live session with no channel closed, [Destroy] returns. *)
Lemma Destroy_returns e s :
  err s = None -> evch s <> chClosed -> done s <> chClosed ->
  exists s', Session_Destroy e s = Ok s' /\
             err s' = Some (default ErrSessionDestroyed e).
Proof.
  intros He Hev Hd. unfold Session_Destroy, Session_Err. rewrite He.
  assert (Hc : exists s', Destroy_close (Destroy_release (Destroy_set e s)) = Ok s').
  { unfold Destroy_close.
    assert (E1 : evch (Destroy_release (Destroy_set e s)) = evch s).
    { unfold Destroy_release, Destroy_set.
      destruct e; simpl; destruct (readyFunc s); simpl; destruct (sigRelease s); reflexivity. }
    assert (E2 : done (Destroy_release (Destroy_set e s)) = done s).
    { unfold Destroy_release, Destroy_set.
      destruct e; simpl; destruct (readyFunc s); simpl; destruct (sigRelease s); reflexivity. }
    rewrite E1. destruct (evch s); try congruence; simpl; rewrite E2;
      destruct (done s); try congruence; simpl; eauto. }
  destruct Hc as [s' Hs']. exists s'. split; [assumption|].
  rewrite (Destroy_close_err _ _ Hs'), Destroy_release_err. apply Destroy_set_err.
Qed.

(** C2. [Session.Destroy] is idempotent. On a session that is either
    already destroyed or live with no channel closed, [Destroy(e1)]
    returns; afterwards [Err()] is non-nil (the error the session already
    had, else [e1], else [ErrSessionDestroyed]), a second [Destroy(e2)]
    changes nothing, and neither does any further run of calls: [Err()]
    answers what it answered after the first call. *)
Theorem Destroy_idempotent (s : Session) (e1 e2 : option error) :
  (Session_Err s = None -> evch s <> chClosed /\ done s <> chClosed) ->
  exists s1,
    Session_Destroy e1 s = Ok s1 /\
    Session_Err s1 =
      Some (default (default ErrSessionDestroyed e1) (Session_Err s)) /\
    Session_Destroy e2 s1 = Ok s1 /\
    (forall es s2, Destroy_all es s1 = Ok s2 -> s2 = s1) /\
    (forall es, exists s2, Destroy_all (e1 :: e2 :: es) s = Ok s2 /\
                           Session_Err s2 = Session_Err s1).
Proof.
  intros Hlive.
  assert (Hstay : forall es s1, Session_Err s1 <> None -> Destroy_all es s1 = Ok s1).
  { induction es as [|e es IH]; intros s1 Hne; simpl; [reflexivity|].
    rewrite Destroy_noop by assumption. apply IH, Hne. }
  assert (Hfirst : exists s1, Session_Destroy e1 s = Ok s1 /\
             Session_Err s1 = Some (default (default ErrSessionDestroyed e1) (Session_Err s))).
  { destruct (Session_Err s) as [e|] eqn:Es.
    - exists s. split; [apply Destroy_noop; congruence | exact Es].
    - destruct (Hlive eq_refl) as [Hev Hd].
      destruct (Destroy_returns e1 s Es Hev Hd) as (s1 & H1 & H2). eauto. }
  destruct Hfirst as (s1 & H1 & H2). exists s1.
  assert (Hne : Session_Err s1 <> None) by (rewrite H2; discriminate).
  repeat split; try assumption.
  - apply Destroy_noop, Hne.
  - intros es s2 Hs2. rewrite Hstay in Hs2 by assumption. congruence.
  - intros es. exists s1. split; [|reflexivity].
    simpl. rewrite H1, Destroy_noop by assumption. apply Hstay, Hne.
Qed.

End SessionFacts.

(** ** Teardown of a session under concurrent callers *)

Section ListFacts.
Context {A : Type} (P : A -> Prop).

Lemma Forall_of_insert (l : list A) (i : nat) (x y : A) :
  l !! i = Some x -> P x -> Forall P (<[i := y]> l) -> Forall P l.
Proof.
  intros Hi Hx HF. apply Forall_lookup. intros j z Hj.
  destruct (decide (i = j)) as [->|Hne].
  - congruence.
  - rewrite Forall_lookup in HF. apply (HF j).
    rewrite list_lookup_insert_ne by assumption. exact Hj.
Qed.

Lemma Forall_of_delete (l : list A) (i : nat) (x : A) :
  l !! i = Some x -> P x -> Forall P (delete i l) -> Forall P l.
Proof.
  intros Hi Hx HF. rewrite delete_take_drop in HF.
  apply Forall_app in HF as [H1 H2].
  rewrite <- (take_drop_middle l i x Hi).
  apply Forall_app. split; [assumption|]. constructor; assumption.
Qed.

Lemma Forall_insert_here (l : list A) (i : nat) (x y : A) :
  l !! i = Some x -> Forall P (<[i := y]> l) -> P y.
Proof.
  intros Hi HF. rewrite Forall_lookup in HF. apply (HF i).
  apply list_lookup_insert_eq. eapply lookup_lt_Some, Hi.
Qed.

End ListFacts.

Section Teardown.
Context `{Sentinels}.

Lemma cancel_ctx_Some c r : c = Some r -> exists e, cancel_ctx c = Some (Some e).
Proof. intros ->. destruct r; simpl; eauto. Qed.

Lemma quiet_snoc ts e : quiet ts -> quiet (ts ++ [DestroyEnter e]).
Proof. intros Hq. apply Forall_app. split; [exact Hq|]. repeat constructor. Qed.

Lemma no_close_snoc ts e : no_close ts -> no_close (ts ++ [DestroyEnter e]).
Proof. intros Hq. apply Forall_app. split; [exact Hq|]. repeat constructor. discriminate. Qed.

Lemma quiet_not_tearing ts i t :
  quiet ts -> ts !! i = Some t -> tearing_down t = false.
Proof. intros Hq Hi. unfold quiet in Hq. rewrite Forall_lookup in Hq. eauto. Qed.

Lemma inv_start s0 : fresh s0 -> inv (Session_start s0, []).
Proof.
  intros (He & Hd & Hev). unfold Session_start, Session_Done.
  destruct s0 as [rdy rf sg sr er dn ev op]. simpl in *. subst er.
  destruct dn; [| |congruence]; simpl;
    (split; simpl; eauto; try discriminate; try congruence;
     try (right; constructor);
     try (intros _; repeat split; try discriminate; try assumption; constructor)).
Qed.

(** Another goroutine calls [Destroy], by itself or through the probe. *)
Lemma inv_call s ts e : inv (s, ts) -> inv (s, ts ++ [DestroyEnter e]).
Proof.
  intros [I1 I2 I3 I4 I5 I6 I7 I8 I9]. simpl in *.
  split; simpl; try assumption.
  - destruct I7 as [?|I7]; [left; assumption|right; apply no_close_snoc, I7].
  - intros Hne Hq. apply Forall_app in Hq as [Hq _]. auto.
  - intros Hn. destruct (I9 Hn) as (? & ? & Hq). auto using quiet_snoc.
Qed.

(** A step that changes neither the error, the channels, the release
    function nor the calls under way, and leaves released contexts
    released. *)
Lemma inv_contexts s s' ts :
  inv (s, ts) ->
  readyFunc s' = readyFunc s -> sigRelease s' = sigRelease s ->
  err s' = err s -> done s' = done s -> evch s' = evch s ->
  (forall r, ready s = Some r ->
             exists r', ready s' = Some r' /\ (r <> None -> r' <> None)) ->
  (forall r, sigCtx s = Some r ->
             exists r', sigCtx s' = Some r' /\ (r <> None -> r' <> None)) ->
  inv (s', ts).
Proof.
  intros [I1 I2 I3 I4 I5 I6 I7 I8 I9] Hrf Hsr He Hd Hev Hrdy Hsig. simpl in *.
  split; simpl; rewrite ?Hrf, ?Hsr, ?He, ?Hd, ?Hev; try assumption.
  - destruct I2 as [r Hr]. destruct (Hrdy r Hr) as (r' & -> & _). eauto.
  - destruct I4 as [r Hr]. destruct (Hsig r Hr) as (r' & -> & _). eauto.
  - intros Hne. destruct (I5 Hne) as [e Hr].
    destruct (Hrdy _ Hr) as ([e'|] & -> & Hk); [eauto|].
    exfalso. apply Hk; [discriminate|reflexivity].
  - intros Hf. destruct (I6 Hf) as [e Hr].
    destruct (Hsig _ Hr) as ([e'|] & -> & Hk); [eauto|].
    exfalso. apply Hk; [discriminate|reflexivity].
Qed.

(** One piece of a [Destroy] call that has more to do. *)
Lemma inv_task_more s ts i t s' t' :
  inv (s, ts) -> ts !! i = Some t -> run_task t s = Ok (s', Some t') ->
  inv (s', <[i := t']> ts).
Proof.
  intros Hinv Hi Hrun. pose proof Hinv as [I1 I2 I3 I4 I5 I6 I7 I8 I9]. simpl in *.
  destruct t; simpl in Hrun.
  - (* the test passes *)
    unfold Session_Err in Hrun.
    assert (Ee : err s = None) by (destruct (err s); [discriminate|reflexivity]).
    rewrite Ee in Hrun. injection Hrun as <- <-.
    split; simpl; try assumption.
    + destruct I7 as [?|I7]; [left; assumption|right].
      apply Forall_insert; [assumption|discriminate].
    + rewrite Ee. congruence.
    + intros _. destruct (I9 Ee) as (? & ? & Hq). repeat split; try assumption.
      apply Forall_insert; [exact Hq|reflexivity].
  - (* the error is written *)
    injection Hrun as <- <-.
    assert (Hne : err (Destroy_set e s) <> None) by (rewrite Destroy_set_err; discriminate).
    destruct I2 as [r Hr].
    unfold Destroy_set in *. destruct s as [rdy rf sg sr er dn ev op]. simpl in *.
    subst rf rdy.
    split; simpl.
    + destruct e; reflexivity.
    + destruct e; simpl; destruct r; simpl; eauto.
    + destruct e; simpl; assumption.
    + destruct e; simpl; assumption.
    + intros _. destruct e; simpl; destruct r; simpl; eauto.
    + destruct e; simpl; assumption.
    + destruct I7 as [I7|I7]; [left; destruct e; simpl; assumption|right].
      apply Forall_insert; [assumption|discriminate].
    + intros _ Hq. apply (Forall_insert_here _ _ _ _ _ Hi) in Hq. discriminate.
    + intros Hn. destruct e; simpl in Hn; discriminate.
  - (* the signal is released *)
    injection Hrun as <- <-.
    assert (Hne : err s <> None).
    { intros Hn. destruct (I9 Hn) as (_ & _ & Hq).
      pose proof (quiet_not_tearing _ _ _ Hq Hi). discriminate. }
    destruct I4 as [r Hr].
    unfold Destroy_release in *. destruct s as [rdy rf sg sr er dn ev op]. simpl in *.
    subst sg.
    split; simpl.
    + destruct sr; simpl; assumption.
    + destruct sr; simpl; assumption.
    + destruct sr; simpl; assumption.
    + destruct sr; simpl; [destruct r; simpl|]; eauto.
    + destruct sr; simpl; assumption.
    + intros _. destruct sr; simpl; [destruct r; simpl; eauto|auto].
    + left. destruct sr; reflexivity.
    + intros _ Hq. apply (Forall_insert_here _ _ _ _ _ Hi) in Hq. discriminate.
    + intros Hn. exfalso. destruct sr; simpl in Hn; contradiction.
  - (* closing ends the call *)
    destruct (Destroy_close s) as [s1| |]; discriminate.
Qed.

(** The last piece of a [Destroy] call. *)
Lemma inv_task_return s ts i t s' :
  inv (s, ts) -> ts !! i = Some t -> run_task t s = Ok (s', None) ->
  inv (s', delete i ts).
Proof.
  intros Hinv Hi Hrun. pose proof Hinv as [I1 I2 I3 I4 I5 I6 I7 I8 I9]. simpl in *.
  destruct t; simpl in Hrun; try discriminate.
  - (* the test fails *)
    unfold Session_Err in Hrun.
    assert (Ee : s' = s /\ err s <> None).
    { destruct (err s); [|discriminate Hrun].
      injection Hrun as <-. split; [reflexivity|discriminate]. }
    destruct Ee as [-> Ee]. clear Hrun.
    split; simpl; try assumption.
    + destruct I7 as [?|I7]; [left; assumption|right]. apply Forall_delete, I7.
    + intros Hne Hq. apply I8; [exact Hne|].
      eapply Forall_of_delete; [exact Hi|reflexivity|exact Hq].
    + intros Hn. contradiction.
  - (* the channels are closed *)
    assert (Hsr : sigRelease s = false).
    { destruct I7 as [?|I7]; [assumption|]. exfalso.
      unfold no_close in I7. rewrite Forall_lookup in I7. apply (I7 i _ Hi). reflexivity. }
    assert (Hne : err s <> None).
    { intros Hn. destruct (I9 Hn) as (_ & _ & Hq).
      pose proof (quiet_not_tearing _ _ _ Hq Hi). discriminate. }
    destruct (Destroy_close s) as [s1| |] eqn:Hc; try discriminate.
    injection Hrun as <-.
    unfold Destroy_close in Hc. destruct s as [rdy rf sg sr er dn ev op]. simpl in *.
    subst sr.
    destruct ev; simpl in Hc; try discriminate;
      destruct dn; simpl in Hc; try discriminate; try congruence;
      injection Hc as <-; simpl in *;
      (split; simpl; auto; try discriminate; try contradiction;
       intros; repeat split; auto; discriminate).
Qed.

Lemma inv_step c c' : inv c -> step c c' -> inv c'.
Proof.
  intros Hinv Hstep.
  destruct Hstep as [s ts e | s ts e Hsig | s ts i t s' t' Hi Hrun
                    | s ts i t s' Hi Hrun | s ts | s ts s' Hrdy | s ts | s ts Hd].
  - apply inv_call, Hinv.
  - apply inv_call, Hinv.
  - eapply inv_task_more; eassumption.
  - eapply inv_task_return; eassumption.
  - (* Done: the channel exists already *)
    replace (snd (Session_Done s)) with s; [exact Hinv|].
    unfold Session_Done. pose proof (inv_done _ Hinv) as Hd. simpl in Hd.
    destruct s as [rdy rf sg sr er dn ev op]. simpl in *. destruct dn; congruence.
  - (* setReady *)
    unfold Session_setReady in Hrdy.
    pose proof (inv_readyFunc _ Hinv) as Hrf. simpl in Hrf.
    rewrite Hrf in Hrdy. injection Hrdy as <-.
    eapply inv_contexts; [exact Hinv|reflexivity..| |]; simpl.
    + intros r ->. destruct r; simpl; eexists; (split; [reflexivity|]); congruence.
    + intros r ->. eauto.
  - (* a signal *)
    eapply inv_contexts; [exact Hinv|reflexivity..| |]; simpl.
    + intros r ->. eauto.
    + intros r ->. destruct r; simpl; eexists; (split; [reflexivity|]); congruence.
  - (* the parent is done *)
    eapply inv_contexts; [exact Hinv|reflexivity..| |]; simpl.
    + intros r ->. eauto.
    + intros r ->. destruct r; simpl; eexists; (split; [reflexivity|]); congruence.
Qed.

Lemma inv_reachable c : reachable c -> inv c.
Proof.
  intros (s0 & Hf & Hsteps).
  assert (Hgen : forall a b, rtc step a b -> inv a -> inv b).
  { induction 1; [auto|]. intros Ha. apply IHrtc. eapply inv_step; eassumption. }
  eapply Hgen; [exact Hsteps|]. apply inv_start, Hf.
Qed.

(** A live session of a reachable configuration has no closed channel, so
    a [Destroy] call on it returns. *)
Lemma reachable_live s ts :
  reachable (s, ts) -> Session_Err s = None -> evch s <> chClosed /\ done s <> chClosed.
Proof.
  intros Hr Hn. destruct (inv_live _ (inv_reachable _ Hr) Hn) as (? & ? & _). auto.
Qed.

(** What the code does guarantee. In every configuration a started
    session can get into, if the error is non-nil and no [Destroy] call is
    between its write of the error and its return, the teardown is
    complete: the readiness gate and the signal context are released, the
    release function is forgotten, and neither the event channel nor the
    done channel is open. *)
Theorem teardown_total_when_quiet (s : Session) (ts : list task) :
  reachable (s, ts) ->
  Session_Err s <> None ->
  Forall (fun t => tearing_down t = false) ts ->
  torn_down s.
Proof.
  intros Hr Hne Hq. destruct (inv_reachable _ Hr) as [I1 I2 I3 I4 I5 I6 I7 I8 I9].
  simpl in *. destruct (I8 Hne Hq) as (Hsr & Hev & Hd).
  unfold torn_down. repeat split; auto.
Qed.

End Teardown.

Section TeardownExamples.
#[local] Existing Instance exampleSentinels.

Lemma half_destroyed_reachable : reachable (half_destroyed, [DestroyRelease]).
Proof.
  exists exampleSession. split; [repeat split; discriminate|].
  eapply rtc_l; [eapply (step_call _ _ (Some boom))|].
  eapply rtc_l; [eapply (step_task_more _ _ 0 (DestroyEnter (Some boom)) _ (DestroySet (Some boom)));
                 reflexivity|].
  eapply rtc_l; [eapply (step_task_more _ _ 0 (DestroySet (Some boom)) _ DestroyRelease);
                 reflexivity|].
  apply rtc_refl.
Qed.

(** C6. The claim, that no reachable state has a non-nil error with a
    teardown action still pending, fails on the code. A started session
    on which one goroutine has called [Destroy] and has run its first
    locked section gives up the lock with the error written: [Err()]
    answers the error while the signal release and both channel closes
    are still to come. The channel [Done()] answers is open at that
    point, which the documentation of [Err] rules out ("If Done is not
    yet closed, Err returns nil"). *)
Lemma teardown_pending_counterexample :
  reachable (half_destroyed, [DestroyRelease]) /\
  Session_Err half_destroyed = Some boom /\
  sigRelease half_destroyed = true /\
  evch half_destroyed = chOpen /\
  done half_destroyed = chOpen /\
  fst (Session_Done half_destroyed) = chOpen /\
  ~ torn_down half_destroyed.
Proof.
  split; [apply half_destroyed_reachable|].
  repeat split; try reflexivity.
  intros (_ & Hsr & _). discriminate Hsr.
Qed.

Lemma teardown_total_when_quiet_witness :
  reachable (destroyed, []) /\
  Session_Err destroyed <> None /\
  Forall (fun t => tearing_down t = false) [] /\
  torn_down destroyed.
Proof.
  assert (Hr : reachable (destroyed, [])).
  { destruct half_destroyed_reachable as (s0 & Hf & Hsteps).
    exists s0. split; [exact Hf|].
    eapply rtc_trans; [exact Hsteps|].
    eapply rtc_l; [eapply (step_task_more _ _ 0 DestroyRelease _ DestroyClose); reflexivity|].
    eapply rtc_l; [eapply (step_task_return _ _ 0 DestroyClose destroyed); reflexivity|].
    apply rtc_refl. }
  assert (Hne : Session_Err destroyed <> None) by (vm_compute; discriminate).
  assert (Hq : Forall (fun t => tearing_down t = false) []) by constructor.
  split; [exact Hr|]. split; [exact Hne|]. split; [exact Hq|].
  exact (teardown_total_when_quiet destroyed [] Hr Hne Hq).
Defined.

Lemma Destroy_idempotent_witness :
  (Session_Err started_session = None ->
   evch started_session <> chClosed /\ done started_session <> chClosed) /\
  exists s1,
    Session_Destroy (Some boom) started_session = Ok s1 /\
    Session_Err s1 = Some boom /\
    Session_Destroy (Some (errorString "again")) s1 = Ok s1.
Proof.
  assert (Hlive : Session_Err started_session = None ->
                  evch started_session <> chClosed /\ done started_session <> chClosed).
  { intros _. split; vm_compute; discriminate. }
  split; [exact Hlive|].
  destruct (Destroy_idempotent started_session (Some boom) (Some (errorString "again")) Hlive)
    as (s1 & H1 & H2 & H3 & _).
  exists s1. repeat split; assumption.
Defined.

End TeardownExamples.

(** ** Cron *)

Section CronFacts.
Context `{Sentinels} {L : Type} `{Scheduler L}.

Lemma for_each_effects {A} (f : A -> list Effect) (body : A -> M unit) (l : list A) :
  (forall x r, body x r = Ok (tt, mkRt (world r) (effects r ++ f x))) ->
  forall r, for_each l body r = Ok (tt, mkRt (world r) (effects r ++ flat_map f l)).
Proof.
  intros Hbody. induction l as [|x l IH]; intros r; simpl.
  - unfold ret. rewrite app_nil_r. destruct r; reflexivity.
  - rewrite (bind_Ok _ _ _ _ _ (Hbody x r)), IH. simpl.
    rewrite <- app_assoc. reflexivity.
Qed.

Lemma Cron_Start_spec (cs : Cron L) (r : Rt) :
  Cron_Start cs r =
  Ok (mkCron (cron_Start (lib cs)) (jobIDs cs),
      mkRt (world r)
           (effects r ++
            (if Value_Bool (Session_Get (sess (world r)) "app.cron.on.service.start")
             then flat_map (first_run cs) (jobIDs cs) else []) ++ [ECronStart])).
Proof.
  unfold Cron_Start, get_sess, bind at 1.
  destruct (Value_Bool _) eqn:Eb; simpl.
  - erewrite (bind_Ok (for_each _ _)).
    2:{ apply (for_each_effects (first_run cs)). intros id r0.
        unfold Log, emit, bind, when, ret, first_run. simpl.
        destruct (cron_Entry_Job id (lib cs)) eqn:Ej; simpl.
        - rewrite <- app_assoc. reflexivity.
        - reflexivity. }
    unfold bind, emit, ret. simpl. rewrite <- app_assoc. reflexivity.
  - unfold bind, ret, emit. simpl. reflexivity.
Qed.

(** C10. Every call of [Cron.Job] adds exactly one id to [jobIDs], the
    one the scheduler answered, whether or not the scheduler reported an
    error. With [app.cron.on.service.start] set, [Cron.Start] goes through
    every id of [jobIDs], the ids of refused registrations included: each
    is logged, and a job is launched for exactly those ids that have a
    job entry; then the scheduler is started. *)
Theorem Cron_Job_always_appends (expr : string) (cb : Action) (cs : Cron L) (r : Rt) :
  let id := fst (fst (cron_AddFunc expr cb (lib cs))) in
  exists cs' r',
    Cron_Job expr cb cs r = Ok (cs', r') /\
    jobIDs cs' = jobIDs cs ++ [id] /\
    length (jobIDs cs') = S (length (jobIDs cs)) /\
    world r' = world r /\
    (forall r1,
       Value_Bool (Session_Get (sess (world r1)) "app.cron.on.service.start") = true ->
       exists cs'' r2,
         Cron_Start cs' r1 = Ok (cs'', r2) /\
         effects r2 = effects r1 ++ flat_map (first_run cs') (jobIDs cs') ++ [ECronStart] /\
         ELog LSystemDebug "executing cron first time" [("id", PInt id)] ∈ effects r2 /\
         (ESpawnJob id ∈ flat_map (first_run cs') (jobIDs cs') <->
          is_Some (cron_Entry_Job id (lib cs')))).
Proof.
  intros id. subst id. unfold Cron_Job.
  destruct (cron_AddFunc expr cb (lib cs)) as [[id e] l] eqn:Eadd. simpl.
  set (cs' := mkCron l (jobIDs cs ++ [id])).
  assert (Hjob : exists r', (match e with
                             | Some e0 => Log LError "failed to add job"
                                            [("err", PErr e0); ("id", PInt id)] >> ret cs'
                             | None => ret cs'
                             end) r = Ok (cs', r') /\ world r' = world r).
  { destruct e; unfold Log, emit, bind, ret; simpl; eauto. }
  destruct Hjob as (r' & Hr' & Hw). exists cs', r'.
  split; [exact Hr'|]. split; [reflexivity|].
  split; [simpl; rewrite length_app; simpl; lia|].
  split; [exact Hw|].
  intros r1 Hflag. rewrite Cron_Start_spec, Hflag.
  eexists _, _. split; [reflexivity|]. simpl. split; [reflexivity|].
  assert (Hin : id ∈ jobIDs cs') by (simpl; apply elem_of_app; right; constructor).
  split.
  - apply elem_of_app. right. apply elem_of_app. left.
    apply list_elem_of_In, in_flat_map. exists id. split.
    + apply list_elem_of_In, Hin.
    + left. reflexivity.
  - split.
    + intros Hs. apply list_elem_of_In, in_flat_map in Hs as (j & _ & Hj).
      unfold first_run in Hj. destruct Hj as [Hj|Hj]; [discriminate|].
      destruct (cron_Entry_Job j (lib cs')) eqn:Ej; simpl in Hj; [|contradiction].
      destruct Hj as [Hj|[]]. injection Hj as ->. simpl in *. rewrite Ej. eauto.
    + intros [job Hjob]. apply list_elem_of_In, in_flat_map. exists id. split.
      * apply list_elem_of_In, Hin.
      * unfold first_run. simpl in *. rewrite Hjob. right. left. reflexivity.
Qed.

End CronFacts.

(** ** serviceContainer.start and stop *)

Section ContainerFacts.
Context `{Sentinels} {L : Type} `{Scheduler L}.

(** The part of [start] and [stop] that deals with the cron scheduler
    leaves the world alone. *)
Lemma start_cron_spec (c : serviceContainer L) (r : Rt) :
  exists c' es,
    (match cron c with
     | Some cs =>
         Log LSystemDebug "starting cron jobs" (service_attr c) >>
         cs <- Cron_Start cs ;; ret (set_cron (Some cs) c)
     | None => ret c
     end) r = Ok (c', mkRt (world r) (effects r ++ es)) /\
    info c' = info c /\ svc c' = svc c /\ cancel c' = cancel c /\ ctx c' = ctx c.
Proof.
  destruct (cron c) as [cs|].
  - unfold Log, emit, bind at 1. simpl.
    unfold bind. rewrite Cron_Start_spec. simpl.
    eexists _, _. rewrite <- app_assoc. split; [reflexivity|]. auto.
  - exists c, []. unfold ret. rewrite app_nil_r. destruct r; auto.
Qed.

(** C1. When the service has a start hook, [start] runs it. If the hook
    leaves the session's event channel open (so that the started event
    can be handed over) and the engine context is not nil, [start]
    returns, and what it returns is nil whatever the hook answered. On
    success of the hook the ServiceInfo is running with the time read
    after the hook as its start time and its error history untouched; on
    failure the error is filed under that time and the running flag is
    untouched. *)
Theorem start_reports_success (p : Context) (c : serviceContainer L) (a : Action) (r : Rt) :
  startAction (svc c) = Some a ->
  evch (sess (snd (a (world r)))) = chOpen ->
  let e := fst (a (world r)) in
  let w1 := snd (a (world r)) in
  let t := clock w1 (reads w1) in
  exists c' r',
    start (Some p) c r = Ok ((None, c'), r') /\
    ECall HStart ∈ effects r' /\
    cancel c' = true /\
    match e with
    | None =>
        running (info c') = true /\ startedAt (info c') = t /\
        errs (info c') = errs (info c)
    | Some e' =>
        errs (info c') = Some (<[t := e']> (default ∅ (errs (info c)))) /\
        running (info c') = running (info c) /\
        startedAt (info c') = startedAt (info c)
    end.
Proof.
  intros Hhook Hopen e w1 t. subst e w1 t.
  unfold start. rewrite Hhook.
  destruct (a (world r)) as [e w1] eqn:Ea. simpl in *.
  assert (Hcall : call HStart a r = Ok (e, mkRt w1 (effects r ++ [ECall HStart]))).
  { unfold call, emit, get_world, put_world, bind, ret. simpl. rewrite Ea. reflexivity. }
  rewrite (bind_Ok _ _ _ _ _ Hcall).
  destruct (start_cron_spec c (mkRt w1 (effects r ++ [ECall HStart])))
    as (c1 & es & Hc1 & Hi & Hs & Hca & Hcx).
  rewrite (bind_Ok _ _ _ _ _ Hc1).
  unfold bind, WithCancelCause, ret, Session_Dispatch, get_sess, Log, emit.
  destruct e as [e'|]; simpl; rewrite Hopen; simpl.
  - eexists _, _. split; [reflexivity|]. simpl.
    split; [|rewrite Hi; auto].
    rewrite <- !app_assoc. apply elem_of_app. right. left.
  - eexists _, _. split; [reflexivity|]. simpl.
    split; [|rewrite Hi; auto].
    rewrite <- !app_assoc. apply elem_of_app. right. left.
Qed.

Lemma stop_cron_spec (c : serviceContainer L) (r : Rt) :
  (forall cs, cron c = Some cs -> is_Some (cron_wait (cron_Stop (lib cs)))) ->
  (match cron c with
   | Some cs =>
       Log LSystemDebug "stopping cron scheduler, waiting jobs to finish" (service_attr c) >>
       cs <- Cron_Stop cs ;; ret (set_cron (Some cs) c)
   | None => ret c
   end) r = Ok (set_cron (drained c) c, mkRt (world r) (effects r ++ stop_cron_effects c)).
Proof.
  intros Hw. unfold stop_cron_effects, drained.
  destruct (cron c) as [cs|] eqn:Ec.
  - destruct (Hw cs eq_refl) as [l Hl].
    unfold Cron_Stop, Log, emit, bind, ret. simpl. rewrite Hl. simpl.
    rewrite <- !app_assoc. reflexivity.
  - unfold ret, set_cron. rewrite app_nil_r, <- Ec. destruct r, c; reflexivity.
Qed.

(** C7. On a container whose cancel function is set, with a scheduler
    that drains and an event channel that the stop hook leaves open,
    [stop(session, cause)] with a non-nil cause returns, and in this
    order: logs the cause, stops the Cron when there is one and waits
    until it is drained, calls the cancel function with the cause, runs
    the stop hook when there is one, marks the ServiceInfo stopped with
    the time read after the hook, sends the stopped event and logs. The
    error it returns is the join of the hook's error, if any, and the
    cause. A context that was live is now cancelled with the cause. *)
Theorem stop_joins_cause (cause : error) (c : serviceContainer L) (r : Rt) :
  cancel c = true ->
  (forall cs, cron c = Some cs -> is_Some (cron_wait (cron_Stop (lib cs)))) ->
  evch (sess (snd (stop_hook_result c (world r)))) = chOpen ->
  let e0 := fst (stop_hook_result c (world r)) in
  let w1 := snd (stop_hook_result c (world r)) in
  let joined := errors_Join [e0; Some cause] in
  exists c' r',
    stop (Some cause) c r = Ok ((joined, c'), r') /\
    joined = Some (joinError (match e0 with Some e => [e; cause] | None => [cause] end)) /\
    effects r' =
      (effects r
       ++ [ELog LError "service error" (("err", PErr cause) :: service_attr c)]
       ++ stop_cron_effects c
       ++ [ECancel (Some cause)]
       ++ match stopAction (svc c) with Some _ => [ECall HStop] | None => [] end
       ++ [ESend (NewEvent "services" "service.stopped"
                           (stopped_payload (info c') joined) None);
           ELog LDebug "service stopped" (service_attr c)]) /\
    running (info c') = false /\
    stoppedAt (info c') = clock w1 (reads w1) /\
    cron c' = drained c /\
    (ctx c = Some None -> ctx c' = Some (Some cause)).
Proof.
  intros Hcancel Hdrain Hopen e0 w1 joined. subst e0 w1 joined.
  unfold stop.
  unfold Log at 1, emit at 1, bind at 1.
  rewrite (bind_Ok _ _ _ _ _ (stop_cron_spec c _ Hdrain)). simpl.
  unfold call_cancel at 1. simpl. rewrite Hcancel.
  unfold emit at 1, bind at 1 2. simpl. unfold ret at 1.
  unfold stop_hook_result in *.
  destruct (stopAction (svc c)) as [a|] eqn:Ea.
  - unfold call, emit, get_world, put_world, bind, ret. simpl.
    destruct (a (world r)) as [e0 w1] eqn:Ew. simpl in *.
    unfold Session_Dispatch, get_sess, Log, emit. simpl. rewrite Hopen. simpl.
    eexists _, _. split; [reflexivity|]. simpl.
    split; [destruct e0; reflexivity|].
    split; [rewrite <- !app_assoc; reflexivity|].
    repeat split; auto. intros ->. reflexivity.
  - unfold bind, ret. simpl in *.
    unfold Session_Dispatch, get_sess, Log, emit. simpl. rewrite Hopen. simpl.
    eexists _, _. split; [reflexivity|]. simpl.
    split; [reflexivity|].
    split; [rewrite <- !app_assoc; reflexivity|].
    repeat split; auto. intros ->. reflexivity.
Qed.

Lemma addErr_inv e (i i' : ServiceInfo) r r' :
  ServiceInfo_addErr e i r = Ok (i', r') -> addr i' = addr i /\ name i' = name i.
Proof.
  destruct e; unfold ServiceInfo_addErr, time_Now, bind, ret; simpl;
    intros [= <- <-]; auto.
Qed.

Lemma handle_one_cancel lid sk ev i l (c c' : serviceContainer L) r r' :
  handle_one lid sk ev i l c r = Ok (c', r') -> cancel c' = cancel c.
Proof.
  unfold handle_one. destruct (_ || _); [|intros [= <- <-]; reflexivity].
  intros Hh. bind_inv Hh. destruct a as [e|].
  - bind_inv Hh. unfold Log, emit, bind, ret in Hh. simpl in Hh.
    injection Hh as <- <-. reflexivity.
  - injection Hh as <- <-. reflexivity.
Qed.

Lemma handle_slice_cancel lid sk ev ls : forall i (c c' : serviceContainer L) r r',
  handle_slice lid sk ev i ls c r = Ok (c', r') -> cancel c' = cancel c.
Proof.
  induction ls as [|l ls IH]; simpl; intros i c c' r r' Hh.
  - injection Hh as <- <-. reflexivity.
  - bind_inv Hh. apply IH in Hh. apply handle_one_cancel in Hh0. congruence.
Qed.

Lemma handle_range_cancel lid ev visit : forall (c c' : serviceContainer L) r r',
  handle_range lid ev visit c r = Ok (c', r') -> cancel c' = cancel c.
Proof.
  induction visit as [|[sk ls] visit IH]; simpl; intros c c' r r' Hh.
  - injection Hh as <- <-. reflexivity.
  - bind_inv Hh. apply IH in Hh. apply handle_slice_cancel in Hh0. congruence.
Qed.

Lemma initialize_cancel (c c' : serviceContainer L) e r r' :
  initialize c r = Ok ((e, c'), r') -> cancel c' = cancel c.
Proof.
  unfold initialize. intros Hi. bind_inv Hi. destruct a as [e'|].
  - bind_inv Hi. injection Hi as <- <- <-. reflexivity.
  - bind_inv Hi. unfold Log, emit, bind, ret in Hi. simpl in Hi.
    injection Hi as <- <- <-.
    destruct (cronsetup (svc c)).
    + bind_inv Hi1. injection Hi1 as <- <-. reflexivity.
    + injection Hi1 as <- <-. reflexivity.
Qed.

Lemma stop_inv e (c c' : serviceContainer L) x r r' :
  stop e c r = Ok ((x, c'), r') -> cancel c = true /\ cancel c' = true.
Proof.
  unfold stop. intros Hs. bind_inv Hs. bind_inv Hs.
  assert (Hc : cancel a0 = cancel c).
  { destruct (cron c).
    - bind_inv Hs1. bind_inv Hs1. injection Hs1 as <- <-. reflexivity.
    - injection Hs1 as <- <-. reflexivity. }
  bind_inv Hs. unfold call_cancel in Hs2.
  destruct (cancel a0) eqn:Ec; [|discriminate].
  split; [congruence|].
  unfold emit, bind, ret in Hs2. simpl in Hs2. injection Hs2 as <- <-.
  bind_inv Hs. bind_inv Hs. bind_inv Hs.
  unfold Log, emit, bind, ret in Hs. simpl in Hs. injection Hs as <- <- <-.
  reflexivity.
Qed.

Lemma start_inv ectx (c c' : serviceContainer L) x r r' :
  start ectx c r = Ok ((x, c'), r') -> x = None /\ cancel c' = true.
Proof.
  unfold start. intros Hs. do 5 bind_inv Hs.
  unfold Log, emit, bind, ret in Hs. simpl in Hs. injection Hs as <- <- <-.
  auto.
Qed.

(** C9. The cancel function of a container is set by [start] and by
    nothing else: a container as [Service.container] makes it has none,
    [initialize], [handleEvent] and [stop] leave the field as it is, and
    a [start] that returns has set it. [stop] calls it without a test: on
    a container that has none, [stop] cannot return, and unless it is
    held up waiting for the scheduler it panics on the nil call; on a
    container that has one the call goes through. *)
Theorem cancel_set_only_by_start :
  (forall (s : Service) (a : Address), cancel (@Service_container L s a) = false) /\
  (forall (c c' : serviceContainer L) e r r',
      initialize c r = Ok ((e, c'), r') -> cancel c' = cancel c) /\
  (forall visit ev (c c' : serviceContainer L) r r',
      handleEvent visit ev c r = Ok (c', r') -> cancel c' = cancel c) /\
  (forall ectx (c c' : serviceContainer L) x r r',
      start ectx c r = Ok ((x, c'), r') -> cancel c' = true) /\
  (forall e (c c' : serviceContainer L) x r r',
      stop e c r = Ok ((x, c'), r') -> cancel c = true /\ cancel c' = true) /\
  (forall e (c : serviceContainer L) r,
      cancel c = false ->
      (forall cs, cron c = Some cs -> is_Some (cron_wait (cron_Stop (lib cs)))) ->
      stop e c r = Panic "invalid memory address or nil pointer dereference") /\
  (forall e (c : serviceContainer L) r,
      cancel c = true ->
      exists c', call_cancel e c r = Ok (c', mkRt (world r) (effects r ++ [ECancel e])) /\
                 cancel c' = true).
Proof.
  split; [reflexivity|].
  split; [intros; eapply initialize_cancel; eassumption|].
  split.
  { intros visit ev c c' r r'. unfold handleEvent.
    destruct (listeners (svc c)); [apply handle_range_cancel|].
    intros [= <- <-]. reflexivity. }
  split; [intros ectx c c' x r r' Hs; apply (start_inv _ _ _ _ _ _ Hs)|].
  split; [intros; eapply stop_inv; eassumption|].
  split.
  - intros e c r Hc Hdrain. unfold stop.
    assert (Hlog : exists r0, (match e with
                               | Some e' => Log LError "service error"
                                              (("err", PErr e') :: service_attr c)
                               | None => ret tt
                               end) r = Ok (tt, r0)).
    { destruct e; unfold Log, emit, ret; eauto. }
    destruct Hlog as [r0 Hlog]. rewrite (bind_Ok _ _ _ _ _ Hlog).
    rewrite (bind_Ok _ _ _ _ _ (stop_cron_spec c _ Hdrain)).
    unfold bind, call_cancel. simpl. rewrite Hc. reflexivity.
  - intros e c r Hc. unfold call_cancel. rewrite Hc.
    unfold emit, bind, ret. simpl. eexists. split; reflexivity.
Qed.

End ContainerFacts.

(** ** serviceContainer.handleEvent *)

Lemma listener_calls_app es1 es2 :
  listener_calls (es1 ++ es2) = listener_calls es1 ++ listener_calls es2.
Proof. unfold listener_calls. apply omap_app. Qed.

(** A listener identity always has a dot in it, ["any"] has none. *)
Lemma lid_not_any (scope key : string) : scope +:+ "." +:+ key <> "any".
Proof.
  destruct scope as [|a1 [|a2 [|a3 [|a4 s]]]]; simpl; discriminate.
Qed.

Section HandleEventFacts.
Context `{Sentinels} {L : Type} `{Scheduler L}.

Lemma relevant_test lid sk ls :
  String.eqb sk "any" || String.eqb sk lid = bool_decide (relevant lid (sk, ls)).
Proof.
  destruct (bool_decide_reflect (relevant lid (sk, ls))) as [Hr|Hn].
  - destruct Hr as [Hr|Hr]; simpl in Hr; subst sk.
    + reflexivity.
    + rewrite (String.eqb_refl lid). apply orb_true_r.
  - destruct (String.eqb_spec sk "any") as [->|Hn1]; [exfalso; apply Hn; left; reflexivity|].
    destruct (String.eqb_spec sk lid) as [->|Hn2]; [exfalso; apply Hn; right; reflexivity|].
    reflexivity.
Qed.

(** Registration adds the listener at the end of the slice of its key
    and leaves the other slices alone. *)
Lemma add_listener_lookup (k k' : string) (cb : ActionWithEvent) (s : Service) :
  default ∅ (listeners (add_listener k cb s)) !! k' =
  if decide (k = k')
  then Some (default [] (default ∅ (listeners s) !! k) ++ [cb])
  else default ∅ (listeners s) !! k'.
Proof.
  unfold add_listener. simpl. apply lookup_insert.
Qed.

(** A slice filed under another key is passed over. *)
Lemma handle_slice_skip lid sk ev ls (c : serviceContainer L) r :
  ~ relevant lid (sk, ls) -> forall i, handle_slice lid sk ev i ls c r = Ok (c, r).
Proof.
  intros Hn. induction ls as [|l ls IH] in Hn |- *; intros i; simpl; [reflexivity|].
  assert (Hone : handle_one lid sk ev i l c r = Ok (c, r)).
  { unfold handle_one. rewrite (relevant_test lid sk (l :: ls)).
    rewrite bool_decide_eq_false_2 by assumption. reflexivity. }
  rewrite (bind_Ok _ _ _ _ _ Hone). apply IH.
  intros Hr. apply Hn. exact Hr.
Qed.

(** A listener of a matching slice is entered, and whatever it answers
    the loop goes on: an error is filed in the ServiceInfo under the
    current time and logged. *)
Lemma handle_one_spec lid sk ev i l (c : serviceContainer L) r :
  sk = "any" \/ sk = lid ->
  exists c' r',
    handle_one lid sk ev i l c r = Ok (c', r') /\
    listener_calls (effects r') = listener_calls (effects r) ++ [(sk, i)] /\
    match fst (l (world r) ev) with
    | Some e =>
        let w1 := snd (l (world r) ev) in
        errs (info c') =
          Some (<[clock w1 (reads w1) := e]> (default ∅ (errs (info c)))) /\
        ELog LError "event handler error" (("err", PErr e) :: service_attr c) ∈ effects r'
    | None => c' = c
    end.
Proof.
  intros Hrel. unfold handle_one.
  rewrite (relevant_test lid sk []), bool_decide_eq_true_2 by exact Hrel.
  unfold call, emit, get_world, put_world, bind, ret. simpl.
  destruct (l (world r) ev) as [[e|] w1] eqn:El; simpl.
  - unfold time_Now, Log, emit, ret. simpl.
    eexists _, _. split; [reflexivity|]. simpl. split.
    + rewrite !listener_calls_app. simpl. rewrite app_nil_r. reflexivity.
    + split; [reflexivity|]. apply elem_of_app. right. left.
  - eexists _, _. split; [reflexivity|]. simpl. split; [|reflexivity].
    rewrite listener_calls_app. reflexivity.
Qed.

Lemma handle_slice_spec lid sk ev ls :
  sk = "any" \/ sk = lid ->
  forall i (c : serviceContainer L) r,
  exists c' r',
    handle_slice lid sk ev i ls c r = Ok (c', r') /\
    listener_calls (effects r') = listener_calls (effects r) ++ slice_ids sk i ls.
Proof.
  intros Hrel. induction ls as [|l ls IH]; intros i c r; simpl.
  - exists c, r. split; [reflexivity|]. unfold slice_ids. simpl.
    rewrite app_nil_r. reflexivity.
  - destruct (handle_one_spec lid sk ev i l c r Hrel) as (c1 & r1 & H1 & Hc1 & _).
    rewrite (bind_Ok _ _ _ _ _ H1).
    destruct (IH (S i) c1 r1) as (c2 & r2 & H2 & Hc2).
    exists c2, r2. split; [exact H2|].
    rewrite Hc2, Hc1, <- app_assoc. reflexivity.
Qed.

(** Only the slices filed under ["any"] or under the event's identity
    count. *)
Lemma handle_range_filter lid ev visit : forall (c : serviceContainer L) r,
  handle_range lid ev visit c r = handle_range lid ev (filter (relevant lid) visit) c r.
Proof.
  induction visit as [|[sk ls] visit IH]; intros c r; [reflexivity|].
  rewrite filter_cons. destruct (decide (relevant lid (sk, ls))) as [Hr|Hn].
  - simpl. unfold bind.
    destruct (handle_slice lid sk ev 0 ls c r) as [[c1 r1]| |]; [apply IH|reflexivity..].
  - simpl. rewrite (bind_Ok _ _ _ _ _ (handle_slice_skip lid sk ev ls c r Hn 0)). apply IH.
Qed.

Lemma relevant_entries lid (m : gmap string (list ActionWithEvent)) visit :
  lid <> "any" ->
  visit ≡ₚ map_to_list m ->
  filter (relevant lid) visit = entry_of m lid ++ entry_of m "any" \/
  filter (relevant lid) visit = entry_of m "any" ++ entry_of m lid.
Proof.
  intros Hlid Hperm.
  assert (HP : entry_of m lid ++ entry_of m "any" ≡ₚ filter (relevant lid) visit).
  { apply NoDup_Permutation.
    - unfold entry_of. destruct (m !! lid), (m !! "any"); simpl;
        repeat constructor; try apply not_elem_of_nil.
      intros Hin. apply list_elem_of_singleton in Hin. congruence.
    - apply NoDup_filter. rewrite Hperm. apply NoDup_map_to_list.
    - intros [k v]. rewrite list_elem_of_filter, Hperm, elem_of_map_to_list.
      unfold relevant, entry_of. simpl. split.
      + intros Hin. apply elem_of_app in Hin as [Hin|Hin].
        * destruct (m !! lid) eqn:E; [|inversion Hin].
          apply list_elem_of_singleton in Hin. injection Hin as -> ->. auto.
        * destruct (m !! "any") eqn:E; [|inversion Hin].
          apply list_elem_of_singleton in Hin. injection Hin as -> ->. auto.
      + intros [[->| ->] Hm]; apply elem_of_app; rewrite Hm; [right|left]; left. }
  unfold entry_of in *.
  destruct (m !! lid) as [l1|], (m !! "any") as [l2|]; simpl in *.
  - apply Permutation_length_2_inv in HP as [->| ->]; auto.
  - apply Permutation_length_1_inv in HP as ->. auto.
  - apply Permutation_length_1_inv in HP as ->. auto.
  - apply Permutation_nil in HP as ->. auto.
Qed.

Lemma handle_range_entries lid ev (m : gmap string (list ActionWithEvent)) k1 k2
    (c : serviceContainer L) r :
  handle_range lid ev (entry_of m k1 ++ entry_of m k2) c r = run_groups lid ev m k1 k2 c r.
Proof.
  unfold entry_of, run_groups, bind.
  destruct (m !! k1) as [l1|]; simpl.
  - unfold bind. destruct (handle_slice lid k1 ev 0 l1 c r) as [[c1 r1]| |]; try reflexivity.
    destruct (m !! k2) as [l2|]; simpl; [|reflexivity].
    unfold bind. destruct (handle_slice lid k2 ev 0 l2 c1 r1) as [[c2 r2]| |]; reflexivity.
  - destruct (m !! k2) as [l2|]; simpl; [|reflexivity].
    unfold bind. destruct (handle_slice lid k2 ev 0 l2 c r) as [[c2 r2]| |]; reflexivity.
Qed.

Lemma run_groups_spec lid ev (m : gmap string (list ActionWithEvent)) k1 k2
    (c : serviceContainer L) r :
  (k1 = "any" \/ k1 = lid) -> (k2 = "any" \/ k2 = lid) ->
  exists c' r',
    run_groups lid ev m k1 k2 c r = Ok (c', r') /\
    listener_calls (effects r') =
      listener_calls (effects r) ++ slice_ids k1 0 (default [] (m !! k1))
                                 ++ slice_ids k2 0 (default [] (m !! k2)).
Proof.
  intros H1 H2. unfold run_groups.
  destruct (handle_slice_spec lid k1 ev (default [] (m !! k1)) H1 0 c r)
    as (c1 & r1 & E1 & C1).
  destruct (handle_slice_spec lid k2 ev (default [] (m !! k2)) H2 0 c1 r1)
    as (c2 & r2 & E2 & C2).
  exists c2, r2. rewrite (bind_Ok _ _ _ _ _ E1). split; [exact E2|].
  rewrite C2, C1, <- app_assoc. reflexivity.
Qed.

(** C5. Let the listener table hold N listeners under the event's
    identity [scope.key] and M under ["any"]. Whatever order the range
    over the table takes and whatever the listeners answer, [handleEvent]
    returns, having entered exactly these N+M listeners and no other, each
    group in registration order, one group after the other: the call is
    the run of the two groups in one of the two orders. Each of
    these runs is made of one step per listener, and such a step always
    returns: when the listener answers an error, the error is filed in
    the ServiceInfo under the current time and logged, and the run goes
    on with the next listener. *)
Theorem handleEvent_invokes_every_listener
    (c : serviceContainer L) (m : gmap string (list ActionWithEvent))
    (visit : list (string * list ActionWithEvent)) (ev : Event) (r : Rt) :
  listeners (svc c) = Some m ->
  visit ≡ₚ map_to_list m ->
  let lid := Scope ev +:+ "." +:+ Key ev in
  let own := default [] (m !! lid) in
  let any := default [] (m !! "any") in
  (exists c' r' new,
    handleEvent visit ev c r = Ok (c', r') /\
    listener_calls (effects r') = listener_calls (effects r) ++ new /\
    length new = (length own + length any)%nat /\
    ((new = slice_ids lid 0 own ++ slice_ids "any" 0 any /\
      run_groups lid ev m lid "any" c r = Ok (c', r')) \/
     (new = slice_ids "any" 0 any ++ slice_ids lid 0 own /\
      run_groups lid ev m "any" lid c r = Ok (c', r')))) /\
  (forall sk i (l : ActionWithEvent) (c0 : serviceContainer L) r0,
      sk = "any" \/ sk = lid ->
      exists c1 r1,
        handle_one lid sk ev i l c0 r0 = Ok (c1, r1) /\
        match fst (l (world r0) ev) with
        | Some e =>
            let w1 := snd (l (world r0) ev) in
            errs (info c1) =
              Some (<[clock w1 (reads w1) := e]> (default ∅ (errs (info c0)))) /\
            ELog LError "event handler error" (("err", PErr e) :: service_attr c0)
              ∈ effects r1
        | None => c1 = c0
        end).
Proof.
  intros Hm Hperm lid own any.
  split.
  2:{ intros sk i l c0 r0 Hrel.
      destruct (handle_one_spec lid sk ev i l c0 r0 Hrel) as (c1 & r1 & H1 & _ & H2).
      exists c1, r1. split; assumption. }
  unfold handleEvent. rewrite Hm. fold lid.
  rewrite handle_range_filter.
  assert (Hlen : forall k (ls : list ActionWithEvent), length (slice_ids k 0 ls) = length ls).
  { intros. unfold slice_ids. rewrite length_fmap, length_seq. reflexivity. }
  destruct (relevant_entries lid m visit (lid_not_any _ _) Hperm) as [-> | ->];
    rewrite handle_range_entries.
  - destruct (run_groups_spec lid ev m lid "any" c r) as (c' & r' & E & C); auto.
    exists c', r', (slice_ids lid 0 own ++ slice_ids "any" 0 any).
    split; [exact E|]. split; [exact C|].
    split; [rewrite length_app, !Hlen; reflexivity|]. left. auto.
  - destruct (run_groups_spec lid ev m "any" lid c r) as (c' & r' & E & C); auto.
    exists c', r', (slice_ids "any" 0 any ++ slice_ids lid 0 own).
    split; [exact E|]. split; [exact C|].
    split; [rewrite length_app, !Hlen; lia|]. right. auto.
Qed.

End HandleEventFacts.

(** ** Strings *)

Lemma str_app_cons a s t : String a s +:+ t = String a (s +:+ t).
Proof. reflexivity. Qed.

Lemma str_app_assoc s t u : (s +:+ t) +:+ u = s +:+ t +:+ u.
Proof.
  induction s as [|a s IH]; [reflexivity|].
  rewrite !str_app_cons, IH. reflexivity.
Qed.

Lemma str_app_nil_r s : s +:+ "" = s.
Proof. induction s as [|a s IH]; [reflexivity|]. rewrite str_app_cons, IH. reflexivity. Qed.

Lemma contains_refl s : contains s s.
Proof. exists "", "". rewrite str_app_nil_r. reflexivity. Qed.

Lemma contains_app_l t u s : contains t s -> contains (t +:+ u) s.
Proof.
  intros (pre & post & ->). exists pre, (post +:+ u).
  rewrite !str_app_assoc. reflexivity.
Qed.

Lemma contains_app_r t u s : contains u s -> contains (t +:+ u) s.
Proof.
  intros (pre & post & ->). exists (t +:+ pre), post.
  rewrite !str_app_assoc. reflexivity.
Qed.

Lemma prefixb_app s post : prefixb s (s +:+ post) = true.
Proof.
  induction s as [|a s IH]; [reflexivity|].
  rewrite str_app_cons. simpl. rewrite Ascii.eqb_refl. exact IH.
Qed.

Lemma contains_containsb t s : contains t s -> containsb t s = true.
Proof.
  intros (pre & post & ->). induction pre as [|a pre IH].
  - change ("" +:+ s +:+ post) with (s +:+ post).
    destruct (s +:+ post) eqn:E; simpl; rewrite <- E, prefixb_app; reflexivity.
  - rewrite str_app_cons. simpl. rewrite IH. apply orb_true_r.
Qed.

(** The text of a joined error holds the text of each member. *)
Lemma Error_join_contains (l : list error) (e : error) :
  e ∈ l -> contains (Error (joinError l)) (Error e).
Proof.
  induction l as [|x l IH]; intros Hin; [inversion Hin|].
  apply elem_of_cons in Hin as [->|Hin].
  - destruct l as [|y l]; [apply contains_refl|].
    change (Error (joinError (x :: y :: l)))
      with (Error x +:+ newline +:+ Error (joinError (y :: l))).
    apply contains_app_l, contains_refl.
  - destruct l as [|y l]; [inversion Hin|].
    change (Error (joinError (x :: y :: l)))
      with (Error x +:+ newline +:+ Error (joinError (y :: l))).
    apply contains_app_r, contains_app_r, IH, Hin.
Qed.

(** ** ServiceLoader *)

Lemma sends_app es1 es2 : sends (es1 ++ es2) = sends es1 ++ sends es2.
Proof. apply omap_app. Qed.

Section LoaderFacts.
Context `{Sentinels}.

Lemma errors_Join_Some (l : list error) :
  l <> [] -> errors_Join (Some <$> l) = Some (joinError l).
Proof.
  intros Hne. unfold errors_Join.
  assert (E : omap id (Some <$> l) = l).
  { induction l as [|x l IH]; [reflexivity|].
    simpl. destruct l; [reflexivity|]. f_equal. apply IH. discriminate. }
  rewrite E. destruct l; [contradiction|reflexivity].
Qed.

Lemma sl_cancel_spec (e : error) (sl : ServiceLoader) (r : Rt) :
  loaderCh sl = chOpen ->
  sl_cancel (Some e) sl r =
  Ok (mkLoader false chClosed (sl_errs sl ++ [e]) (hostaddr sl) (svcs sl),
      mkRt (world r) (effects r ++ [ELog LWarn "sevice loader canceled" [("reason", PErr e)]])).
Proof.
  intros Hch. unfold sl_cancel, Log, emit, bind, lift, ret. simpl. rewrite Hch. reflexivity.
Qed.

Lemma when_log_spec c lvl msg attrs (r : Rt) :
  exists es, when c (Log lvl msg attrs) r = Ok (tt, mkRt (world r) (effects r ++ es))
             /\ sends es = [].
Proof.
  destruct c; unfold when, Log, emit, ret.
  - eexists. split; reflexivity.
  - exists []. rewrite app_nil_r. destruct r; split; reflexivity.
Qed.

(** The loop over the targets ends in the duplicate error as soon as it
    meets an address that is already queued; the targets before it must
    be registered, and the earlier occurrence must have been queued,
    that is, not running. *)
Lemma Load_targets_duplicate (l : list Address) :
  forall (q : gmap string ServiceInfo) (req : list string) (sl : ServiceLoader) (r : Rt)
         (pre post : list Address) (b : Address),
    l = pre ++ b :: post ->
    Forall (registered (world r)) (pre ++ [b]) ->
    (is_Some (q !! Address_String b) \/
     exists a, a ∈ pre /\ Address_String a = Address_String b /\ pending (world r) a) ->
    loaderCh sl = chOpen ->
    exists d r',
      Load_targets l q req sl r =
        Ok (inl (mkLoader false chClosed (sl_errs sl ++ [duplicated d])
                          (hostaddr sl) (svcs sl)), r') /\
      d ∈ Address_String <$> l /\
      world r' = world r /\
      sends (effects r') = sends (effects r).
Proof.
  induction l as [|x l IH]; intros q req sl r pre post b Hl Hreg Hdup Hch.
  - destruct pre; discriminate.
  - simpl. unfold get_world, bind at 1.
    assert (Hx : registered (world r) x).
    { destruct pre as [|p pre]; simpl in Hl; injection Hl as -> _;
        inversion Hreg; assumption. }
    destruct Hx as [i Hi]. unfold Session_ServiceInfo. rewrite Hi.
    destruct (bool_decide (is_Some (q !! Address_String x))) eqn:Eq.
    + (* already queued *)
      rewrite (bind_Ok _ _ _ _ _ (sl_cancel_spec (duplicated (Address_String x)) sl r Hch)).
      unfold ret. eexists _, _. split; [reflexivity|]. simpl.
      split; [left|]. split; [reflexivity|].
      rewrite sends_app. simpl. apply app_nil_r.
    + apply bool_decide_eq_false in Eq.
      destruct pre as [|p pre]; simpl in Hl; injection Hl as <- Hl.
      { (* the head is the repeated address: it must already be queued *)
        exfalso. destruct Hdup as [Hq|(a & Ha & _)]; [auto|inversion Ha]. }
      simpl in Hreg. inversion Hreg as [|? ? _ Hreg']; subst.
      destruct (running i) eqn:Erun.
      * (* running: skipped *)
        unfold Log, emit, bind at 1. simpl.
        match goal with |- context [Load_targets _ _ _ _ ?r1] =>
          edestruct (IH q req sl r1) as (d & r' & E & Hd & Hw & Hs);
            [reflexivity|exact Hreg'| |exact Hch|]
        end.
        { destruct Hdup as [Hq|(a & Ha & Hab & Hp)]; [left; exact Hq|right].
          apply elem_of_cons in Ha as [->|Ha]; [|eauto].
          destruct Hp as (i' & Hi' & Hrun). rewrite Hi in Hi'. injection Hi' as <-.
          congruence. }
        rewrite E. eexists _, _. split; [reflexivity|].
        split; [right; exact Hd|]. split; [exact Hw|].
        rewrite Hs. simpl. rewrite sends_app. simpl. apply app_nil_r.
      * (* not running: queued *)
        unfold Log, emit, bind at 1. simpl.
        match goal with |- context [Load_targets _ _ _ _ ?r1] =>
          edestruct (IH (<[Address_String x := i]> q) (req ++ [Address_String x]) sl r1)
            as (d & r' & E & Hd & Hw & Hs); [reflexivity|exact Hreg'| |exact Hch|]
        end.
        { destruct Hdup as [Hq|(a & Ha & Hab & Hp)].
          - left. destruct (decide (Address_String x = Address_String b)) as [->|Hne].
            + rewrite lookup_insert_eq. eauto.
            + rewrite lookup_insert_ne by assumption. exact Hq.
          - apply elem_of_cons in Ha as [->|Ha]; [|right; eauto].
            left. rewrite Hab, lookup_insert_eq. eauto. }
        rewrite E. eexists _, _. split; [reflexivity|].
        split; [right; exact Hd|]. split; [exact Hw|].
        rewrite Hs. simpl. rewrite sends_app. simpl. apply app_nil_r.
Qed.

(** C3, amended. Take a loader that is idle, carries no error from its
    construction and has its channel open, and let an address occur twice
    among its targets, the first occurrence registered and not running,
    all targets up to the second occurrence registered. Then [Load]
    returns without starting its goroutine and without having sent any
    event: the loader is no longer loading, its channel is closed, and its
    only error is the "duplicated service request" error for some target
    address, which is what [Err()] then reports. *)
Theorem Load_rejects_duplicate (sl : ServiceLoader) (r : Rt) (h : Address)
    (pre mid post : list Address) (a b : Address) :
  loading sl = false ->
  sl_errs sl = [] ->
  hostaddr sl = Some h ->
  loaderCh sl = chOpen ->
  svcs sl = pre ++ a :: mid ++ b :: post ->
  Address_String a = Address_String b ->
  Forall (registered (world r)) (pre ++ a :: mid ++ [b]) ->
  pending (world r) a ->
  exists d sl' r',
    Load sl r = Ok ((sl', None), r') /\
    d ∈ Address_String <$> svcs sl /\
    sl_errs sl' = [duplicated d] /\
    loading sl' = false /\
    loaderCh sl' = chClosed /\
    sends (effects r') = sends (effects r) /\
    ServiceLoader_Err sl' = Some (joinError [duplicated d]) /\
    contains (Error (joinError [duplicated d])) ("duplicated service request " +:+ d).
Proof.
  intros Hload Herrs Hhost Hch Hsvcs Hab Hreg Hpend.
  unfold Load. rewrite Hload.
  rewrite bool_decide_eq_true_2 by exact Herrs. cbn [negb].
  rewrite (bind_Ok get_sess _ r (sess (world r)) r eq_refl).
  match goal with |- context [when ?c (Log ?l ?m ?at')] =>
    destruct (when_log_spec c l m at' r) as (es0 & Hw0 & Hes0)
  end.
  rewrite (bind_Ok _ _ _ _ _ Hw0).
  simpl hostaddr. rewrite Hhost.
  rewrite (bind_Ok (ret h) _ _ _ _ eq_refl).
  rewrite (bind_Ok (Log _ _ _) _ _ _ _ eq_refl).
  match goal with |- context [bind (Load_targets _ _ _ _) _ ?r1] =>
    edestruct (Load_targets_duplicate (svcs sl) ∅ [] (set_loading true sl) r1
                 (pre ++ a :: mid) post b)
      as (d & r' & E & Hd & Hw & Hs)
  end.
  { rewrite Hsvcs, <- app_assoc. reflexivity. }
  { simpl. rewrite <- app_assoc. exact Hreg. }
  { right. exists a. split; [|auto]. apply elem_of_app. right. left. }
  { exact Hch. }
  simpl svcs in E. rewrite (bind_Ok _ _ _ _ _ E). unfold ret.
  simpl. rewrite Herrs. simpl.
  eexists d, _, r'. split; [reflexivity|]. simpl.
  split; [exact Hd|]. split; [reflexivity|]. split; [reflexivity|].
  split; [reflexivity|].
  split.
  { rewrite Hs. simpl. rewrite !sends_app, Hes0. simpl. rewrite !app_nil_r. reflexivity. }
  split; [reflexivity|].
  change (Error (joinError [duplicated d])) with
    (Error ErrService +:+ ": duplicated service request " +:+ d).
  apply contains_app_r. exists ": ", "". rewrite str_app_nil_r. reflexivity.
Qed.

Lemma add_all_errs (es : list error) : forall sl,
  fold_left (fun sl e => sl_addErr (Some e) sl) es sl =
  mkLoader (loading sl) (loaderCh sl) (sl_errs sl ++ es) (hostaddr sl) (svcs sl).
Proof.
  induction es as [|e es IH]; intros sl; simpl.
  - rewrite app_nil_r. destruct sl; reflexivity.
  - rewrite IH. simpl. rewrite <- app_assoc. reflexivity.
Qed.

Lemma poll_clean (visit : list status) : forall loaded sl r,
  Forall (fun st => st_errs st = None) visit ->
  poll visit loaded sl r = Ok (inr (loaded + length (List.filter st_running visit))%nat, r).
Proof.
  induction visit as [|st visit IH]; intros loaded sl r Hclean; simpl.
  - unfold ret. rewrite Nat.add_0_r. reflexivity.
  - inversion Hclean as [|? ? Hst Hrest]; subst. rewrite Hst, IH by assumption.
    destruct (st_running st); simpl; repeat f_equal; lia.
Qed.

Lemma poll_failing (visit1 visit2 : list status) (st : status) (es : list error) :
  forall loaded sl r,
  Forall (fun st => st_errs st = None) visit1 ->
  st_errs st = Some es ->
  loaderCh sl = chOpen ->
  let e := failed_to_load (Address_String (st_addr st)) in
  poll (visit1 ++ st :: visit2) loaded sl r =
  Ok (inl (mkLoader false chClosed (sl_errs sl ++ es ++ [e]) (hostaddr sl) (svcs sl)),
      mkRt (world r)
           (effects r ++ [ELog LWarn "sevice loader canceled" [("reason", PErr e)]])).
Proof.
  induction visit1 as [|x visit1 IH]; intros loaded sl r Hclean Hst Hch e; simpl.
  - rewrite Hst, add_all_errs.
    erewrite bind_Ok by (apply sl_cancel_spec; exact Hch).
    unfold ret. simpl. rewrite <- app_assoc. reflexivity.
  - inversion Hclean as [|? ? Hx Hrest]; subst. rewrite Hx. apply IH; assumption.
Qed.

(** C4, amended. Let the goroutine of [Load] go through rounds that
    neither end nor fail the load, and then, before its context is done,
    through a tick at which a queued service shows recorded errors. Then
    the load is aborted at that tick, whatever rounds would follow: for
    the first service in the tick's visiting order that shows errors,
    these errors are appended to the loader's error list, followed by the
    "failed to load required services" error with that service's
    address; the loader is no longer loading, its channel is closed, and
    the text of what [Err()] reports holds that address. *)
Theorem waiter_fails_fast (qlen : nat) (before rest : list select_event)
    (visit1 visit2 : list status) (st : status) (es : list error)
    (sl : ServiceLoader) (r : Rt) :
  Forall (idle qlen) before ->
  Forall (fun st => st_errs st = None) visit1 ->
  st_errs st = Some es ->
  loaderCh sl = chOpen ->
  let a := Address_String (st_addr st) in
  exists sl' r' e,
    waiter qlen (before ++ Tick (visit1 ++ st :: visit2) :: rest) sl r = Ok (Some sl', r') /\
    sl_errs sl' = sl_errs sl ++ es ++ [failed_to_load a] /\
    loading sl' = false /\
    loaderCh sl' = chClosed /\
    ServiceLoader_Err sl' = Some e /\
    contains (Error e) a.
Proof.
  intros Hidle Hclean Hst Hch a.
  induction before as [|ev before IH]; simpl.
  - erewrite bind_Ok by (apply poll_failing; eassumption).
    unfold ret.
    eexists _, _, (joinError (sl_errs sl ++ es ++ [failed_to_load a])).
    split; [reflexivity|]. simpl.
    split; [reflexivity|]. split; [reflexivity|]. split; [reflexivity|].
    split.
    + unfold ServiceLoader_Err. simpl. apply errors_Join_Some.
      destruct (sl_errs sl), es; discriminate.
    + assert (Hin : failed_to_load a ∈ sl_errs sl ++ es ++ [failed_to_load a]).
      { apply elem_of_app. right. apply elem_of_app. right. left. }
      apply Error_join_contains in Hin.
      change (contains (Error (joinError (sl_errs sl ++ es ++ [failed_to_load a]))) a).
      destruct Hin as (pre & post & ->).
      exists (pre +:+ Error ErrService +:+ ": service loader failed to load required services "),
             post.
      change (Error (failed_to_load a))
        with (Error ErrService +:+ ": service loader failed to load required services " +:+ a).
      rewrite !str_app_assoc. reflexivity.
  - inversion Hidle as [|? ? (visit & -> & Hv & Hlen) Hrest]; subst.
    erewrite bind_Ok by (apply poll_clean; exact Hv). simpl.
    destruct (Nat.eqb_spec (length (List.filter st_running visit)) qlen) as [Heq|_];
      [contradiction|].
    apply IH, Hrest.
Qed.

End LoaderFacts.

(** * Examples *)

Section Examples.
#[local] Existing Instance exampleSentinels.
#[local] Existing Instance exampleScheduler.

Lemma start_reports_success_witness :
  startAction (svc grumpy_created) = Some (failing "start failed") /\
  evch (sess (snd (failing "start failed" (world rt0)))) = chOpen /\
  exists c' r',
    start (Some None) grumpy_created rt0 = Ok ((None, c'), r') /\
    errs (info c') = Some (<[1000 := errorString "start failed"]> ∅) /\
    running (info c') = false.
Proof.
  split; [reflexivity|]. split; [reflexivity|].
  destruct (start_reports_success None grumpy_created (failing "start failed") rt0
              eq_refl eq_refl) as (c' & r' & Hs & _ & _ & He & Hr & _).
  exists c', r'. split; [exact Hs|]. split; [exact He|exact Hr].
Defined.

Lemma stop_joins_cause_witness :
  cancel grumpy_started = true /\
  exists c' r',
    stop (Some boom) grumpy_started rt0 =
      Ok ((Some (joinError [errorString "stop failed"; boom]), c'), r') /\
    running (info c') = false /\
    ctx c' = Some (Some boom).
Proof.
  split; [reflexivity|].
  assert (Hdrain : forall cs, cron grumpy_started = Some cs ->
                              is_Some (cron_wait (cron_Stop (lib cs)))).
  { intros cs _. simpl. eauto. }
  destruct (stop_joins_cause boom grumpy_started rt0 eq_refl Hdrain eq_refl)
    as (c' & r' & Hs & Hj & _ & Hr & _ & _ & Hc).
  exists c', r'. split; [|split; [exact Hr|exact (Hc eq_refl)]].
  rewrite Hs. reflexivity.
Defined.

Lemma cancel_set_only_by_start_witness :
  cancel grumpy_created = false /\
  stop (Some boom) grumpy_created rt0 =
    Panic "invalid memory address or nil pointer dereference".
Proof.
  split; [reflexivity|].
  apply (proj1 (proj2 (proj2 (proj2 (proj2 (proj2
           (cancel_set_only_by_start (L := exampleCron)))))))).
  - reflexivity.
  - intros cs Hcs. discriminate Hcs.
Defined.

(** A registration that the scheduler refuses still leaves its id, and
    the first run goes over it without launching anything. *)
Lemma Cron_Job_always_appends_witness :
  exists cs' r',
    Cron_Job "" succeeding (@newCron exampleCron _) rt0 = Ok (cs', r') /\
    jobIDs cs' = [0] /\
    forall r1,
      Value_Bool (Session_Get (sess (world r1)) "app.cron.on.service.start") = true ->
      ELog LSystemDebug "executing cron first time" [("id", PInt 0)]
        ∈ effects (match Cron_Start cs' r1 with
                   | Ok (_, r2) => r2
                   | _ => r1
                   end).
Proof.
  destruct (Cron_Job_always_appends "" succeeding (@newCron exampleCron _) rt0)
    as (cs' & r' & Hj & Hids & _ & _ & Hstart).
  exists cs', r'. split; [exact Hj|]. split; [exact Hids|].
  intros r1 Hflag.
  destruct (Hstart r1 Hflag) as (cs'' & r2 & -> & _ & Hin & _). exact Hin.
Defined.

Lemma handleEvent_invokes_every_listener_witness :
  listeners (svc noisy_container) = Some noisy_table /\
  map_to_list noisy_table ≡ₚ map_to_list noisy_table /\
  exists c' r' new,
    handleEvent (map_to_list noisy_table) (NewEvent "jobs" "done" [] None)
                noisy_container rt0 = Ok (c', r') /\
    listener_calls (effects r') = new /\
    length new = 3%nat.
Proof.
  split; [reflexivity|]. split; [reflexivity|].
  destruct (handleEvent_invokes_every_listener noisy_container noisy_table
              (map_to_list noisy_table) (NewEvent "jobs" "done" [] None) rt0
              eq_refl (Permutation_refl _))
    as ((c' & r' & new & Hh & Hc & Hl & _) & _).
  exists c', r', new. split; [exact Hh|]. split; [exact Hc|exact Hl].
Defined.

End Examples.

Section LoaderExamples.
#[local] Existing Instance exampleSentinels.

(** C3 as stated fails: when the repeated target is already running it
    is never queued, the repetition goes unnoticed, and [Load] sends the
    start request and starts its goroutine with no error recorded. *)
Lemma Load_running_duplicate_counterexample :
  exists sl' wt r',
    Load twice_a (mkRt (world_with_a true) []) = Ok ((sl', Some wt), r') /\
    sl_errs sl' = [] /\
    loading sl' = true /\
    loaderCh sl' = chOpen /\
    sends (effects r') = [StartServicesEvent []].
Proof.
  eexists _, _, _. split; [vm_compute; reflexivity|].
  repeat split; reflexivity.
Qed.

Lemma Load_rejects_duplicate_witness :
  loading twice_a = false /\
  sl_errs twice_a = [] /\
  loaderCh twice_a = chOpen /\
  Address_String addrA = Address_String addrA /\
  pending (world_with_a false) addrA /\
  exists sl' r',
    Load twice_a (mkRt (world_with_a false) []) = Ok ((sl', None), r') /\
    sl_errs sl' = [duplicated (Address_String addrA)] /\
    sends (effects r') = [].
Proof.
  assert (Hp : pending (world_with_a false) addrA).
  { exists (infoA false). split; reflexivity. }
  assert (Hr : Forall (registered (world_with_a false)) ([] ++ addrA :: [] ++ [addrA])).
  { repeat constructor; exists (infoA false); reflexivity. }
  repeat (split; [reflexivity|]). split; [exact Hp|].
  destruct (Load_rejects_duplicate twice_a (mkRt (world_with_a false) [])
              (mkAddress "happy://host/app" "host" "app") [] [] [] addrA addrA
              eq_refl eq_refl eq_refl eq_refl eq_refl eq_refl Hr Hp)
    as (d & sl' & r' & HL & Hd & He & _ & _ & Hs & _).
  exists sl', r'. split; [exact HL|]. split; [|exact Hs].
  rewrite He. simpl in Hd.
  apply elem_of_cons in Hd as [->|Hd]; [reflexivity|].
  apply elem_of_cons in Hd as [->|Hd]; [reflexivity|inversion Hd].
Defined.

(** C4 as stated fails: with two failing targets the load is aborted at
    the first one visited; the errors of the other are not appended and
    [Err()] does not name it. *)
Lemma waiter_names_first_counterexample :
  (exists r', waiter 2 [Tick [failedA; failedB]] idle_loader rt0 = Ok (Some both_failed, r')) /\
  (errorString "b broke" ∉ sl_errs both_failed) /\
  exists e, ServiceLoader_Err both_failed = Some e /\
            ~ contains (Error e) (Address_String addrB).
Proof.
  split; [eexists; vm_compute; reflexivity|].
  split.
  - intros Hin. vm_compute in Hin.
    apply elem_of_cons in Hin as [Hin|Hin]; [discriminate|].
    apply elem_of_cons in Hin as [Hin|Hin]; [discriminate|inversion Hin].
  - eexists. split; [vm_compute; reflexivity|].
    intros Hc. apply contains_containsb in Hc. vm_compute in Hc. discriminate.
Qed.

Lemma waiter_fails_fast_witness :
  Forall (idle 2) [Tick [waitingB]] /\
  st_errs failedA = Some [errorString "a broke"] /\
  loaderCh idle_loader = chOpen /\
  exists sl' r' e,
    waiter 2 [Tick [waitingB]; Tick [waitingB; failedA]; CtxDone [] DeadlineExceeded]
           idle_loader rt0 = Ok (Some sl', r') /\
    sl_errs sl' = [errorString "a broke"; failed_to_load (Address_String addrA)] /\
    ServiceLoader_Err sl' = Some e /\
    contains (Error e) (Address_String addrA).
Proof.
  assert (Hi : Forall (idle 2) [Tick [waitingB]]).
  { repeat constructor. exists [waitingB]. repeat split; [repeat constructor|discriminate]. }
  assert (Hv : Forall (fun st => st_errs st = None) [waitingB]) by (repeat constructor).
  split; [exact Hi|]. split; [reflexivity|]. split; [reflexivity|].
  destruct (waiter_fails_fast 2 [Tick [waitingB]] [CtxDone [] DeadlineExceeded]
              [waitingB] [] failedA [errorString "a broke"] idle_loader rt0
              Hi Hv eq_refl eq_refl)
    as (sl' & r' & e & Hw & He & _ & _ & Herr & Hc).
  exists sl', r', e. repeat split; assumption.
Defined.

End LoaderExamples.

(** * Further properties *)

(** ** Integers and their text (vars) *)

Lemma digit_of_char (d : Z) :
  0 <= d < 10 -> digit_of (ascii_of_nat (Z.to_nat (48 + d))) = Some d.
Proof.
  intros Hd. unfold digit_of.
  rewrite nat_ascii_embedding by lia.
  rewrite Z2Nat.id by lia.
  replace ((48 <=? 48 + d) && (48 + d <=? 57)) with true by lia.
  f_equal. lia.
Qed.

Lemma get_digit (digits : string) (u : Z) :
  digits = sdigits \/ digits = udigits ->
  0 <= u < 10 ->
  exists d, String.get (Z.to_nat u) digits = Some d /\ digit_of d = Some u.
Proof.
  intros Hdig Hu.
  assert (Hcases : u = 0 \/ u = 1 \/ u = 2 \/ u = 3 \/ u = 4 \/
                   u = 5 \/ u = 6 \/ u = 7 \/ u = 8 \/ u = 9) by lia.
  destruct Hdig as [-> | ->];
    repeat (destruct Hcases as [-> | Hcases]; [eexists; split; reflexivity|]);
    subst u; eexists; split; reflexivity.
Qed.

Lemma parse_digits_nonneg (s : string) : forall n m,
  0 <= n -> parse_digits n s = UOk m -> n <= m <= MaxUint64 \/ (s = "" /\ m = n).
Proof.
  induction s as [|c s IH]; intros n m Hn Hp; simpl in Hp.
  - injection Hp as <-. right. auto.
  - destruct (digit_of c) as [d|] eqn:Ed; [|discriminate].
    assert (Hd : 0 <= d < 10).
    { unfold digit_of in Ed.
      destruct ((48 <=? Z.of_nat (nat_of_ascii c)) && (Z.of_nat (nat_of_ascii c) <=? 57)) eqn:E;
        [|discriminate]. injection Ed as <-. lia. }
    destruct (MaxUint64 <? 10 * n + d) eqn:Eo; [discriminate|].
    apply Z.ltb_ge in Eo.
    destruct (IH (10 * n + d) m ltac:(lia) Hp) as [Hm|[-> ->]]; left; lia.
Qed.

(** The loop writes the decimal digits of [u] in front of [acc]: read
    back after any value [n], they continue [n] by [u]. *)
Lemma integer_loop_spec (digits : string) (i : nat) : forall (u : Z) (acc : string),
  digits = sdigits \/ digits = udigits ->
  0 <= u < 10 ^ (Z.of_nat i + 1) ->
  exists i' u' acc' d k,
    integer_loop i u acc = Some (i', u', acc') /\
    (i' + Z.to_nat k = S i)%nat /\ 0 < k /\
    String.get (Z.to_nat u') digits = Some d /\
    (exists x, digit_of d = Some x) /\
    forall n, 0 <= n -> n * 10 ^ k + u <= MaxUint64 ->
              parse_digits n (String d acc') = parse_digits (n * 10 ^ k + u) acc.
Proof.
  induction i as [|i IH]; intros u acc Hdig Hu.
  - (* no room left but for the last digit *)
    simpl in Hu. simpl. replace (10 <=? u) with false by lia.
    destruct (get_digit digits u Hdig ltac:(lia)) as (d & Hg & Hd).
    exists 0%nat, u, acc, d, 1. repeat split; try lia; eauto.
    intros n Hn Hb. simpl. rewrite Hd.
    replace (MaxUint64 <? 10 * n + u) with false by lia.
    f_equal. lia.
  - cbn [integer_loop]. destruct (10 <=? u) eqn:E10.
    + apply Z.leb_le in E10.
      assert (Hnext : 0 <= u / 10 < 10 ^ (Z.of_nat i + 1)).
      { split; [apply Z.div_pos; lia|].
        apply Z.div_lt_upper_bound; [lia|].
        replace (Z.of_nat (S i) + 1) with (Z.succ (Z.of_nat i + 1)) in Hu by lia.
        rewrite Z.pow_succ_r in Hu by lia. lia. }
      destruct (IH (u / 10)
                   (String (ascii_of_nat (Z.to_nat (48 + u - u / 10 * 10))) acc) Hdig Hnext)
        as (i' & u' & acc' & d & k & Hl & Hi & Hk & Hg & Hd & Hp).
      exists i', u', acc', d, (k + 1). repeat split; try lia; eauto.
      intros n Hn Hb.
      assert (Hmod : u = 10 * (u / 10) + (u - u / 10 * 10)) by lia.
      assert (Hr : 0 <= u - u / 10 * 10 < 10).
      { pose proof (Z.mod_pos_bound u 10 ltac:(lia)) as Hm.
        rewrite Z.mod_eq in Hm by lia. lia. }
      rewrite Z.pow_add_r in Hb |- * by lia. rewrite Z.pow_1_r in *.
      rewrite Hp by nia. simpl.
      replace (48 + u - u / 10 * 10) with (48 + (u - u / 10 * 10)) by lia.
      rewrite digit_of_char by exact Hr.
      replace (MaxUint64 <? 10 * (n * 10 ^ k + u / 10) + (u - u / 10 * 10)) with false
        by (symmetry; apply Z.ltb_ge; nia).
      f_equal. nia.
    + apply Z.leb_gt in E10.
      destruct (get_digit digits u Hdig ltac:(lia)) as (d & Hg & Hd).
      exists (S i), u, acc, d, 1. repeat split; try lia; eauto.
      intros n Hn Hb. simpl. rewrite Hd.
      replace (MaxUint64 <? 10 * n + u) with false by lia.
      f_equal. lia.
Qed.

Lemma digit_not_sign (d : ascii) (x : Z) :
  digit_of d = Some x ->
  Ascii.eqb d "-" = false /\ Ascii.eqb d "+" = false /\
  Ascii.eqb d "t" = false /\ Ascii.eqb d "f" = false.
Proof.
  intros Hd. repeat split; apply Ascii.eqb_neq; intros ->; discriminate Hd.
Qed.

(** A value below 10^20 leaves at least 48 of the 68 bytes unused. *)
Lemma integer_loop_room : forall (i : nat) (u : Z) (acc : string),
  0 <= u < 10 ^ (Z.of_nat i - 48) -> (48 <= i)%nat ->
  forall j u' acc', integer_loop i u acc = Some (j, u', acc') -> (48 <= j)%nat.
Proof.
  induction i as [|i IH]; intros u acc Hu Hi j u' acc' Hl; [lia|].
  cbn [integer_loop] in Hl. destruct (10 <=? u) eqn:E.
  - apply Z.leb_le in E.
    destruct (decide (i = 47%nat)) as [->|Hne].
    + simpl in Hu. lia.
    + eapply (IH (u / 10)); [|lia|exact Hl].
      split; [apply Z.div_pos; lia|].
      apply Z.div_lt_upper_bound; [lia|].
      replace (Z.of_nat (S i) - 48) with (Z.succ (Z.of_nat i - 48)) in Hu by lia.
      rewrite Z.pow_succ_r in Hu by lia. lia.
  - injection Hl as <- _ _. lia.
Qed.

(** The digits [parserFmt.integer] writes for a value below 2^64: the
    buffer keeps room for them and for a sign, and they read back as the
    value. *)
Lemma format_body (digits : string) (u : Z) :
  digits = sdigits \/ digits = udigits ->
  0 <= u < two64 ->
  exists i u' acc' d x,
    integer_loop 68 u "" = Some (S (S i), u', acc') /\
    String.get (Z.to_nat u') digits = Some d /\
    digit_of d = Some x /\
    parse_digits 0 (String d acc') = UOk u.
Proof.
  intros Hdig Hu. unfold two64 in Hu.
  assert (Hb : 0 <= u < 10 ^ (Z.of_nat 68 + 1)) by (simpl; lia).
  destruct (integer_loop_spec digits 68 u "" Hdig Hb)
    as (i' & u' & acc' & d & k & Hl & Hi & Hk & Hg & (x & Hd) & Hp).
  pose proof (integer_loop_room 68 u "" ltac:(simpl; lia) ltac:(lia) _ _ _ Hl) as Hroom.
  destruct i' as [|[|i']]; [lia|lia|].
  exists i', u', acc', d, x. repeat split; auto.
  rewrite (Hp 0) by (unfold MaxUint64; lia).
  simpl. f_equal; lia.
Qed.

(** X1. Text and value of an unsigned integer agree: for every uint64
    [parserFmt.integer] fills its buffer without running out of it, and
    [parseUint] reads the value back from the text without error. *)
Theorem format_uint64_roundtrip (u : Z) :
  0 <= u < two64 ->
  exists s, format_uint64 u = Ok s /\ parseUint s = (u, false).
Proof.
  intros Hu.
  destruct (format_body udigits u (or_intror eq_refl) Hu)
    as (i & u' & acc' & d & x & Hl & Hg & Hd & Hp).
  exists (String d acc'). split.
  - unfold format_uint64, parserFmt_integer. simpl andb. cbv iota.
    rewrite Hl, Hg. reflexivity.
  - destruct (digit_not_sign d x Hd) as (_ & _ & Ht & Hf).
    unfold parseUint. simpl String.eqb. rewrite Ht, Hf.
    unfold strconv_ParseUint. rewrite Hp. reflexivity.
Qed.

Lemma format_uint64_roundtrip_witness :
  format_uint64 18446744073709551615 = Ok "18446744073709551615" /\
  exists s, format_uint64 18446744073709551615 = Ok s /\
            parseUint s = (18446744073709551615, false).
Proof.
  split; [reflexivity|].
  apply (format_uint64_roundtrip 18446744073709551615). unfold two64. lia.
Defined.

(** X2. Text and value of a signed integer agree: for every int64 [v],
    the text [parser.parseValue] writes for [v] is read back by
    [parseInt] as [v] without error, so [Value.Int64] of a value holding
    that text is [v]. This covers the smallest int64, whose negation does
    not fit. *)
Theorem format_int64_roundtrip (v : Z) :
  MinInt64 <= v <= MaxInt64 ->
  exists s,
    format_int64 v = Ok s /\
    parseInt s = (v, false) /\
    forall t r, Value_Int64 (mkValue t r s) = v.
Proof.
  intros Hv. unfold MinInt64, MaxInt64 in Hv. unfold format_int64.
  assert (Hread : forall s, parseInt s = (v, false) ->
                            forall t r, Value_Int64 (mkValue t r s) = v).
  { intros s Hs t r. unfold Value_Int64. simpl. rewrite Hs. reflexivity. }
  destruct (Z.ltb_spec v 0) as [Hneg|Hpos].
  - (* negative: the sign, then the digits of -v *)
    assert (Hu : as_uint64 v = v + two64).
    { unfold as_uint64. rewrite <- (Z.mod_add v 1 two64) by (unfold two64; lia).
      rewrite Z.mod_small; unfold two64; lia. }
    assert (Hi : (as_int64 (v + two64) <? 0) = true).
    { unfold as_int64, two64. apply Z.ltb_lt.
      replace (v + 18446744073709551616 <? 9223372036854775808) with false by lia. lia. }
    assert (Hm : (- (v + two64)) mod two64 = - v).
    { replace (- (v + two64)) with (- v + (-1) * two64) by lia.
      rewrite Z.mod_add by (unfold two64; lia).
      apply Z.mod_small. unfold two64. lia. }
    destruct (format_body sdigits (- v) (or_introl eq_refl) ltac:(unfold two64; lia))
      as (i & u' & acc' & d & x & Hl & Hg & Hd & Hp).
    exists (String "-" (String d acc')).
    split.
    { unfold parserFmt_integer. rewrite Hu, Hi. simpl andb. cbv iota.
      rewrite Hm, Hl, Hg. reflexivity. }
    assert (Hparse : parseInt (String "-" (String d acc')) = (v, false)).
    { unfold parseInt. simpl String.eqb.
      unfold strconv_ParseInt. simpl Ascii.eqb. cbn [orb negb andb].
      unfold strconv_ParseUint. rewrite Hp.
      replace (- MinInt64 <? - v) with false by (unfold MinInt64; lia).
      f_equal. lia. }
    split; [exact Hparse|exact (Hread _ Hparse)].
  - (* not negative: the digits of v *)
    assert (Hu : as_uint64 v = v).
    { unfold as_uint64. apply Z.mod_small. unfold two64. lia. }
    assert (Hi : true && (as_int64 v <? 0) = false).
    { unfold as_int64. replace (v <? 9223372036854775808) with true by lia. simpl. lia. }
    destruct (format_body sdigits v (or_introl eq_refl) ltac:(unfold two64; lia))
      as (i & u' & acc' & d & x & Hl & Hg & Hd & Hp).
    exists (String d acc'). rewrite Hu. split.
    { unfold parserFmt_integer. rewrite Hi, Hl, Hg. reflexivity. }
    destruct (digit_not_sign d x Hd) as (Hm & Hpl & Ht & Hff).
    assert (Hparse : parseInt (String d acc') = (v, false)).
    { unfold parseInt. simpl String.eqb. rewrite Ht, Hff.
      unfold strconv_ParseInt. rewrite Hm, Hpl. cbn [orb negb andb].
      unfold strconv_ParseUint. rewrite Hp.
      replace (MaxInt64 <? v) with false by (unfold MaxInt64; lia).
      reflexivity. }
    split; [exact Hparse|exact (Hread _ Hparse)].
Qed.

Lemma format_int64_roundtrip_witness :
  format_int64 MinInt64 = Ok "-9223372036854775808" /\
  exists s, format_int64 MinInt64 = Ok s /\ parseInt s = (MinInt64, false) /\
            forall t r, Value_Int64 (mkValue t r s) = MinInt64.
Proof.
  split; [reflexivity|].
  apply (format_int64_roundtrip MinInt64). unfold MinInt64, MaxInt64. lia.
Defined.

Lemma strconv_ParseUint_range (s : string) (n : Z) :
  strconv_ParseUint s = UOk n -> 0 <= n <= MaxUint64.
Proof.
  unfold strconv_ParseUint. destruct s as [|c s]; [discriminate|].
  intros Hp. apply parse_digits_nonneg in Hp as [Hp|[Hp _]]; [|discriminate|]; lia.
Qed.

Lemma parseInt_range (s : string) : MinInt64 <= fst (parseInt s) <= MaxInt64.
Proof.
  unfold parseInt.
  destruct (String.eqb s "true"); [unfold MinInt64, MaxInt64; simpl; lia|].
  destruct (String.eqb s "false"); [unfold MinInt64, MaxInt64; simpl; lia|].
  unfold strconv_ParseInt. destruct s as [|c rest]; [unfold MinInt64, MaxInt64; simpl; lia|].
  destruct (strconv_ParseUint _) as [un| |] eqn:Eu.
  - apply strconv_ParseUint_range in Eu.
    unfold MinInt64, MaxInt64, MaxUint64 in *.
    destruct (Ascii.eqb c "-"); cbn [negb andb orb];
      repeat match goal with
             | |- context [if ?a <? ?b then _ else _] => destruct (Z.ltb_spec a b)
             end; simpl; lia.
  - unfold MinInt64, MaxInt64. simpl. lia.
  - destruct (Ascii.eqb c "-"); simpl; unfold MinInt64, MaxInt64; lia.
Qed.

Section TimeoutFacts.
Context `{Sentinels}.

(** X3. Whatever text the configuration holds under
    [app.service.loader.timeout] (nothing, digits, a value that does not
    fit 64 bits, or no number at all), the timeout [Load] hands to
    [context.WithTimeout] is a positive duration that fits an int64. *)
Theorem loader_timeout_positive (s : Session) :
  0 < loader_timeout s <= MaxInt64.
Proof.
  unfold loader_timeout.
  pose proof (parseInt_range (str (Session_Get s "app.service.loader.timeout"))) as Hr.
  unfold Value_Int64.
  destruct (Z.leb_spec (fst (parseInt (str (Session_Get s "app.service.loader.timeout")))) 0);
    unfold second, MaxInt64 in *; lia.
Qed.

End TimeoutFacts.

(** ** Application names (address) *)

Section EnsureFacts.
Context `{Unicode}.

(** The runes [ensure] lets through as they are. *)
Lemma ensure_keeps (c : Z) (rest : list Z) :
  is_lower c || is_digit c || (c =? dot) = true ->
  ensure (c :: rest) = c :: ensure rest.
Proof.
  intros Hc. cbn [ensure].
  assert (Hk : is_alnum c = true \/ c = dot).
  { unfold is_alnum. destruct (is_lower c), (is_digit c); simpl in *;
      rewrite ?orb_true_r; auto.
    right. apply Z.eqb_eq, Hc. }
  rewrite (IsSpace_kept c Hk), (IsLower_kept c Hk). cbn [orb].
  destruct (is_alnum c) eqn:Ea; cbn [negb andb].
  - destruct (is_lower c) eqn:El; cbn [negb]; [reflexivity|].
    rewrite ToLower_other; [reflexivity|].
    destruct (is_digit c); [auto|]. simpl in Hc.
    right. apply Z.eqb_eq, Hc.
  - destruct Hk as [Hk| ->]; [discriminate|].
    change (dot =? dot) with true. cbn [negb].
    change (is_lower dot) with false. cbn [negb].
    rewrite ToLower_other by auto. reflexivity.
Qed.

(** What [ensure] writes. *)
Lemma ensure_output (input : list Z) :
  Forall (fun c => is_lower c || is_digit c || (c =? dot) = true) (ensure input).
Proof.
  induction input as [|c rest IH]; [constructor|].
  cbn [ensure].
  destruct (unicode_IsSpace c || negb (is_alnum c) && negb (c =? dot)) eqn:Eskip;
    [exact IH|].
  constructor; [|exact IH].
  apply orb_false_iff in Eskip as [Esp Ek].
  assert (Hk : is_alnum c = true \/ c = dot).
  { destruct (is_alnum c); [auto|]. simpl in Ek.
    right. apply Z.eqb_eq. destruct (c =? dot); [reflexivity|discriminate]. }
  rewrite (IsLower_kept c Hk).
  destruct (is_lower c) eqn:El; cbn [negb]; [rewrite El; reflexivity|].
  destruct Hk as [Hk| ->].
  - unfold is_alnum in Hk. rewrite El in Hk.
    destruct (is_digit c) eqn:Ed.
    + rewrite ToLower_other by auto. rewrite Ed, El. reflexivity.
    + simpl in Hk. rewrite orb_false_r in Hk. rewrite (ToLower_upper c Hk).
      unfold is_upper in Hk. unfold is_lower.
      replace ((97 <=? c + 32) && (c + 32 <=? 122)) with true by lia. reflexivity.
  - rewrite ToLower_other by auto. reflexivity.
Qed.

(** X4. [ensure] answers application names over a fixed alphabet:
    whatever runes it is given, every rune of the result is a lower case
    ASCII letter, a digit or the dot. It works rune by rune: the result
    for a text made of two parts is made of the results for the parts,
    and it is never longer than the text. *)
Theorem ensure_alphabet (input more : list Z) :
  Forall (fun c => is_lower c || is_digit c || (c =? dot) = true) (ensure input) /\
  ensure (input ++ more) = ensure input ++ ensure more /\
  (length (ensure input) <= length input)%nat.
Proof.
  split; [apply ensure_output|]. split.
  - induction input as [|c rest IH]; [reflexivity|].
    cbn [app ensure].
    destruct (unicode_IsSpace c || negb (is_alnum c) && negb (c =? dot));
      [exact IH|].
    cbn [app]. f_equal. exact IH.
  - induction input as [|c rest IH]; [reflexivity|].
    cbn [ensure].
    destruct (unicode_IsSpace c || negb (is_alnum c) && negb (c =? dot)); simpl; lia.
Qed.

(** X5. [ensure] is idempotent: a name it has answered is left as it is
    when given back, and so is any text over its alphabet. *)
Theorem ensure_idempotent (input : list Z) :
  ensure (ensure input) = ensure input /\
  (Forall (fun c => is_lower c || is_digit c || (c =? dot) = true) input ->
   ensure input = input).
Proof.
  assert (Hfix : forall l,
            Forall (fun c => is_lower c || is_digit c || (c =? dot) = true) l ->
            ensure l = l).
  { induction l as [|c l IH]; intros Hl; [reflexivity|].
    apply Forall_cons in Hl as [Hc Hl].
    rewrite (ensure_keeps c l Hc), (IH Hl). reflexivity. }
  split; [|apply Hfix].
  apply Hfix, ensure_output.
Qed.

End EnsureFacts.

(** ** Session: errors, races, signals *)

Section SessionMore.
Context `{Sentinels}.

Lemma step_err_persists (c c' : config) :
  step c c' -> Session_Err (fst c) <> None -> Session_Err (fst c') <> None.
Proof.
  unfold Session_Err.
  destruct 1 as [s ts e|s ts e Hsig|s ts i t s' t' Hi Hrun|s ts i t s' Hi Hrun
                |s ts|s ts s' Hready|s ts|s ts Hd]; simpl; intros Hne; auto.
  - destruct t; simpl in Hrun.
    + destruct (Session_Err s); injection Hrun as <- _; exact Hne.
    + injection Hrun as <- _. rewrite Destroy_set_err. discriminate.
    + injection Hrun as <- _. rewrite Destroy_release_err. exact Hne.
    + destruct (Destroy_close s); discriminate.
  - destruct t; simpl in Hrun; try discriminate.
    + destruct (Session_Err s); injection Hrun as <-; exact Hne.
    + destruct (Destroy_close s) as [s1| |] eqn:Ec; [|discriminate..].
      injection Hrun as <-. rewrite (Destroy_close_err _ _ Ec). exact Hne.
  - unfold Session_Done. destruct (done s); exact Hne.
  - unfold Session_setReady in Hready. destruct (readyFunc s); [|discriminate].
    injection Hready as <-. exact Hne.
Qed.

(** X6. A destroyed session is never revived: once [Err()] is non-nil it
    stays non-nil, whatever the goroutines do next and in whatever order
    the pieces of their [Destroy] calls run. *)
Theorem Session_err_persists (c c' : config) :
  rtc step c c' -> Session_Err (fst c) <> None -> Session_Err (fst c') <> None.
Proof.
  induction 1 as [|a b d Hab _ IH]; [auto|].
  intros Hne. apply IH. eapply step_err_persists; eassumption.
Qed.


(** X8. [Value] asked with the context package's own key is how the
    signal context looks at its parent. On a started session it does
    nothing while no signal has arrived; once an interrupt or kill signal
    has cancelled the signal context, the same question destroys the
    session: [Err()] is the context's [Canceled] and the teardown is
    complete. *)
Theorem Value_probe_after_signal (s0 : Session) :
  fresh s0 ->
  Session_Value_int (Session_start s0) = Ok (Session_start s0) /\
  exists s', Session_Value_int (os_signal (Session_start s0)) = Ok s' /\
             Session_Err s' = Some Canceled /\
             torn_down s'.
Proof.
  intros (He & Hd & Hev).
  destruct s0 as [rdy rf sc sr er dn ev op]. simpl in He, Hd, Hev. subst er.
  destruct dn; [| |congruence]; (destruct ev; [| |congruence]);
    (split; [reflexivity|]); eexists; (split; [reflexivity|]);
    (split; [reflexivity|]);
    unfold torn_down; simpl; repeat split; eauto; discriminate.
Qed.

End SessionMore.

(** ** Containers on a destroyed session *)

Lemma call_spec (h : hookName) (f : World -> option error * World) (r : Rt) :
  call h f r = Ok (fst (f (world r)), mkRt (snd (f (world r))) (effects r ++ [ECall h])).
Proof.
  unfold call, emit, get_world, put_world, bind, ret. simpl.
  destruct (f (world r)); reflexivity.
Qed.

Section ClosedChannel.
Context `{Sentinels} {L : Type} `{Scheduler L}.

Lemma Dispatch_closed (ev : Event) (r : Rt) :
  evch (sess (world r)) = chClosed ->
  Session_Dispatch (Some ev) r = Panic "send on closed channel".
Proof.
  intros Hc. unfold Session_Dispatch, get_sess, bind. simpl. rewrite Hc. reflexivity.
Qed.

(** Running a hook, when there is one. *)
Lemma hook_spec (h : hookName) (a : option Action) (r : Rt) :
  exists e r',
    (match a with Some a => call h a | None => ret None end) r = Ok (e, r') /\
    (forall f, a = Some f -> world r' = snd (f (world r))) /\
    (a = None -> world r' = world r).
Proof.
  destruct a as [f|].
  - rewrite call_spec. eexists _, _. split; [reflexivity|]. split.
    + intros f' [= <-]. reflexivity.
    + discriminate.
  - exists None, r. split; [reflexivity|]. split; [discriminate|reflexivity].
Qed.

Lemma hook_keeps_closed (h : hookName) (a : option Action) (r : Rt) e r' :
  (forall f, a = Some f -> keeps_closed f) ->
  evch (sess (world r)) = chClosed ->
  (match a with Some a => call h a | None => ret None end) r = Ok (e, r') ->
  evch (sess (world r')) = chClosed.
Proof.
  intros Hk Hc Hr. destruct (hook_spec h a r) as (e0 & r0 & Hr0 & Hs & Hn).
  rewrite Hr0 in Hr. injection Hr as <- <-.
  destruct a as [f|].
  - rewrite (Hs f eq_refl). apply (Hk f eq_refl), Hc.
  - rewrite (Hn eq_refl). exact Hc.
Qed.

(** Marking a record started, stopped or failed reads the clock and
    nothing else of the world. *)
Lemma info_update_sess (m : ServiceInfo -> M ServiceInfo) (i : ServiceInfo) (r : Rt) :
  (m = ServiceInfo_started \/ m = ServiceInfo_stopped \/
   exists e, m = ServiceInfo_addErr e) ->
  exists i' r', m i r = Ok (i', r') /\ sess (world r') = sess (world r).
Proof.
  intros [-> | [-> | [[e|] ->]]];
    unfold ServiceInfo_started, ServiceInfo_stopped, ServiceInfo_addErr,
           time_Now, bind, ret; simpl; eauto.
Qed.

(** The cron part of [stop], when it returns, has left the world and the
    rest of the container alone. *)
Lemma stop_cron_world (c c1 : serviceContainer L) (r r1 : Rt) :
  (match cron c with
   | Some cs =>
       Log LSystemDebug "stopping cron scheduler, waiting jobs to finish" (service_attr c) >>
       cs <- Cron_Stop cs ;; ret (set_cron (Some cs) c)
   | None => ret c
   end) r = Ok (c1, r1) ->
  world r1 = world r /\ svc c1 = svc c /\ info c1 = info c /\
  cancel c1 = cancel c /\ ctx c1 = ctx c.
Proof.
  destruct (cron c) as [cs|].
  - unfold Log, emit, Cron_Stop, bind, ret. simpl.
    destruct (cron_wait (cron_Stop (lib cs))); [|discriminate].
    intros [= <- <-]. auto.
  - intros [= <- <-]. auto.
Qed.

Lemma call_cancel_world e (c c1 : serviceContainer L) (r r1 : Rt) :
  call_cancel e c r = Ok (c1, r1) ->
  world r1 = world r /\ svc c1 = svc c /\ info c1 = info c /\ cancel c = true.
Proof.
  unfold call_cancel. destruct (cancel c); [|discriminate].
  unfold emit, bind, ret. simpl. intros [= <- <-]. auto.
Qed.

(** X9. [start] and [stop] end by handing an event to the session. On a
    session whose event channel is closed, as [Destroy] leaves it, a
    container cannot be started or stopped: [start] runs the start hook
    and the cron jobs and then panics on the send, and [stop] never
    returns; with a cancel function and a scheduler that drains it runs
    the stop hook and panics on the send as well. *)
Theorem start_stop_need_event_channel (c : serviceContainer L) (r : Rt) :
  evch (sess (world r)) = chClosed ->
  (forall a, startAction (svc c) = Some a -> keeps_closed a) ->
  (forall a, stopAction (svc c) = Some a -> keeps_closed a) ->
  (forall p, start (Some p) c r = Panic "send on closed channel") /\
  (forall e x, stop e c r <> Ok x) /\
  (forall e, cancel c = true ->
             (forall cs, cron c = Some cs -> is_Some (cron_wait (cron_Stop (lib cs)))) ->
             stop e c r = Panic "send on closed channel").
Proof.
  intros Hc Hstart Hstop.
  assert (Hstop_inv : forall e x, stop e c r = Ok x -> False).
  { intros e [[x c'] r'] Hs. unfold stop in Hs.
    apply bind_inv in Hs as (u0 & r0 & Hlog & Hs).
    apply bind_inv in Hs as (c1 & r1 & Hcron & Hs).
    apply bind_inv in Hs as (c2 & r2 & Hcancel & Hs).
    apply bind_inv in Hs as (e0 & r3 & Hhook & Hs).
    apply bind_inv in Hs as (i' & r4 & Hinfo & Hs).
    apply bind_inv in Hs as (u1 & r5 & Hsend & _).
    assert (W0 : world r0 = world r).
    { destruct e; unfold Log, emit, ret in Hlog; injection Hlog as _ <-; reflexivity. }
    apply stop_cron_world in Hcron as (W1 & S1 & _).
    apply call_cancel_world in Hcancel as (W2 & S2 & _).
    assert (C3 : evch (sess (world r3)) = chClosed).
    { eapply hook_keeps_closed; [| |exact Hhook].
      - intros f Hf. apply Hstop. rewrite <- S1, <- S2. exact Hf.
      - rewrite W2, W1, W0. exact Hc. }
    destruct (info_update_sess ServiceInfo_stopped (info c2) r3) as (i2 & r4' & Hi & Hw);
      [auto|].
    rewrite Hi in Hinfo. injection Hinfo as <- <-.
    rewrite Dispatch_closed in Hsend by (rewrite Hw; exact C3). discriminate. }
  split; [|split].
  - intros p. unfold start.
    destruct (hook_spec HStart (startAction (svc c)) r) as (e & r1 & Hr1 & _).
    rewrite (bind_Ok _ _ _ _ _ Hr1).
    assert (C1 : evch (sess (world r1)) = chClosed).
    { eapply hook_keeps_closed; [exact Hstart|exact Hc|exact Hr1]. }
    destruct (start_cron_spec c r1) as (c1 & es & Hr2 & Hi & _).
    rewrite (bind_Ok _ _ _ _ _ Hr2).
    unfold WithCancelCause. unfold bind at 1, ret at 1.
    destruct (info_update_sess
                (fun i => match e with
                          | None => ServiceInfo_started i
                          | Some _ => ServiceInfo_addErr e i
                          end) (info (set_ctx (Some p) true c1))
                (mkRt (world r1) (effects r1 ++ es))) as (i' & r3 & Hr3 & Hw).
    { destruct e; eauto. }
    rewrite (bind_Ok _ _ _ _ _ Hr3).
    unfold bind at 1. rewrite Dispatch_closed; [reflexivity|].
    rewrite Hw. exact C1.
  - intros e x Hs. exact (Hstop_inv e x Hs).
  - intros e Hcancel Hdrain. unfold stop.
    assert (Hlog : exists r0, (match e with
                               | Some e' => Log LError "service error"
                                              (("err", PErr e') :: service_attr c)
                               | None => ret tt
                               end) r = Ok (tt, r0) /\ world r0 = world r).
    { destruct e; eexists; split; reflexivity. }
    destruct Hlog as (r0 & Hr0 & W0).
    rewrite (bind_Ok _ _ _ _ _ Hr0).
    rewrite (bind_Ok _ _ _ _ _ (stop_cron_spec c r0 Hdrain)).
    unfold call_cancel at 1. cbn [cancel set_cron]. rewrite Hcancel.
    unfold bind at 1. unfold bind at 1, emit at 1, ret at 1. cbn [world effects].
    match goal with
    | |- bind _ _ ?r2 = _ =>
        destruct (hook_spec HStop (stopAction (svc c)) r2) as (e0 & r3 & Hr3 & _);
        assert (C3 : evch (sess (world r3)) = chClosed)
          by (eapply hook_keeps_closed; [exact Hstop| |exact Hr3];
              simpl; rewrite W0; exact Hc)
    end.
    cbn [svc set_ctx set_cron]. rewrite (bind_Ok _ _ _ _ _ Hr3).
    match goal with
    | |- bind (ServiceInfo_stopped ?i) _ _ = _ =>
        destruct (info_update_sess ServiceInfo_stopped i r3) as (i' & r4 & Hr4 & Hw);
        [auto|]
    end.
    rewrite (bind_Ok _ _ _ _ _ Hr4).
    unfold bind at 1. rewrite Dispatch_closed; [reflexivity|].
    rewrite Hw. exact C3.
Qed.

End ClosedChannel.

(** ** ServiceInfo: the error history *)

Section InfoFacts.
Context `{Sentinels}.

Lemma Failed_insert (t : Z) (e : error) (m : gmap Z error) (i : ServiceInfo) :
  errs i = Some (<[t := e]> m) -> ServiceInfo_Failed i = true.
Proof.
  intros Hi. unfold ServiceInfo_Failed. rewrite Hi.
  apply bool_decide_eq_true.
  assert (Hne : size (<[t := e]> m) <> 0%nat).
  { intros Hz. apply map_size_empty_iff in Hz. exact (insert_non_empty _ _ _ Hz). }
  lia.
Qed.

Lemma addErr_spec (e : error) (i : ServiceInfo) (r : Rt) :
  ServiceInfo_addErr (Some e) i r =
  Ok (mkServiceInfo (name i) (addr i) (running i)
        (Some (<[clock (world r) (reads (world r)) := e]> (default ∅ (errs i))))
        (startedAt i) (stoppedAt i),
      mkRt (mkWorld (sess (world r)) (clock (world r)) (S (reads (world r)))
                    (registry (world r)))
           (effects r)).
Proof. reflexivity. Qed.

(** Filing an error, or nothing, never clears a failure. *)
Lemma addErr_Failed (e : option error) (i i' : ServiceInfo) (r r' : Rt) :
  ServiceInfo_addErr e i r = Ok (i', r') ->
  (ServiceInfo_Failed i = true \/ e <> None) -> ServiceInfo_Failed i' = true.
Proof.
  destruct e as [e|].
  - rewrite addErr_spec. intros [= <- <-] _. eapply Failed_insert. reflexivity.
  - intros [= <- <-] [Hf|Hn]; [exact Hf|congruence].
Qed.

(** X10. Errors filed for a service share a map keyed by the time they
    were filed at. Two errors filed at the same clock reading leave one
    entry: the record is the one that filing the second error alone would
    have given, and the first error is lost. Filed at different readings,
    both are kept. *)
Theorem addErr_same_instant_replaces (e1 e2 : error) (i : ServiceInfo) (r : Rt) :
  let t1 := clock (world r) (reads (world r)) in
  let t2 := clock (world r) (S (reads (world r))) in
  exists i1 r1 i2 r2,
    ServiceInfo_addErr (Some e1) i r = Ok (i1, r1) /\
    ServiceInfo_addErr (Some e2) i1 r1 = Ok (i2, r2) /\
    (t1 = t2 ->
       errs i2 = Some (<[t2 := e2]> (default ∅ (errs i))) /\
       (forall m, errs i2 = Some m -> m !! t1 = Some e2)) /\
    (t1 <> t2 ->
       forall m, errs i2 = Some m -> m !! t1 = Some e1 /\ m !! t2 = Some e2).
Proof.
  intros t1 t2. rewrite addErr_spec. eexists _, _.
  rewrite addErr_spec. eexists _, _.
  split; [reflexivity|]. split; [reflexivity|]. cbn.
  fold t1 t2. split.
  - intros Ht. rewrite Ht. rewrite insert_insert_eq. split; [reflexivity|].
    intros m [= <-]. apply lookup_insert_eq.
  - intros Ht m [= <-]. split.
    + rewrite lookup_insert_ne by congruence. apply lookup_insert_eq.
    + apply lookup_insert_eq.
Qed.

End InfoFacts.

(** ** Containers: failures, initialization, lifecycle *)

Section ContainerMore.
Context `{Sentinels} {L : Type} `{Scheduler L}.

Lemma started_Failed (i i' : ServiceInfo) (r r' : Rt) :
  ServiceInfo_started i r = Ok (i', r') -> ServiceInfo_Failed i' = ServiceInfo_Failed i.
Proof. unfold ServiceInfo_started, time_Now, bind, ret. intros [= <- <-]. reflexivity. Qed.

Lemma stopped_Failed (i i' : ServiceInfo) (r r' : Rt) :
  ServiceInfo_stopped i r = Ok (i', r') -> ServiceInfo_Failed i' = ServiceInfo_Failed i.
Proof. unfold ServiceInfo_stopped, time_Now, bind, ret. intros [= <- <-]. reflexivity. Qed.

Lemma handle_one_Failed lid sk ev i l (c c' : serviceContainer L) r r' :
  handle_one lid sk ev i l c r = Ok (c', r') ->
  ServiceInfo_Failed (info c) = true -> ServiceInfo_Failed (info c') = true.
Proof.
  unfold handle_one. destruct (_ || _); [|intros [= <- <-]; auto].
  intros Hh. apply bind_inv in Hh as (e & r1 & _ & Hh). destruct e as [e|].
  - apply bind_inv in Hh as (i1 & r2 & Ha & Hh).
    unfold Log, emit, bind, ret in Hh. simpl in Hh. injection Hh as <- <-.
    intros Hf. simpl. eapply addErr_Failed; [exact Ha|auto].
  - injection Hh as <- <-. auto.
Qed.

Lemma handle_slice_Failed lid sk ev ls : forall i (c c' : serviceContainer L) r r',
  handle_slice lid sk ev i ls c r = Ok (c', r') ->
  ServiceInfo_Failed (info c) = true -> ServiceInfo_Failed (info c') = true.
Proof.
  induction ls as [|l ls IH]; simpl; intros i c c' r r' Hh.
  - injection Hh as <- <-. auto.
  - apply bind_inv in Hh as (c1 & r1 & H1 & Hh). intros Hf.
    eapply IH; [exact Hh|]. eapply handle_one_Failed; eassumption.
Qed.

Lemma handle_range_Failed lid ev visit : forall (c c' : serviceContainer L) r r',
  handle_range lid ev visit c r = Ok (c', r') ->
  ServiceInfo_Failed (info c) = true -> ServiceInfo_Failed (info c') = true.
Proof.
  induction visit as [|[sk ls] visit IH]; simpl; intros c c' r r' Hh.
  - injection Hh as <- <-. auto.
  - apply bind_inv in Hh as (c1 & r1 & H1 & Hh). intros Hf.
    eapply IH; [exact Hh|]. eapply handle_slice_Failed; eassumption.
Qed.

(** The cron registrations of [initialize]: one id is added for each,
    and the world is left alone. *)
Lemma register_jobs (jobs : list (string * Action)) :
  forall (m : M (Cron L)) (cs0 : Cron L) (r r0 : Rt),
    m r = Ok (cs0, r0) -> world r0 = world r ->
    exists cs r',
      fold_left (fun m j => cs <- m ;; Cron_Job (fst j) (snd j) cs) jobs m r = Ok (cs, r') /\
      length (jobIDs cs) = (length (jobIDs cs0) + length jobs)%nat /\
      world r' = world r.
Proof.
  induction jobs as [|[expr cb] jobs IH]; intros m cs0 r r0 Hm Hw; simpl.
  - exists cs0, r0. split; [exact Hm|]. split; [lia|exact Hw].
  - assert (Hstep : exists cs1 r1,
              (cs <- m ;; Cron_Job expr cb cs) r = Ok (cs1, r1) /\
              length (jobIDs cs1) = S (length (jobIDs cs0)) /\ world r1 = world r).
    { rewrite (bind_Ok _ _ _ _ _ Hm). unfold Cron_Job.
      destruct (cron_AddFunc expr cb (lib cs0)) as [[id [e|]] l];
        unfold Log, emit, bind, ret; simpl; eexists _, _;
        (split; [reflexivity|]); simpl; rewrite length_app; simpl; split; (lia || exact Hw). }
    destruct Hstep as (cs1 & r1 & Hm1 & Hl1 & Hw1).
    destruct (IH _ cs1 r r1 Hm1 Hw1) as (cs & r' & Hf & Hl & Hw').
    exists cs, r'. split; [exact Hf|]. split; [lia|exact Hw'].
Qed.

(** X11. No operation of a container clears a failure: once
    [ServiceInfo.Failed] answers true it answers true after every
    [initialize], [start], [stop] and [handleEvent] that returns. *)
Theorem Failed_is_sticky :
  (forall (c c' : serviceContainer L) e r r',
      initialize c r = Ok ((e, c'), r') ->
      ServiceInfo_Failed (info c) = true -> ServiceInfo_Failed (info c') = true) /\
  (forall ectx (c c' : serviceContainer L) x r r',
      start ectx c r = Ok ((x, c'), r') ->
      ServiceInfo_Failed (info c) = true -> ServiceInfo_Failed (info c') = true) /\
  (forall e (c c' : serviceContainer L) x r r',
      stop e c r = Ok ((x, c'), r') ->
      ServiceInfo_Failed (info c) = true -> ServiceInfo_Failed (info c') = true) /\
  (forall visit ev (c c' : serviceContainer L) r r',
      handleEvent visit ev c r = Ok (c', r') ->
      ServiceInfo_Failed (info c) = true -> ServiceInfo_Failed (info c') = true).
Proof.
  split; [|split; [|split]].
  - intros c c' e r r' Hi Hf. unfold initialize in Hi.
    apply bind_inv in Hi as (e0 & r1 & _ & Hi). destruct e0 as [e0|].
    + apply bind_inv in Hi as (i1 & r2 & Ha & Hi). injection Hi as <- <- <-.
      simpl. eapply addErr_Failed; [exact Ha|auto].
    + apply bind_inv in Hi as (c1 & r2 & Hc & Hi).
      unfold Log, emit, bind, ret in Hi. simpl in Hi. injection Hi as <- <- <-.
      destruct (cronsetup (svc c)).
      * apply bind_inv in Hc as (cs & r3 & _ & Hc). injection Hc as <- <-. exact Hf.
      * injection Hc as <- <-. exact Hf.
  - intros ectx c c' x r r' Hs Hf. unfold start in Hs.
    apply bind_inv in Hs as (e & r1 & _ & Hs).
    apply bind_inv in Hs as (c1 & r2 & Hcron & Hs).
    apply bind_inv in Hs as (d & r3 & _ & Hs).
    apply bind_inv in Hs as (i1 & r4 & Hinfo & Hs).
    apply bind_inv in Hs as (u & r5 & _ & Hs).
    unfold Log, emit, bind, ret in Hs. simpl in Hs. injection Hs as <- <- <-.
    destruct (start_cron_spec c r1) as (c1' & es & Hcron' & Hi1 & _).
    rewrite Hcron' in Hcron. injection Hcron as <- <-.
    simpl. simpl in Hinfo. rewrite Hi1 in Hinfo. destruct e.
    + eapply addErr_Failed; [exact Hinfo|auto].
    + rewrite (started_Failed _ _ _ _ Hinfo). exact Hf.
  - intros e c c' x r r' Hs Hf. unfold stop in Hs.
    apply bind_inv in Hs as (u0 & r0 & _ & Hs).
    apply bind_inv in Hs as (c1 & r1 & Hcron & Hs).
    apply bind_inv in Hs as (c2 & r2 & Hcancel & Hs).
    apply bind_inv in Hs as (e0 & r3 & _ & Hs).
    apply bind_inv in Hs as (i1 & r4 & Hinfo & Hs).
    apply bind_inv in Hs as (u1 & r5 & _ & Hs).
    unfold Log, emit, bind, ret in Hs. simpl in Hs. injection Hs as <- <- <-.
    apply stop_cron_world in Hcron as (_ & _ & I1 & _).
    apply call_cancel_world in Hcancel as (_ & _ & I2 & _).
    simpl. rewrite (stopped_Failed _ _ _ _ Hinfo), I2, I1. exact Hf.
  - intros visit ev c c' r r' Hh Hf. unfold handleEvent in Hh.
    destruct (listeners (svc c)).
    + eapply handle_range_Failed; eassumption.
    + injection Hh as <- <-. exact Hf.
Qed.

(** X12. When the initialize hook fails, [initialize] returns the hook's
    error and stops there: the error is filed, so that the service counts
    as failed, no scheduler is made and no job registered, and nothing is
    logged. *)
Theorem initialize_failure_stops_setup (c : serviceContainer L) (a : Action) (e : error)
    (r : Rt) :
  initializeAction (svc c) = Some a ->
  fst (a (world r)) = Some e ->
  exists c' r',
    initialize c r = Ok ((Some e, c'), r') /\
    ServiceInfo_Failed (info c') = true /\
    cron c' = cron c /\
    effects r' = effects r ++ [ECall HInitialize].
Proof.
  intros Ha He. unfold initialize. rewrite Ha.
  rewrite (bind_Ok _ _ _ _ _ (call_spec HInitialize a r)). rewrite He.
  unfold bind at 1. rewrite addErr_spec. unfold ret.
  eexists _, _. split; [reflexivity|]. split; [|split; reflexivity].
  simpl. eapply Failed_insert. reflexivity.
Qed.

(** X13. When the initialize hook is absent or succeeds, [initialize]
    returns nil; a service set up with [Cron] gets a fresh scheduler
    holding one id for each registration the setup function made, those
    the scheduler refused included, and a service without gets none. *)
Theorem initialize_registers_jobs (c : serviceContainer L) (r : Rt) :
  (forall a, initializeAction (svc c) = Some a -> fst (a (world r)) = None) ->
  exists c' r',
    initialize c r = Ok ((None, c'), r') /\
    info c' = info c /\
    match cronsetup (svc c) with
    | Some jobs =>
        exists cs, cron c' = Some cs /\ length (jobIDs cs) = length jobs
    | None => cron c' = cron c
    end /\
    ELog LDebug "service initialied" (service_attr c) ∈ effects r'.
Proof.
  intros Hhook. unfold initialize.
  destruct (hook_spec HInitialize (initializeAction (svc c)) r) as (e & r1 & Hr1 & Hs & _).
  assert (He : e = None).
  { destruct (initializeAction (svc c)) as [a|] eqn:Ea.
    - rewrite call_spec in Hr1. injection Hr1 as <- _. apply (Hhook a eq_refl).
    - injection Hr1 as <- _. reflexivity. }
  subst e. rewrite (bind_Ok _ _ _ _ _ Hr1).
  destruct (cronsetup (svc c)) as [jobs|] eqn:Ej.
  - destruct (register_jobs jobs (ret newCron) newCron r1 r1 eq_refl eq_refl)
      as (cs & r2 & Hf & Hl & _).
    assert (Hin : (cs <- fold_left (fun m j => cs <- m ;; Cron_Job (fst j) (snd j) cs)
                                   jobs (ret newCron) ;;
                   ret (set_cron (Some cs) c)) r1 = Ok (set_cron (Some cs) c, r2))
      by (rewrite (bind_Ok _ _ _ _ _ Hf); reflexivity).
    rewrite (bind_Ok _ _ _ _ _ Hin).
    unfold Log, emit, bind, ret. simpl.
    eexists _, _. split; [reflexivity|]. split; [reflexivity|]. split.
    + exists cs. split; [reflexivity|]. exact Hl.
    + apply elem_of_app. right. left.
  - unfold Log, emit, bind, ret. simpl.
    eexists _, _. split; [reflexivity|]. split; [reflexivity|]. split; [reflexivity|].
    apply elem_of_app. right. left.
Qed.

End ContainerMore.

Section Lifecycle.
Context `{Sentinels} {L : Type} `{Scheduler L}.

(** X14. [Done] follows the life of a container. Before the first
    [start] there is no context and [Done] panics. A [start] that
    returns has derived the context from the engine's: [Done] is open
    exactly when the engine context is live. After a [stop] that returns
    on a started container, [Done] is closed. *)
Theorem container_Done_lifecycle :
  (forall (s : Service) (a : Address),
      serviceContainer_Done (@Service_container L s a) =
        Panic "invalid memory address or nil pointer dereference") /\
  (forall ectx (c c' : serviceContainer L) x r r',
      start ectx c r = Ok ((x, c'), r') ->
      exists p, ectx = Some p /\
                serviceContainer_Done c' = Ok (bool_decide (p <> None))) /\
  (forall e (c c' : serviceContainer L) x r r',
      stop e c r = Ok ((x, c'), r') ->
      ctx c <> None ->
      serviceContainer_Done c' = Ok true).
Proof.
  split; [reflexivity|]. split.
  - intros ectx c c' x r r' Hs. unfold start in Hs.
    apply bind_inv in Hs as (e & r1 & _ & Hs).
    apply bind_inv in Hs as (c1 & r2 & _ & Hs).
    apply bind_inv in Hs as (d & r3 & Hctx & Hs).
    apply bind_inv in Hs as (i1 & r4 & _ & Hs).
    apply bind_inv in Hs as (u & r5 & _ & Hs).
    unfold Log, emit, bind, ret in Hs. simpl in Hs. injection Hs as <- <- <-.
    destruct ectx as [p|]; [|discriminate].
    injection Hctx as <- <-. exists p. split; reflexivity.
  - intros e c c' x r r' Hs Hctx. unfold stop in Hs.
    apply bind_inv in Hs as (u0 & r0 & _ & Hs).
    apply bind_inv in Hs as (c1 & r1 & Hcron & Hs).
    apply bind_inv in Hs as (c2 & r2 & Hcancel & Hs).
    apply bind_inv in Hs as (e0 & r3 & _ & Hs).
    apply bind_inv in Hs as (i1 & r4 & _ & Hs).
    apply bind_inv in Hs as (u1 & r5 & _ & Hs).
    unfold Log, emit, bind, ret in Hs. simpl in Hs. injection Hs as <- <- <-.
    apply stop_cron_world in Hcron as (_ & _ & _ & _ & C1).
    unfold call_cancel in Hcancel. destruct (cancel c1); [|discriminate].
    unfold emit, bind, ret in Hcancel. simpl in Hcancel. injection Hcancel as <- <-.
    unfold serviceContainer_Done. simpl. rewrite C1.
    destruct (ctx c) as [[cause|]|]; [reflexivity|reflexivity|congruence].
Qed.

(** [stop] is its request to the scheduler followed by the rest, for
    every container and scheduler. *)
Lemma stop_in_two (e : option error) (c : serviceContainer L) (r : Rt) :
  stop e c r = (stop_request e c >> stop_from_wait e c) r.
Proof.
  unfold stop, stop_request, stop_from_wait.
  destruct e as [e'|]; destruct (cron c) as [cs|];
    unfold Log, emit, Cron_Stop, block, bind, ret; simpl;
    try destruct (cron_wait (cron_Stop (lib cs))); reflexivity.
Qed.

(** X15. [stop] waits for the scheduler before anything else. [stop] is
    its request to the scheduler followed by the rest, which starts with
    the wait. On a service with a Cron whose jobs do not finish, the
    request goes through: the world is untouched and what has happened is
    the log of the cause, if any, the log of the wait and the stop
    request, and nothing else; the rest is held up from there whatever
    state it is run in. So [stop] is held up with the cancel function not
    called, the stop hook not entered and no stopped event sent. *)
Theorem stop_waits_for_cron (e : option error) (c : serviceContainer L) (cs : Cron L)
    (r : Rt) :
  cron c = Some cs ->
  cron_wait (cron_Stop (lib cs)) = None ->
  (forall e0 (c0 : serviceContainer L) r0,
      stop e0 c0 r0 = (stop_request e0 c0 >> stop_from_wait e0 c0) r0) /\
  (exists r1,
      stop_request e c r = Ok (tt, r1) /\
      world r1 = world r /\
      effects r1 =
        effects r
        ++ match e with
           | Some e' => [ELog LError "service error" (("err", PErr e') :: service_attr c)]
           | None => []
           end
        ++ [ELog LSystemDebug "stopping cron scheduler, waiting jobs to finish"
                 (service_attr c);
            ECronStop] /\
      Forall (fun x => match x with
                       | ECancel _ | ECall _ | ESend _ | ECronDrained => False
                       | _ => True
                       end)
             (drop (length (effects r)) (effects r1))) /\
  (forall r1, stop_from_wait e c r1 = Blocked) /\
  stop e c r = Blocked.
Proof.
  intros Hc Hw.
  assert (Hrest : forall r1, stop_from_wait e c r1 = Blocked).
  { intros r1. unfold stop_from_wait. rewrite Hc, Hw. reflexivity. }
  split; [intros; apply stop_in_two|].
  split; [|split; [exact Hrest|]].
  - unfold stop_request. rewrite Hc.
    destruct e as [e'|]; unfold Log, emit, bind, ret; simpl;
      eexists; (split; [reflexivity|]); (split; [reflexivity|]); simpl;
      (split; [rewrite <- ?app_assoc; reflexivity|]);
      rewrite <- ?app_assoc, drop_app_length; repeat constructor.
  - rewrite stop_in_two. unfold stop_request. rewrite Hc.
    destruct e as [e'|]; unfold Log, emit, bind, ret; simpl; apply Hrest.
Qed.

(** X16. A listener is filed under the text [scope.key], and an event
    is matched by the text made of its own scope and key. A listener
    registered with [OnEvent] is therefore entered by [handleEvent] for
    every event whose joined text is the same, whatever order the range
    over the table takes: the event it was registered for, and also one
    whose dot falls elsewhere. *)
Theorem OnEvent_listener_reached (s : Service) (scope key : string) (cb : ActionWithEvent)
    (a : Address) (visit : list (string * list ActionWithEvent)) (ev : Event) (r : Rt) :
  let s' := Service_OnEvent scope key cb s in
  let lid := Scope ev +:+ "." +:+ Key ev in
  scope +:+ "." +:+ key = lid ->
  visit ≡ₚ map_to_list (default ∅ (listeners s')) ->
  exists c' r',
    handleEvent visit ev (@Service_container L s' a) r = Ok (c', r') /\
    (lid, length (default [] (default ∅ (listeners s) !! lid)))
      ∈ listener_calls (effects r').
Proof.
  intros s' lid Hlid Hperm.
  set (m := default ∅ (listeners s')) in *.
  assert (Hm : listeners s' = Some m) by reflexivity.
  assert (Hown : default [] (m !! lid) = default [] (default ∅ (listeners s) !! lid) ++ [cb]).
  { unfold m, s', Service_OnEvent. rewrite add_listener_lookup.
    rewrite decide_True by exact Hlid. rewrite Hlid. reflexivity. }
  assert (Hin : (lid, length (default [] (default ∅ (listeners s) !! lid)))
                  ∈ slice_ids lid 0 (default [] (m !! lid))).
  { rewrite Hown. unfold slice_ids. apply list_elem_of_fmap.
    exists (length (default [] (default ∅ (listeners s) !! lid))).
    split; [reflexivity|]. apply elem_of_seq. rewrite length_app. simpl. lia. }
  unfold handleEvent. change (svc (Service_container s' a)) with s'. rewrite Hm. fold lid.
  rewrite handle_range_filter.
  destruct (relevant_entries lid m visit (lid_not_any _ _) Hperm) as [-> | ->];
    rewrite handle_range_entries.
  - destruct (run_groups_spec lid ev m lid "any" (@Service_container L s' a) r)
      as (c' & r' & E & C); auto.
    exists c', r'. split; [exact E|]. rewrite C.
    apply elem_of_app. right. apply elem_of_app. left. exact Hin.
  - destruct (run_groups_spec lid ev m "any" lid (@Service_container L s' a) r)
      as (c' & r' & E & C); auto.
    exists c', r'. split; [exact E|]. rewrite C.
    apply elem_of_app. right. apply elem_of_app. right. exact Hin.
Qed.

End Lifecycle.

(** ** ServiceLoader: construction *)

Lemma contains_trans (t u s : string) : contains t u -> contains u s -> contains t s.
Proof.
  intros (p1 & q1 & ->) (p2 & q2 & ->).
  exists (p1 +:+ p2), (q2 +:+ q1). rewrite !str_app_assoc. reflexivity.
Qed.

Lemma omap_cons_eq {A B} (f : A -> option B) (x : A) (l : list A) :
  omap f (x :: l) = match f x with Some y => y :: omap f l | None => omap f l end.
Proof. reflexivity. Qed.

Section LoaderConstruction.
Context `{Sentinels} `{Resolver}.

(** A loader that comes out of its constructor with an error does not
    load anything. *)
Lemma Load_failed_construction (sl : ServiceLoader) (r : Rt) :
  loading sl = false -> sl_errs sl <> [] -> loaderCh sl = chOpen ->
  exists sl' r' e,
    Load sl r = Ok ((sl', None), r') /\
    sl_errs sl' = sl_errs sl ++ [initialization_failed] /\
    loaderCh sl' = chClosed /\ loading sl' = false /\
    sends (effects r') = sends (effects r) /\
    ServiceLoader_Err sl' = Some e /\
    contains (Error e) "loader initializeton failed".
Proof.
  intros Hl He Hch. unfold Load. rewrite Hl.
  rewrite bool_decide_eq_false_2 by exact He. cbn [negb].
  erewrite bind_Ok by (apply sl_cancel_spec; exact Hch).
  unfold ret. eexists _, _, _. split; [reflexivity|]. simpl.
  split; [reflexivity|]. split; [reflexivity|]. split; [reflexivity|].
  split; [rewrite sends_app, app_nil_r; reflexivity|].
  split.
  - unfold ServiceLoader_Err. simpl. apply errors_Join_Some.
    destruct (sl_errs sl); discriminate.
  - eapply contains_trans.
    + apply (Error_join_contains _ initialization_failed).
      apply elem_of_app. right. left.
    + unfold initialization_failed, Errorf_w. simpl.
      apply contains_app_r. exists ": ", "". rewrite str_app_nil_r. reflexivity.
Qed.

Lemma resolve_all_spec (h : Address) (names : list string) : forall sl,
  resolve_all (Some h) names sl =
  Ok (mkLoader (loading sl) (loaderCh sl) (sl_errs sl ++ unresolved h names)
               (hostaddr sl) (svcs sl ++ resolved h names)).
Proof.
  induction names as [|n names IH]; intros sl.
  - simpl. rewrite !app_nil_r. destruct sl; reflexivity.
  - cbn [resolve_all]. unfold resolved, unresolved. rewrite !omap_cons_eq.
    destruct (ResolveService h n) as [a|e]; rewrite IH; simpl;
      rewrite <- ?app_assoc; reflexivity.
Qed.

Lemma resolved_unresolved_length (h : Address) (names : list string) :
  (length (resolved h names) + length (unresolved h names) = length names)%nat.
Proof.
  unfold resolved, unresolved.
  induction names as [|n names IH]; [reflexivity|].
  rewrite !omap_cons_eq. destruct (ResolveService h n); simpl; lia.
Qed.

(** X17. [NewServiceLoader] needs a host address. When [app.host.addr]
    does not parse, a loader asked for at least one service is never
    made: resolving the first name dereferences the nil host address.
    Asked for no service, the loader is made with the parse error and
    the "requires valid app.host.addr" error, and [Load] then gives up at
    once: the channel is closed, no event is sent. *)
Theorem NewServiceLoader_needs_host (e : error) :
  (forall n names,
      NewServiceLoader (inr e) (n :: names) =
        Panic "invalid memory address or nil pointer dereference") /\
  (forall r, exists sl sl' r' e',
      NewServiceLoader (inr e) [] = Ok sl /\
      sl_errs sl = [e; Errorf_w ErrService ": loader requires valid app.host.addr"] /\
      Load sl r = Ok ((sl', None), r') /\
      loaderCh sl' = chClosed /\ loading sl' = false /\
      sends (effects r') = sends (effects r) /\
      ServiceLoader_Err sl' = Some e' /\
      contains (Error e') "loader initializeton failed").
Proof.
  split; [reflexivity|].
  intros r. eexists. 
  edestruct (Load_failed_construction
               (mkLoader false chOpen
                  [e; Errorf_w ErrService ": loader requires valid app.host.addr"] None [])
               r) as (sl' & r' & e' & HL & _ & Hch & Hld & Hs & He & Hc);
    [reflexivity|discriminate|reflexivity|].
  exists sl', r', e'. split; [reflexivity|]. split; [reflexivity|].
  split; [exact HL|]. auto.
Qed.

(** X18. With a host address, [NewServiceLoader] goes through the names
    in order: each name gives either a target or an error, so that
    targets and errors together are as many as the names. One name that
    does not resolve is enough for [Load] to give up at once, whatever
    the other names are: the channel is closed, no event is sent, and
    [Err()] says that the initialization failed. *)
Theorem NewServiceLoader_collects (h : Address) (names : list string) :
  exists sl,
    NewServiceLoader (inl h) names = Ok sl /\
    svcs sl = resolved h names /\
    sl_errs sl = unresolved h names /\
    loading sl = false /\ loaderCh sl = chOpen /\ hostaddr sl = Some h /\
    (length (svcs sl) + length (sl_errs sl) = length names)%nat /\
    (unresolved h names <> [] ->
     forall r, exists sl' r' e,
       Load sl r = Ok ((sl', None), r') /\
       loaderCh sl' = chClosed /\ loading sl' = false /\
       sends (effects r') = sends (effects r) /\
       ServiceLoader_Err sl' = Some e /\
       contains (Error e) "loader initializeton failed").
Proof.
  unfold NewServiceLoader. rewrite resolve_all_spec. simpl.
  eexists. split; [reflexivity|]. simpl.
  split; [reflexivity|]. split; [reflexivity|]. split; [reflexivity|].
  split; [reflexivity|]. split; [reflexivity|].
  split; [apply resolved_unresolved_length|].
  intros Hne r.
  edestruct (Load_failed_construction
               (mkLoader false chOpen (unresolved h names) (Some h) (resolved h names)) r)
    as (sl' & r' & e' & HL & _ & Hch & Hld & Hs & He & Hc);
    [reflexivity|exact Hne|reflexivity|].
  exists sl', r', e'. auto 10.
Qed.

End LoaderConstruction.

(** ** ServiceLoader: the request *)

Lemma to_start_cons (w : World) (a : Address) (l : list Address) :
  to_start w (a :: l) =
  match registry w !! Address_String a with
  | Some i => if running i then to_start w l else Address_String a :: to_start w l
  | None => to_start w l
  end.
Proof.
  unfold to_start. rewrite omap_cons_eq.
  destruct (registry w !! Address_String a) as [i|]; [destruct (running i)|]; reflexivity.
Qed.

Lemma elem_of_to_start (w : World) (l : list Address) (x : string) :
  x ∈ to_start w l <->
  exists a i, a ∈ l /\ Address_String a = x /\ registry w !! x = Some i /\ running i = false.
Proof.
  induction l as [|a l IH].
  - split; [intros Hin; inversion Hin|]. intros (a & i & Hin & _). inversion Hin.
  - rewrite to_start_cons. split.
    + intros Hin.
      assert (Hrest : x ∈ to_start w l ->
                exists a0 i, a0 ∈ a :: l /\ Address_String a0 = x /\
                             registry w !! x = Some i /\ running i = false).
      { intros Hx. apply IH in Hx as (a0 & i & H1 & H2). exists a0, i.
        split; [right; exact H1|exact H2]. }
      destruct (registry w !! Address_String a) as [i|] eqn:Er; [|auto].
      destruct (running i) eqn:Ei; [auto|].
      apply elem_of_cons in Hin as [->|Hin]; [|auto].
      exists a, i. split; [left|]. auto.
    + intros (a0 & i & Hin & Hx & Hr & Hi).
      apply elem_of_cons in Hin as [->|Hin].
      * rewrite Hx, Hr, Hi. left.
      * assert (Hx' : x ∈ to_start w l) by (apply IH; exists a0, i; auto).
        destruct (registry w !! Address_String a) as [j|]; [|exact Hx'].
        destruct (running j); [exact Hx'|right; exact Hx'].
Qed.

Lemma queue_of_lookup (w : World) (l : list Address) : forall q x,
  queue_of w l q !! x = if decide (x ∈ to_start w l) then registry w !! x else q !! x.
Proof.
  induction l as [|a l IH]; intros q x.
  - simpl. destruct (decide (x ∈ to_start w [])) as [Hin|]; [inversion Hin|reflexivity].
  - unfold queue_of in *. cbn [fold_left]. rewrite IH, to_start_cons.
    destruct (registry w !! Address_String a) as [i|] eqn:Er; [|reflexivity].
    destruct (running i) eqn:Ei; [reflexivity|].
    destruct (decide (x ∈ to_start w l)) as [Hin|Hnin].
    + rewrite decide_True by (right; exact Hin). reflexivity.
    + destruct (decide (x = Address_String a)) as [->|Hne].
      * rewrite decide_True by left. rewrite lookup_insert_eq. symmetry. exact Er.
      * rewrite decide_False.
        -- apply lookup_insert_ne. congruence.
        -- intros Hin. apply elem_of_cons in Hin as [?|?]; contradiction.
Qed.

Lemma timeouts_app es1 es2 : timeouts (es1 ++ es2) = timeouts es1 ++ timeouts es2.
Proof. apply omap_app. Qed.

Lemma when_log_effects c lvl msg attrs (r : Rt) :
  exists es, when c (Log lvl msg attrs) r = Ok (tt, mkRt (world r) (effects r ++ es))
             /\ sends es = [] /\ timeouts es = [].
Proof.
  destruct c; unfold when, Log, emit, ret.
  - eexists. split; [reflexivity|]. split; reflexivity.
  - exists []. rewrite app_nil_r. destruct r. split; [reflexivity|]. split; reflexivity.
Qed.

Section LoaderRequest.
Context `{Sentinels}.

(** The loop of [Load] over targets that are registered, the pending
    ones pairwise distinct: the pending ones are queued and requested in
    order, and nothing is sent. *)
Lemma Load_targets_clean (pre : list Address) :
  forall (rest : list Address) (q : gmap string ServiceInfo) (req : list string)
         (sl : ServiceLoader) (r : Rt),
    Forall (registered (world r)) pre ->
    NoDup (to_start (world r) pre) ->
    (forall y, y ∈ pre -> q !! Address_String y = None) ->
    exists es,
      sends es = [] /\ timeouts es = [] /\
      Load_targets (pre ++ rest) q req sl r =
      Load_targets rest (queue_of (world r) pre q) (req ++ to_start (world r) pre) sl
                   (mkRt (world r) (effects r ++ es)).
Proof.
  induction pre as [|x pre IH]; intros rest q req sl r Hreg Hnd Hq.
  - exists []. split; [reflexivity|]. split; [reflexivity|].
    simpl. rewrite !app_nil_r. destruct r; reflexivity.
  - apply Forall_cons in Hreg as [[i Hi] Hreg].
    assert (Hqx : q !! Address_String x = None) by (apply Hq; left).
    rewrite to_start_cons, Hi in Hnd |- *.
    unfold queue_of. cbn [fold_left]. rewrite Hi. fold (queue_of (world r) pre).
    cbn [app Load_targets]. unfold get_world at 1. unfold bind at 1.
    unfold Session_ServiceInfo. rewrite Hi, Hqx.
    rewrite bool_decide_eq_false_2 by (intros [? ?]; discriminate).
    destruct (running i) eqn:Er.
    + unfold Log, emit, bind at 1.
      match goal with
      | |- context [Load_targets (pre ++ rest) q req sl ?r1] =>
          destruct (IH rest q req sl r1) as (es & Hes & Het & ->)
      end.
      * exact Hreg.
      * exact Hnd.
      * intros y Hy. apply Hq. right. exact Hy.
      * eexists. split; [|split; [|simpl; rewrite <- app_assoc; reflexivity]].
        -- rewrite sends_app, Hes. reflexivity.
        -- rewrite timeouts_app, Het. reflexivity.
    + apply NoDup_cons in Hnd as [Hnin Hnd].
      unfold Log, emit, bind at 1.
      match goal with
      | |- context [Load_targets (pre ++ rest) ?q1 ?req1 sl ?r1] =>
          destruct (IH rest q1 req1 sl r1) as (es & Hes & Het & ->)
      end.
      * exact Hreg.
      * exact Hnd.
      * intros y Hy. simpl. rewrite lookup_insert_ne; [apply Hq; right; exact Hy|].
        intros Heq. apply Hnin. apply elem_of_to_start.
        exists y, i. split; [exact Hy|]. split; [congruence|].
        split; [exact Hi|exact Er].
      * eexists. split; [|split; [|simpl; rewrite <- !app_assoc; reflexivity]].
        -- rewrite sends_app, Hes. reflexivity.
        -- rewrite timeouts_app, Het. reflexivity.
Qed.

(** [Load] on a loader that is ready to load gets to its loop over the
    targets without sending anything. *)
Lemma Load_to_targets (sl : ServiceLoader) (r : Rt) (h : Address) :
  loading sl = false -> sl_errs sl = [] -> hostaddr sl = Some h ->
  exists es,
    sends es = [] /\ timeouts es = [] /\
    Load sl r =
    (x <- Load_targets (svcs sl) ∅ [] (set_loading true sl) ;;
     match x with
     | inl sl => ret (sl, None)
     | inr (q, req) =>
         Session_Dispatch (Some (StartServicesEvent req)) >>
         emit (EWithTimeout (loader_timeout (sess (world r)))) >>
         emit ESpawnWaiter >>
         ret (set_loading true sl, Some (mkWaiter q req (loader_timeout (sess (world r)))))
     end) (mkRt (world r) (effects r ++ es)).
Proof.
  intros Hload Herrs Hhost. unfold Load. rewrite Hload.
  rewrite bool_decide_eq_true_2 by exact Herrs. cbn [negb].
  rewrite (bind_Ok get_sess _ r (sess (world r)) r eq_refl).
  match goal with |- context [when ?c (Log ?l ?m ?at')] =>
    destruct (when_log_effects c l m at' r) as (es0 & Hw0 & Hes0 & Het0)
  end.
  rewrite (bind_Ok _ _ _ _ _ Hw0).
  simpl hostaddr. rewrite Hhost.
  rewrite (bind_Ok (ret h) _ _ _ _ eq_refl).
  rewrite (bind_Ok (Log _ _ _) _ _ _ _ eq_refl).
  eexists. split; [|split; [|simpl; rewrite <- app_assoc; reflexivity]].
  - rewrite sends_app, Hes0. reflexivity.
  - rewrite timeouts_app, Het0. reflexivity.
Qed.

End LoaderRequest.

Section LoaderRequestFacts.
Context `{Sentinels}.

(** X19. [Load] gives up at the first target the registry does not
    know. Let the targets before it be registered, the pending ones
    among them pairwise distinct. Then [Load] returns without starting
    its goroutine and without having sent any event: the loader is no
    longer loading, its channel is closed, and its only error, which is
    what [Err()] reports, is the registry's error for that address. *)
Theorem Load_unregistered_target (sl : ServiceLoader) (r : Rt) (h : Address)
    (pre post : list Address) (a : Address) :
  loading sl = false ->
  sl_errs sl = [] ->
  hostaddr sl = Some h ->
  loaderCh sl = chOpen ->
  svcs sl = pre ++ a :: post ->
  Forall (registered (world r)) pre ->
  NoDup (to_start (world r) pre) ->
  ~ registered (world r) a ->
  exists sl' r',
    Load sl r = Ok ((sl', None), r') /\
    sl_errs sl' = [registryError (Address_String a)] /\
    loading sl' = false /\
    loaderCh sl' = chClosed /\
    sends (effects r') = sends (effects r) /\
    ServiceLoader_Err sl' = Some (joinError [registryError (Address_String a)]).
Proof.
  intros Hload Herrs Hhost Hch Hsvcs Hreg Hnd Hnot.
  destruct (Load_to_targets sl r h Hload Herrs Hhost) as (es0 & Hes0 & _ & ->).
  rewrite Hsvcs.
  match goal with
  | |- context [bind (Load_targets _ _ _ _) _ ?r1] =>
      destruct (Load_targets_clean pre (a :: post) ∅ [] (set_loading true sl) r1)
        as (es1 & Hes1 & _ & Ht)
  end; [exact Hreg|exact Hnd|intros; apply lookup_empty|].
  unfold bind at 1. rewrite Ht. cbn [Load_targets world effects].
  unfold get_world at 1. unfold bind at 1. cbn [world].
  unfold Session_ServiceInfo.
  assert (Hnone : registry (world r) !! Address_String a = None).
  { destruct (registry (world r) !! Address_String a) eqn:E; [|reflexivity].
    exfalso. apply Hnot. unfold registered. rewrite E. eauto. }
  rewrite Hnone.
  erewrite bind_Ok by (apply sl_cancel_spec; exact Hch).
  unfold ret. eexists _, _. split; [reflexivity|]. simpl. rewrite Herrs.
  split; [reflexivity|]. split; [reflexivity|]. split; [reflexivity|].
  split; [|reflexivity].
  rewrite !sends_app, Hes0, Hes1. simpl. rewrite !app_nil_r. reflexivity.
Qed.

(** X20. [Load] on a loader whose targets are all registered, the
    pending ones pairwise distinct, on a session whose event channel is
    open: it returns with its goroutine started and the loader loading,
    having sent one event, the request to start exactly the pending
    targets in the order of the targets. The queue the goroutine waits
    on holds the registry's records of exactly these targets, one each,
    and until the goroutine is through [Err()] answers an error. Targets
    that are running already are passed over; when all are, the request
    is empty and is sent all the same. *)
Theorem Load_requests_pending (sl : ServiceLoader) (r : Rt) (h : Address) :
  loading sl = false ->
  sl_errs sl = [] ->
  hostaddr sl = Some h ->
  evch (sess (world r)) = chOpen ->
  Forall (registered (world r)) (svcs sl) ->
  NoDup (to_start (world r) (svcs sl)) ->
  let req := to_start (world r) (svcs sl) in
  exists q r',
    Load sl r =
      Ok ((set_loading true sl,
           Some (mkWaiter q req (loader_timeout (sess (world r))))), r') /\
    sends (effects r') = sends (effects r) ++ [StartServicesEvent req] /\
    size q = length req /\
    (forall x, is_Some (q !! x) <-> x ∈ req) /\
    (forall x i, q !! x = Some i -> registry (world r) !! x = Some i /\ running i = false) /\
    ServiceLoader_Err (set_loading true sl) <> None.
Proof.
  intros Hload Herrs Hhost Hev Hreg Hnd req.
  destruct (Load_to_targets sl r h Hload Herrs Hhost) as (es0 & Hes0 & _ & ->).
  match goal with
  | |- context [bind (Load_targets _ _ _ _) _ ?r1] =>
      destruct (Load_targets_clean (svcs sl) [] ∅ [] (set_loading true sl) r1)
        as (es1 & Hes1 & _ & Ht)
  end; [exact Hreg|exact Hnd|intros; apply lookup_empty|].
  rewrite app_nil_r in Ht.
  unfold bind at 1. rewrite Ht. cbn [Load_targets world effects app]. unfold ret at 1.
  fold req.
  set (q := queue_of (world r) (svcs sl) ∅).
  assert (Hlook : forall x, q !! x = if decide (x ∈ req) then registry (world r) !! x else None).
  { intros x. unfold q. rewrite queue_of_lookup. fold req.
    destruct (decide (x ∈ req)); [reflexivity|apply lookup_empty]. }
  assert (Hsome : forall x, is_Some (q !! x) <-> x ∈ req).
  { intros x. rewrite Hlook. destruct (decide (x ∈ req)) as [Hin|Hnin].
    - split; [auto|]. intros _. apply elem_of_to_start in Hin as (a & i & _ & _ & -> & _).
      eauto.
    - split; [intros [? ?]; discriminate|contradiction]. }
  exists q. eexists. split; [|split; [|split; [|split; [|split]]]].
  - unfold Session_Dispatch, get_sess, emit, bind, ret. cbn [world effects].
    rewrite Hev. reflexivity.
  - cbn [effects]. rewrite !sends_app, Hes0, Hes1. simpl. rewrite !app_nil_r. reflexivity.
  - rewrite <- size_dom.
    assert (Hdom : dom q = list_to_set req).
    { apply set_eq. intros x. rewrite elem_of_dom, elem_of_list_to_set. apply Hsome. }
    rewrite Hdom. apply size_list_to_set. exact Hnd.
  - exact Hsome.
  - intros x i Hq. rewrite Hlook in Hq. destruct (decide (x ∈ req)) as [Hin|]; [|discriminate].
    split; [exact Hq|]. apply elem_of_to_start in Hin as (a & j & _ & _ & Hr & Hj).
    congruence.
  - unfold ServiceLoader_Err. simpl. discriminate.
Qed.

(** C8. [Load] takes its timeout from [app.service.loader.timeout]. An
    unset key reads as zero. On a loader that is ready to load, with all
    targets registered, the pending ones pairwise distinct, and the
    session's event channel open, [Load] gets as far as its goroutine, and
    the timeout of the one context it makes with [context.WithTimeout],
    which is the timeout of the goroutine, is exactly 30 seconds when the
    key is unset or its value read as an int64 is zero or negative, and
    the configured value otherwise. Whenever [Load] returns with its
    goroutine started, on any loader, this is the timeout. *)
Theorem loader_timeout_default (sl : ServiceLoader) (r : Rt) (h : Address) :
  let s := sess (world r) in
  let cfg := Value_Int64 (Session_Get s "app.service.loader.timeout") in
  loading sl = false ->
  sl_errs sl = [] ->
  hostaddr sl = Some h ->
  evch s = chOpen ->
  Forall (registered (world r)) (svcs sl) ->
  NoDup (to_start (world r) (svcs sl)) ->
  (opts s !! "app.service.loader.timeout" = None -> cfg = 0) /\
  (exists used q req r',
      Load sl r = Ok ((set_loading true sl, Some (mkWaiter q req used)), r') /\
      timeouts (effects r') = timeouts (effects r) ++ [used] /\
      (cfg <= 0 -> used = 30000000000) /\
      (0 < cfg -> used = cfg)) /\
  (forall sl0 r0 sl' wt r',
      sess (world r0) = s ->
      Load sl0 r0 = Ok ((sl', Some wt), r') ->
      (cfg <= 0 -> timeout wt = 30000000000) /\
      (0 < cfg -> timeout wt = cfg) /\
      EWithTimeout (timeout wt) ∈ effects r').
Proof.
  intros s cfg Hload Herrs Hhost Hev Hreg Hnd.
  assert (Hdef : cfg <= 0 -> loader_timeout s = 30000000000).
  { intros Hle. unfold loader_timeout. fold cfg.
    apply Z.leb_le in Hle. rewrite Hle. reflexivity. }
  assert (Hcfg : 0 < cfg -> loader_timeout s = cfg).
  { intros Hlt. unfold loader_timeout. fold cfg.
    apply Z.leb_gt in Hlt. rewrite Hlt. reflexivity. }
  split; [|split].
  - intros Hunset. unfold cfg, Session_Get, Options_Get. rewrite Hunset. reflexivity.
  - destruct (Load_to_targets sl r h Hload Herrs Hhost) as (es0 & _ & Het0 & ->).
    match goal with
    | |- context [bind (Load_targets _ _ _ _) _ ?r1] =>
        destruct (Load_targets_clean (svcs sl) [] ∅ [] (set_loading true sl) r1)
          as (es1 & _ & Het1 & Ht)
    end; [exact Hreg|exact Hnd|intros; apply lookup_empty|].
    rewrite app_nil_r in Ht.
    unfold bind at 1. rewrite Ht. cbn [Load_targets world effects app]. unfold ret at 1.
    exists (loader_timeout s). eexists _, _, _. split; [|split; [|split]].
    + unfold Session_Dispatch, get_sess, emit, bind, ret. cbn [world effects].
      fold s. rewrite Hev. reflexivity.
    + cbn [effects]. rewrite !timeouts_app, Het0, Het1. simpl.
      rewrite !app_nil_r. reflexivity.
    + exact Hdef.
    + exact Hcfg.
  - intros sl0 r0 sl' wt r' Hs HL. unfold Load in HL.
    destruct (loading sl0); [discriminate|].
    destruct (negb _).
    { bind_inv HL. discriminate. }
    bind_inv HL. unfold get_sess in HL0. injection HL0 as <- <-.
    do 4 bind_inv HL. destruct a2 as [sl1|[q req]].
    { discriminate. }
    do 3 bind_inv HL. injection HL as <- <- <-.
    unfold emit in HL6, HL5. injection HL6 as _ <-. injection HL5 as _ <-.
    cbn [timeout effects]. rewrite Hs.
    split; [exact Hdef|]. split; [exact Hcfg|].
    apply elem_of_app. left. apply elem_of_app. right. left.
Qed.

End LoaderRequestFacts.

(** ** ServiceLoader: the goroutine *)

Section WaiterFacts.
Context `{Sentinels}.

(** Rounds that neither end nor fail the load are passed over. *)
Lemma waiter_idle_prefix (qlen : nat) (before rest : list select_event)
    (sl : ServiceLoader) (r : Rt) :
  Forall (idle qlen) before ->
  waiter qlen (before ++ rest) sl r = waiter qlen rest sl r.
Proof.
  induction before as [|ev before IH]; intros Hidle; [reflexivity|].
  apply Forall_cons in Hidle as [(visit & -> & Hclean & Hlen) Hidle].
  cbn [app waiter].
  rewrite (bind_Ok _ _ _ _ _ (poll_clean visit 0 sl r Hclean)).
  cbn [Nat.add].
  destruct (Nat.eqb_spec (length (List.filter st_running visit)) qlen) as [Heq|_];
    [contradiction|].
  apply IH, Hidle.
Qed.

Lemma expire_spec (visit : list status) : forall sl,
  expire visit sl =
  mkLoader (loading sl) (loaderCh sl)
    (sl_errs sl ++ ((fun st => not_on_time (Address_String (st_addr st)))
                      <$> List.filter (fun st => negb (st_running st)) visit))
    (hostaddr sl) (svcs sl).
Proof.
  unfold expire.
  induction visit as [|st visit IH]; intros sl; simpl.
  - rewrite app_nil_r. destruct sl; reflexivity.
  - rewrite IH. destruct (st_running st); simpl; [reflexivity|].
    rewrite <- app_assoc. reflexivity.
Qed.

(** X21. The goroutine of [Load] completes the load at the first tick
    at which no queued service shows an error and as many are running as
    were queued, whatever rounds would follow: the loader is no longer
    loading, its channel is closed, no error is added, and [Err()] is nil
    when the loader had no error. *)
Theorem waiter_completes (qlen : nat) (before rest : list select_event)
    (visit : list status) (sl : ServiceLoader) (r : Rt) :
  Forall (idle qlen) before ->
  Forall (fun st => st_errs st = None) visit ->
  length (List.filter st_running visit) = qlen ->
  loaderCh sl = chOpen ->
  exists sl' r',
    waiter qlen (before ++ Tick visit :: rest) sl r = Ok (Some sl', r') /\
    sl_errs sl' = sl_errs sl /\
    loading sl' = false /\
    loaderCh sl' = chClosed /\
    world r' = world r /\
    ServiceLoader_Err sl' = errors_Join (Some <$> sl_errs sl) /\
    (sl_errs sl = [] -> ServiceLoader_Err sl' = None).
Proof.
  intros Hidle Hclean Hlen Hch.
  rewrite (waiter_idle_prefix qlen before _ sl r Hidle).
  cbn [waiter]. rewrite (bind_Ok _ _ _ _ _ (poll_clean visit 0 sl r Hclean)).
  cbn [Nat.add]. rewrite Hlen, Nat.eqb_refl.
  unfold sl_done, Log, emit, lift, bind, ret. simpl. rewrite Hch. simpl.
  eexists _, _. split; [reflexivity|]. simpl.
  split; [reflexivity|]. split; [reflexivity|]. split; [reflexivity|].
  split; [reflexivity|]. split; [reflexivity|].
  intros ->. reflexivity.
Qed.

(** X22. When the context of the goroutine is done before the load
    completed, the load fails, whatever rounds would follow: each queued
    service that is not running by then is reported with a "did not load
    on time" error, in the order of the visit, then the context's error
    is added; the loader is no longer loading, its channel is closed, and
    the text of what [Err()] reports holds the context's error and the
    address of each late service. *)
Theorem waiter_times_out (qlen : nat) (before rest : list select_event)
    (visit : list status) (ctxErr : error) (sl : ServiceLoader) (r : Rt) :
  Forall (idle qlen) before ->
  loaderCh sl = chOpen ->
  let late := (fun st => not_on_time (Address_String (st_addr st)))
                <$> List.filter (fun st => negb (st_running st)) visit in
  exists sl' r' e,
    waiter qlen (before ++ CtxDone visit ctxErr :: rest) sl r = Ok (Some sl', r') /\
    sl_errs sl' = sl_errs sl ++ late ++ [ctxErr] /\
    loading sl' = false /\
    loaderCh sl' = chClosed /\
    ServiceLoader_Err sl' = Some e /\
    contains (Error e) (Error ctxErr) /\
    (forall st, st ∈ visit -> st_running st = false ->
                contains (Error e) (Address_String (st_addr st))).
Proof.
  intros Hidle Hch late.
  rewrite (waiter_idle_prefix qlen before _ sl r Hidle).
  cbn [waiter]. rewrite (bind_Ok (Log _ _ _) _ _ _ _ eq_refl).
  rewrite expire_spec. fold late.
  erewrite bind_Ok by (apply sl_cancel_spec; exact Hch).
  unfold ret. simpl.
  eexists _, _, _. split; [reflexivity|]. simpl.
  split; [rewrite <- app_assoc; reflexivity|].
  split; [reflexivity|]. split; [reflexivity|].
  split.
  { unfold ServiceLoader_Err. simpl. apply errors_Join_Some.
    destruct (sl_errs sl ++ late); discriminate. }
  split.
  - apply Error_join_contains. apply elem_of_app. right. left.
  - intros st Hin Hrun.
    eapply contains_trans.
    + apply (Error_join_contains _ (not_on_time (Address_String (st_addr st)))).
      apply elem_of_app. left. apply elem_of_app. right.
      unfold late. apply list_elem_of_fmap. exists st. split; [reflexivity|].
      apply list_elem_of_In, filter_In. split; [apply list_elem_of_In, Hin|].
      rewrite Hrun. reflexivity.
    + unfold not_on_time, Errorf. simpl.
      exists "service did not load on time ", "". rewrite str_app_nil_r. reflexivity.
Qed.

Lemma poll_closed (visit : list status) : forall loaded sl r x r',
  loaderCh sl = chClosed ->
  poll visit loaded sl r = Ok (x, r') -> exists n, x = inr n /\ r' = r.
Proof.
  induction visit as [|st visit IH]; intros loaded sl r x r' Hch Hp; simpl in Hp.
  - injection Hp as <- <-. eauto.
  - destruct (st_errs st) as [es|].
    + rewrite add_all_errs in Hp.
      unfold sl_cancel, Log, emit, lift, bind, ret in Hp. simpl in Hp.
      rewrite Hch in Hp. discriminate.
    + eapply IH; eassumption.
Qed.

(** X23. A loader is good for one load. Once its channel is closed, by
    a load that failed or one that completed, a second [Load] does not
    work: on a loader that holds an error it panics at once, closing the
    closed channel, and a goroutine started for such a loader can never
    finish, since every way it ends closes the channel. *)
Theorem loader_is_single_use (sl : ServiceLoader) :
  loaderCh sl = chClosed ->
  (forall r, loading sl = false -> sl_errs sl <> [] ->
             Load sl r = Panic "close of closed channel") /\
  (forall qlen rounds r x r', waiter qlen rounds sl r = Ok (x, r') -> x = None).
Proof.
  intros Hch. split.
  - intros r Hl He. unfold Load. rewrite Hl.
    rewrite bool_decide_eq_false_2 by exact He. cbn [negb].
    unfold sl_cancel, Log, emit, lift, bind, ret. simpl. rewrite Hch. reflexivity.
  - intros qlen rounds. induction rounds as [|ev rounds IH]; intros r x r' Hw.
    + injection Hw as <- _. reflexivity.
    + destruct ev as [visit ctxErr|visit]; cbn [waiter] in Hw.
      * rewrite (bind_Ok (Log _ _ _) _ _ _ _ eq_refl) in Hw.
        rewrite expire_spec in Hw.
        unfold sl_cancel, Log, emit, lift, bind, ret in Hw. simpl in Hw.
        rewrite Hch in Hw. discriminate.
      * apply bind_inv in Hw as (p & r1 & Hp & Hw).
        apply (poll_closed _ _ _ _ _ _ Hch) in Hp as (n & -> & ->).
        destruct (Nat.eqb n qlen).
        -- unfold sl_done, Log, emit, lift, bind, ret in Hw. simpl in Hw.
           rewrite Hch in Hw. discriminate.
        -- eapply IH, Hw.
Qed.

End WaiterFacts.

(** ** The events that request services *)

Lemma Store_fresh (k : string) (v : pval) (m : list (string * pval)) :
  k ∉ m.*1 -> Store k v m = m ++ [(k, v)].
Proof.
  induction m as [|[k' v'] m IH]; intros Hk; [reflexivity|].
  simpl. destruct (String.eqb_spec k k') as [->|Hne].
  - exfalso. apply Hk. left.
  - rewrite IH; [reflexivity|]. intros Hin. apply Hk. right. exact Hin.
Qed.

Lemma service_key_inj (i j : nat) :
  "service." +:+ pretty i = "service." +:+ pretty j -> i = j.
Proof.
  intros Heq. apply (inj pretty). 
  change ("service." +:+ pretty i) with
    (String "s" (String "e" (String "r" (String "v" (String "i" (String "c"
      (String "e" (String "." (pretty i))))))))) in Heq.
  change ("service." +:+ pretty j) with
    (String "s" (String "e" (String "r" (String "v" (String "i" (String "c"
      (String "e" (String "." (pretty j))))))))) in Heq.
  congruence.
Qed.

Lemma store_services (l : list string) : forall (k : nat) (p : list (string * pval)),
  (forall j, (k <= j)%nat -> "service." +:+ pretty j ∉ p.*1) ->
  fold_left (fun p ia => Store ("service." +:+ pretty (fst ia)) (PStr (snd ia)) p)
            (imap (fun i a => ((k + i)%nat, a)) l) p =
  p ++ imap (fun i a => ("service." +:+ pretty (k + i)%nat, PStr a)) l.
Proof.
  induction l as [|x l IH]; intros k p Hfresh.
  - simpl. rewrite app_nil_r. reflexivity.
  - rewrite !imap_cons. cbn [fold_left fst snd].
    rewrite Store_fresh by (apply Hfresh; lia).
    rewrite (imap_ext _ (fun i a => ((S k + i)%nat, a))) by (intros; simpl; f_equal; lia).
    rewrite IH.
    + rewrite <- app_assoc. cbn [app]. f_equal. f_equal.
      apply imap_ext. intros i a _. simpl. repeat f_equal. lia.
    + intros j Hj. rewrite fmap_app. cbn [fmap list_fmap fst].
      intros Hin. apply elem_of_app in Hin as [Hin|Hin].
      * apply (Hfresh j); [lia|exact Hin].
      * apply list_elem_of_singleton in Hin. apply service_key_inj in Hin. lia.
Qed.

(** X24. The events that ask the engine to start or to stop services
    carry every address they were given: the payload has one entry for
    each, in order, the [i]-th under the key [service.i], and no entry
    replaces another. *)
Theorem services_event_payload (l : list string) :
  Payload (StartServicesEvent l)
    = imap (fun i a => ("service." +:+ pretty i, PStr a)) l /\
  Payload (StopServicesEvent l)
    = imap (fun i a => ("service." +:+ pretty i, PStr a)) l /\
  length (Payload (StartServicesEvent l)) = length l /\
  Scope (StartServicesEvent l) = "services" /\ Key (StartServicesEvent l) = "start.services" /\
  Scope (StopServicesEvent l) = "services" /\ Key (StopServicesEvent l) = "stop.services".
Proof.
  assert (Hp : fold_left (fun p ia => Store ("service." +:+ pretty (fst ia)) (PStr (snd ia)) p)
                         (imap (fun i a => (i, a)) l) []
               = imap (fun i a => ("service." +:+ pretty i, PStr a)) l).
  { rewrite (imap_ext _ (fun i a => ((0 + i)%nat, a))) by reflexivity.
    rewrite store_services; [reflexivity|].
    intros j _ Hin. inversion Hin. }
  unfold StartServicesEvent, StopServicesEvent. cbn [Payload Scope Key].
  rewrite Hp. repeat split; try reflexivity.
  apply length_imap.
Qed.

(** ** Session: the done channel of a session that was never started *)

Section DoneFacts.
Context `{Sentinels}.

Lemma entered_only_step (c c' : config) :
  step c c' ->
  Session_Err (fst c) <> None -> done (fst c) = chOpen ->
  Forall (fun t => exists e, t = DestroyEnter e) (snd c) ->
  Session_Err (fst c') <> None /\ done (fst c') = chOpen /\
  Forall (fun t => exists e, t = DestroyEnter e) (snd c').
Proof.
  intros Hstep Hne Hd Hts.
  split; [eapply step_err_persists; eassumption|].
  destruct Hstep as [s ts e|s ts e Hsig|s ts i t s' t' Hi Hrun|s ts i t s' Hi Hrun
                    |s ts|s ts s' Hready|s ts|s ts Hdone]; simpl in *.
  - split; [exact Hd|]. apply Forall_app. split; [exact Hts|]. repeat constructor. eauto.
  - split; [exact Hd|]. apply Forall_app. split; [exact Hts|]. repeat constructor. eauto.
  - exfalso. destruct (Forall_lookup_1 _ _ _ _ Hts Hi) as [e ->]. simpl in Hrun.
    unfold Session_Err in *. destruct (err s); [discriminate|congruence].
  - destruct (Forall_lookup_1 _ _ _ _ Hts Hi) as [e ->]. simpl in Hrun.
    unfold Session_Err in *. destruct (err s); [|discriminate].
    injection Hrun as <-. split; [exact Hd|]. apply Forall_delete, Hts.
  - unfold Session_Done. rewrite Hd. simpl. auto.
  - unfold Session_setReady in Hready. destruct (readyFunc s); [|discriminate].
    injection Hready as <-. auto.
  - auto.
  - congruence.
Qed.

(** X25. [Destroy] closes the done channel only when it exists. On a
    session that was never started and whose [Done] was never asked,
    [Destroy] returns with no done channel; [Done] asked afterwards makes
    a channel that is open and that nothing closes any more, whatever the
    goroutines do next: every later [Destroy] finds the error set and
    returns at once. *)
Theorem Done_after_Destroy_never_closes (s : Session) (e : option error) :
  Session_Err s = None ->
  done s = chNil ->
  evch s <> chClosed ->
  exists s1,
    Session_Destroy e s = Ok s1 /\
    fst (Session_Done s1) = chOpen /\
    forall c, rtc step (snd (Session_Done s1), []) c -> done (fst c) = chOpen.
Proof.
  intros He Hd Hev.
  destruct (Destroy_returns e s He Hev ltac:(rewrite Hd; discriminate)) as (s1 & H1 & H2).
  assert (Hd1 : done s1 = chNil).
  { unfold Session_Destroy in H1. rewrite He in H1.
    unfold Destroy_close in H1.
    assert (E : done (Destroy_release (Destroy_set e s)) = chNil).
    { unfold Destroy_release, Destroy_set.
      destruct e; simpl; destruct (readyFunc s); simpl; destruct (sigRelease s);
        simpl; exact Hd. }
    destruct (evch (Destroy_release (Destroy_set e s))) eqn:Ee; simpl in H1.
    - rewrite E in H1. injection H1 as <-. exact E.
    - rewrite E in H1. injection H1 as <-. exact E.
    - discriminate. }
  exists s1. split; [exact H1|].
  unfold Session_Done. rewrite Hd1. simpl. split; [reflexivity|].
  assert (Hgen : forall a b, rtc step a b ->
            Session_Err (fst a) <> None -> done (fst a) = chOpen ->
            Forall (fun t => exists e, t = DestroyEnter e) (snd a) ->
            done (fst b) = chOpen).
  { induction 1 as [|a b c Hab _ IH]; [auto|].
    intros Hne Hdo Hts.
    destruct (entered_only_step a b Hab Hne Hdo Hts) as (Hne' & Hdo' & Hts').
    apply IH; assumption. }
  intros c Hsteps. eapply Hgen; [exact Hsteps| | |]; simpl.
  - unfold Session_Err in *. rewrite H2. discriminate.
  - reflexivity.
  - constructor.
Qed.

End DoneFacts.

(** * Further examples *)

Lemma ensure_idempotent_witness :
  @ensure asciiUnicode [72; 97; 112; 32; 112; 46; 89; 33] = [104; 97; 112; 112; 46; 121] /\
  @ensure asciiUnicode [104; 97; 112; 112; 46; 121] = [104; 97; 112; 112; 46; 121].
Proof.
  split; [reflexivity|].
  apply (proj2 (@ensure_idempotent asciiUnicode [104; 97; 112; 112; 46; 121])).
  repeat constructor.
Defined.

Section SessionExamples.
#[local] Existing Instance exampleSentinels.

Lemma Session_err_persists_witness :
  rtc step (half_destroyed, [DestroyRelease]) (destroyed, []) /\
  Session_Err half_destroyed <> None /\
  Session_Err destroyed <> None.
Proof.
  assert (Hs : rtc step (half_destroyed, [DestroyRelease]) (destroyed, [])).
  { eapply rtc_l; [eapply (step_task_more _ _ 0 DestroyRelease _ DestroyClose); reflexivity|].
    eapply rtc_l; [eapply (step_task_return _ _ 0 DestroyClose destroyed); reflexivity|].
    apply rtc_refl. }
  assert (Hne : Session_Err half_destroyed <> None) by (vm_compute; discriminate).
  split; [exact Hs|]. split; [exact Hne|].
  exact (Session_err_persists (half_destroyed, [DestroyRelease]) (destroyed, []) Hs Hne).
Defined.


Lemma Value_probe_after_signal_witness :
  fresh exampleSession /\
  Session_Value_int started_session = Ok started_session /\
  exists s', Session_Value_int (os_signal started_session) = Ok s' /\
             Session_Err s' = Some Canceled.
Proof.
  assert (Hf : fresh exampleSession) by (repeat split; discriminate).
  split; [exact Hf|].
  destruct (Value_probe_after_signal exampleSession Hf) as (H0 & s' & H1 & H2 & _).
  split; [exact H0|]. exists s'. split; [exact H1|exact H2].
Defined.

Lemma Done_after_Destroy_never_closes_witness :
  Session_Err exampleSession = None /\
  done exampleSession = chNil /\
  exists s1, Session_Destroy (Some boom) exampleSession = Ok s1 /\
             fst (Session_Done s1) = chOpen.
Proof.
  split; [reflexivity|]. split; [reflexivity|].
  destruct (Done_after_Destroy_never_closes exampleSession (Some boom) eq_refl eq_refl
              ltac:(discriminate)) as (s1 & H1 & H2 & _).
  exists s1. split; [exact H1|exact H2].
Defined.

End SessionExamples.

Section ContainerExamples.
#[local] Existing Instance exampleSentinels.
#[local] Existing Instance exampleScheduler.

Lemma start_stop_need_event_channel_witness :
  evch (sess (world rt_destroyed)) = chClosed /\
  start (Some None) grumpy_started rt_destroyed = Panic "send on closed channel" /\
  stop (Some boom) grumpy_started rt_destroyed = Panic "send on closed channel".
Proof.
  assert (Hc : evch (sess (world rt_destroyed)) = chClosed) by reflexivity.
  assert (Hstart : forall a, startAction (svc grumpy_started) = Some a -> keeps_closed a).
  { intros a [= <-] w Hw. exact Hw. }
  assert (Hstop : forall a, stopAction (svc grumpy_started) = Some a -> keeps_closed a).
  { intros a [= <-] w Hw. exact Hw. }
  assert (Hdrain : forall cs, cron grumpy_started = Some cs ->
                              is_Some (cron_wait (cron_Stop (lib cs)))).
  { intros cs _. simpl. eauto. }
  destruct (start_stop_need_event_channel grumpy_started rt_destroyed Hc Hstart Hstop)
    as (H1 & _ & H3).
  split; [exact Hc|]. split; [exact (H1 None)|exact (H3 (Some boom) eq_refl Hdrain)].
Defined.

Lemma addErr_same_instant_replaces_witness :
  exists i1 r1 i2 r2,
    ServiceInfo_addErr (Some boom) (infoA false) rt_frozen = Ok (i1, r1) /\
    ServiceInfo_addErr (Some (errorString "again")) i1 r1 = Ok (i2, r2) /\
    errs i2 = Some (<[1000 := errorString "again"]> ∅).
Proof.
  destruct (addErr_same_instant_replaces boom (errorString "again") (infoA false) rt_frozen)
    as (i1 & r1 & i2 & r2 & H1 & H2 & Hsame & _).
  exists i1, r1, i2, r2. split; [exact H1|]. split; [exact H2|].
  exact (proj1 (Hsame eq_refl)).
Defined.

Lemma Failed_is_sticky_witness :
  ServiceInfo_Failed (info grumpy_failed) = true /\
  exists x c' r',
    stop None grumpy_failed rt0 = Ok ((x, c'), r') /\
    ServiceInfo_Failed (info c') = true.
Proof.
  split; [reflexivity|].
  destruct (stop None grumpy_failed rt0) as [[[x c'] r']| |] eqn:E;
    [|vm_compute in E; discriminate E..].
  exists x, c', r'. split; [reflexivity|].
  exact (proj1 (proj2 (proj2 (Failed_is_sticky (L := exampleCron))))
           None grumpy_failed c' x rt0 r' E eq_refl).
Defined.

Lemma initialize_failure_stops_setup_witness :
  exists c' r',
    initialize (@Service_container exampleCron faulty (exampleAddress "faulty")) rt0
      = Ok ((Some (errorString "no config"), c'), r') /\
    ServiceInfo_Failed (info c') = true /\
    cron c' = None.
Proof.
  destruct (initialize_failure_stops_setup
              (@Service_container exampleCron faulty (exampleAddress "faulty"))
              (failing "no config") (errorString "no config") rt0 eq_refl eq_refl)
    as (c' & r' & H1 & H2 & H3 & _).
  exists c', r'. split; [exact H1|]. split; [exact H2|exact H3].
Defined.

Lemma initialize_registers_jobs_witness :
  exists c' r' cs,
    initialize (@Service_container exampleCron scheduled (exampleAddress "scheduled")) rt0
      = Ok ((None, c'), r') /\
    cron c' = Some cs /\
    length (jobIDs cs) = 2%nat.
Proof.
  destruct (initialize_registers_jobs
              (@Service_container exampleCron scheduled (exampleAddress "scheduled")) rt0)
    as (c' & r' & H1 & _ & (cs & H2 & H3) & _).
  { intros a Ha. discriminate Ha. }
  exists c', r', cs. split; [exact H1|]. split; [exact H2|exact H3].
Defined.

Lemma container_Done_lifecycle_witness :
  serviceContainer_Done grumpy_created =
    Panic "invalid memory address or nil pointer dereference" /\
  exists x c' r',
    stop (Some boom) grumpy_started rt0 = Ok ((x, c'), r') /\
    serviceContainer_Done c' = Ok true.
Proof.
  split; [exact (proj1 (container_Done_lifecycle (L := exampleCron)) grumpy _)|].
  destruct (stop (Some boom) grumpy_started rt0) as [[[x c'] r']| |] eqn:E;
    [|vm_compute in E; discriminate E..].
  exists x, c', r'. split; [reflexivity|].
  apply (proj2 (proj2 (container_Done_lifecycle (L := exampleCron)))
           (Some boom) grumpy_started c' x rt0 r' E).
  discriminate.
Defined.

Lemma stop_waits_for_cron_witness :
  cron grumpy_started = Some newCron /\
  (exists r1,
      @stop_request exampleCron (Some boom) grumpy_started rt0 = Ok (tt, r1) /\
      effects r1 =
        [ELog LError "service error" (("err", PErr boom) :: service_attr grumpy_started);
         ELog LSystemDebug "stopping cron scheduler, waiting jobs to finish"
              (service_attr grumpy_started);
         ECronStop]) /\
  @stop exampleCron stuckScheduler (Some boom) grumpy_started rt0 = Blocked.
Proof.
  split; [reflexivity|].
  destruct (@stop_waits_for_cron exampleCron stuckScheduler
              (Some boom) grumpy_started newCron rt0 eq_refl eq_refl)
    as (_ & (r1 & H1 & _ & H2 & _) & _ & H3).
  split; [|exact H3].
  exists r1. split; [exact H1|exact H2].
Defined.

Lemma OnEvent_listener_reached_witness :
  exists c' r',
    handleEvent (map_to_list (default ∅ (listeners dotted)))
                (NewEvent "jobs" "done.x" [] None)
                (@Service_container exampleCron dotted (exampleAddress "dotted")) rt0
      = Ok (c', r') /\
    ("jobs.done.x", 0%nat) ∈ listener_calls (effects r').
Proof.
  apply (OnEvent_listener_reached (L := exampleCron) (NewService "dotted") "jobs.done" "x"
           (fun w _ => (None, w)) (exampleAddress "dotted")
           (map_to_list (default ∅ (listeners dotted)))
           (NewEvent "jobs" "done.x" [] None) rt0 eq_refl (Permutation_refl _)).
Defined.

End ContainerExamples.

Section MoreLoaderExamples.
#[local] Existing Instance exampleSentinels.
#[local] Existing Instance exampleResolver.

Lemma NewServiceLoader_collects_witness :
  exists sl,
    NewServiceLoader (inl hostAddress) ["a"; ""; "b"] = Ok sl /\
    svcs sl = [addrA; addrB] /\
    sl_errs sl = [errorString "address error: not a service"] /\
    exists sl' r' e,
      Load sl rt0 = Ok ((sl', None), r') /\
      loaderCh sl' = chClosed /\
      ServiceLoader_Err sl' = Some e.
Proof.
  destruct (NewServiceLoader_collects hostAddress ["a"; ""; "b"])
    as (sl & H1 & H2 & H3 & _ & _ & _ & _ & HL).
  exists sl. split; [exact H1|]. split; [exact H2|]. split; [exact H3|].
  destruct (HL ltac:(discriminate) rt0) as (sl' & r' & e & L1 & L2 & _ & _ & L3 & _).
  exists sl', r', e. split; [exact L1|]. split; [exact L2|exact L3].
Defined.

Lemma Load_unregistered_target_witness :
  ~ registered world_ab (exampleAddress "c") /\
  exists sl' r',
    Load loader_bc (mkRt world_ab []) = Ok ((sl', None), r') /\
    sl_errs sl' = [registryError (Address_String (exampleAddress "c"))] /\
    loaderCh sl' = chClosed /\
    sends (effects r') = [].
Proof.
  assert (Hnot : ~ registered world_ab (exampleAddress "c")).
  { intros [i Hi]. vm_compute in Hi. discriminate Hi. }
  assert (Hreg : Forall (registered (world (mkRt world_ab []))) [addrB]).
  { constructor; [|constructor]. exists (infoB false). reflexivity. }
  assert (Hnd : NoDup (to_start (world (mkRt world_ab [])) [addrB])).
  { apply NoDup_ListNoDup. vm_compute. repeat constructor; intros []. }
  split; [exact Hnot|].
  destruct (Load_unregistered_target loader_bc (mkRt world_ab []) hostAddress
              [addrB] [] (exampleAddress "c") eq_refl eq_refl eq_refl eq_refl eq_refl
              Hreg Hnd Hnot)
    as (sl' & r' & H1 & H2 & _ & H3 & H4 & _).
  exists sl', r'. split; [exact H1|]. split; [exact H2|]. split; [exact H3|exact H4].
Defined.

Lemma Load_requests_pending_witness :
  to_start world_ab (svcs loader_ab) = [Address_String addrB] /\
  exists q r',
    Load loader_ab (mkRt world_ab []) =
      Ok ((set_loading true loader_ab,
           Some (mkWaiter q [Address_String addrB] 30000000000)), r') /\
    sends (effects r') = [StartServicesEvent [Address_String addrB]] /\
    size q = 1%nat.
Proof.
  assert (Hreq : to_start world_ab (svcs loader_ab) = [Address_String addrB])
    by (vm_compute; reflexivity).
  assert (Hreg : Forall (registered (world (mkRt world_ab []))) (svcs loader_ab)).
  { constructor; [exists (infoA true); reflexivity|].
    constructor; [exists (infoB false); reflexivity|constructor]. }
  assert (Hnd : NoDup (to_start (world (mkRt world_ab [])) (svcs loader_ab))).
  { change (world (mkRt world_ab [])) with world_ab. rewrite Hreq.
    apply NoDup_singleton. }
  split; [exact Hreq|].
  destruct (Load_requests_pending loader_ab (mkRt world_ab []) hostAddress
              eq_refl eq_refl eq_refl eq_refl Hreg Hnd)
    as (q & r' & H1 & H2 & H3 & _).
  change (world (mkRt world_ab [])) with world_ab in H1, H2, H3.
  rewrite Hreq in H1, H2, H3.
  exists q, r'. split; [exact H1|]. split; [exact H2|exact H3].
Defined.

Lemma waiter_completes_witness :
  exists sl' r',
    waiter 1 [Tick [waitingB]; Tick [runningB]; Tick [failedB]] idle_loader rt0
      = Ok (Some sl', r') /\
    loaderCh sl' = chClosed /\
    ServiceLoader_Err sl' = None.
Proof.
  assert (Hidle : Forall (idle 1) [Tick [waitingB]]).
  { constructor; [|constructor]. exists [waitingB].
    split; [reflexivity|]. split; [repeat constructor|]. simpl. discriminate. }
  assert (Hclean : Forall (fun st => st_errs st = None) [runningB])
    by (repeat constructor).
  destruct (waiter_completes 1 [Tick [waitingB]] [Tick [failedB]] [runningB] idle_loader rt0
              Hidle Hclean eq_refl eq_refl)
    as (sl' & r' & H1 & _ & _ & H2 & _ & _ & H3).
  exists sl', r'. split; [exact H1|]. split; [exact H2|exact (H3 eq_refl)].
Defined.

Lemma waiter_times_out_witness :
  exists sl' r',
    waiter 1 [Tick [waitingB]; CtxDone [waitingB] DeadlineExceeded] idle_loader rt0
      = Ok (Some sl', r') /\
    sl_errs sl' = [not_on_time (Address_String addrB); DeadlineExceeded] /\
    loaderCh sl' = chClosed.
Proof.
  assert (Hidle : Forall (idle 1) [Tick [waitingB]]).
  { constructor; [|constructor]. exists [waitingB].
    split; [reflexivity|]. split; [repeat constructor|]. simpl. discriminate. }
  destruct (waiter_times_out 1 [Tick [waitingB]] [] [waitingB] DeadlineExceeded
              idle_loader rt0 Hidle eq_refl)
    as (sl' & r' & e & H1 & H2 & _ & H3 & _).
  exists sl', r'. split; [exact H1|]. split; [exact H2|exact H3].
Defined.

Lemma loader_timeout_default_witness :
  opts (sess world_ab) !! "app.service.loader.timeout" = None /\
  (exists q req r',
      Load loader_b (mkRt world_ab []) =
        Ok ((set_loading true loader_b, Some (mkWaiter q req 30000000000)), r') /\
      timeouts (effects r') = [30000000000]) /\
  Value_Int64 (Session_Get (sess world_patient) "app.service.loader.timeout") = 5000000000 /\
  (exists q req r',
      Load loader_b (mkRt world_patient []) =
        Ok ((set_loading true loader_b, Some (mkWaiter q req 5000000000)), r') /\
      timeouts (effects r') = [5000000000]).
Proof.
  assert (Hreg1 : Forall (registered (world (mkRt world_ab []))) (svcs loader_b)).
  { constructor; [exists (infoB false); reflexivity|constructor]. }
  assert (Hnd1 : NoDup (to_start (world (mkRt world_ab [])) (svcs loader_b))).
  { apply NoDup_ListNoDup. vm_compute. repeat constructor; intros []. }
  assert (Hreg2 : Forall (registered (world (mkRt world_patient []))) (svcs loader_b)).
  { constructor; [exists (infoB false); reflexivity|constructor]. }
  assert (Hnd2 : NoDup (to_start (world (mkRt world_patient [])) (svcs loader_b))).
  { apply NoDup_ListNoDup. vm_compute. repeat constructor; intros []. }
  split; [reflexivity|]. split; [|split; [reflexivity|]].
  - destruct (loader_timeout_default loader_b (mkRt world_ab []) hostAddress
                eq_refl eq_refl eq_refl eq_refl Hreg1 Hnd1)
      as (_ & (used & q & req & r' & HL & Ht & Hle & _) & _).
    rewrite (Hle ltac:(vm_compute; discriminate)) in HL, Ht.
    exists q, req, r'. split; [exact HL|exact Ht].
  - destruct (loader_timeout_default loader_b (mkRt world_patient []) hostAddress
                eq_refl eq_refl eq_refl eq_refl Hreg2 Hnd2)
      as (_ & (used & q & req & r' & HL & Ht & _ & Hlt) & _).
    rewrite (Hlt ltac:(vm_compute; reflexivity)) in HL, Ht.
    exists q, req, r'. split; [exact HL|exact Ht].
Defined.

Lemma loader_is_single_use_witness :
  loaderCh both_failed = chClosed /\
  Load both_failed rt0 = Panic "close of closed channel".
Proof.
  assert (Hch : loaderCh both_failed = chClosed) by reflexivity.
  split; [exact Hch|].
  apply (proj1 (loader_is_single_use both_failed Hch) rt0); [reflexivity|].
  vm_compute. discriminate.
Defined.

End MoreLoaderExamples.

Section LastExamples.
#[local] Existing Instance exampleSentinels.
#[local] Existing Instance exampleResolver.

Lemma loader_timeout_positive_witness :
  loader_timeout patient_session = 5000000000 /\
  0 < loader_timeout patient_session <= MaxInt64.
Proof.
  split; [reflexivity|]. exact (loader_timeout_positive patient_session).
Defined.

Lemma ensure_alphabet_witness :
  @ensure asciiUnicode [72; 97; 112; 32; 112; 46; 89; 33] = [104; 97; 112; 112; 46; 121] /\
  Forall (fun c => is_lower c || is_digit c || (c =? dot) = true)
         (@ensure asciiUnicode [72; 97; 112; 32; 112; 46; 89; 33]).
Proof.
  split; [reflexivity|].
  exact (proj1 (@ensure_alphabet asciiUnicode [72; 97; 112; 32; 112; 46; 89; 33] [])).
Defined.

Lemma NewServiceLoader_needs_host_witness :
  NewServiceLoader (inr boom) ["a"] =
    Panic "invalid memory address or nil pointer dereference".
Proof.
  exact (proj1 (NewServiceLoader_needs_host boom) "a" []).
Defined.

Lemma services_event_payload_witness :
  Payload (StartServicesEvent ["happy://host/app/service/a"; "happy://host/app/service/b"])
  = [("service.0", PStr "happy://host/app/service/a");
     ("service.1", PStr "happy://host/app/service/b")].
Proof.
  rewrite (proj1 (services_event_payload
                    ["happy://host/app/service/a"; "happy://host/app/service/b"])).
  reflexivity.
Defined.

End LastExamples.
